(** * xiaohongshu-mcp: account store, state polling, interact protocol, search

    A shallow embedding of the Go sources
      - accounts/paths.go            (account store)
      - xiaohongshu/wait.go          (state-sync primitive)
      - xiaohongshu like/favorite    (interact protocol)
      - xiaohongshu search           (search filters and search flow)
      - service.go                   (service layer: publish, like, favorite)
      - the MCP tool handlers        (arguments, like, favorite, search,
                                      publish, remark)
      - handlers_api.go              (HTTP account resolution and remark)
      - accounts without metadata    (the second version of the store)
    followed by the properties of the specification that were checked
    against it.

    Conventions.  A Go [string] is a Rocq [string], i.e. a sequence of
    bytes.  Go library functions that the sources call ([strings.TrimSpace],
    [regexp.MatchString], [utf8.DecodeRuneInString], [unicode.IsSpace],
    [os.MkdirAll], ...) are modelled by definitions of their documented
    behaviour, in the module that carries the name of their Go package.
    Fallible functions return a [Result]; code that talks to the browser
    runs in a small state-and-error monad over the interaction history. *)

From Stdlib Require Import ZArith Zbitwise Ascii String List Lia Bool Sorted
  Permutation.
From Equations Require Import Equations.
From stdpp Require Import base gmap strings list pretty.

Set Default Proof Using "Type".
Local Open Scope Z_scope.

(* ===================================================================== *)
(** * Part I: the embedding                                               *)
(* ===================================================================== *)

(** ** Errors and results *)

(** File-system failure causes that the sources distinguish or that the
    model can produce. *)
Inductive Errno : Type :=
| ENOENT    (* no such file or directory: [os.ErrNotExist] *)
| ENOTDIR   (* a path component is not a directory *)
| EISDIR    (* the path names a directory *)
| EGETWD.   (* the working directory cannot be determined *)

(** Go [error] values.  [ErrorString] is what [errors.New] and [fmt.Errorf]
    without [%w] build; [Wrapped] is [fmt.Errorf] with [%w] and
    [errors.Wrap]; [PathError] is the [*fs.PathError] of package [os]. *)
Inductive error : Type :=
| ErrorString (msg : string)
| Wrapped (msg : string) (cause : error)
| PathError (op : string) (path : list string) (errno : Errno)
| JSONSyntaxError
| ContextCanceled
| ContextDeadlineExceeded.

Inductive Result (A : Type) : Type :=
| Ok (a : A)
| Err (e : error).
Arguments Ok {A} a.
Arguments Err {A} e.

Definition isOk {A} (r : Result A) : bool :=
  match r with Ok _ => true | Err _ => false end.

(** ** Packages unicode/utf8, unicode and strings *)

Module utf8.

Definition byte_of (a : ascii) : Z := Z.of_N (N_of_ascii a).

Definition RuneError : Z := 0xFFFD.
Definition RuneSelf : Z := 0x80.

Definition locb : Z := 0x80.
Definition hicb : Z := 0xBF.
Definition maskx : Z := 0x3F.
Definition mask2 : Z := 0x1F.
Definition mask3 : Z := 0x0F.
Definition mask4 : Z := 0x07.

(** The [first] table: information about the first byte of an encoding.
    [0xF0] is ASCII, [0xF1] is invalid; otherwise the low three bits are
    the size and the high four bits index [acceptRanges]. *)
Definition first (b : Z) : Z :=
  if b <? 0x80 then 0xF0
  else if b <? 0xC2 then 0xF1
  else if b <? 0xE0 then 0x02
  else if b =? 0xE0 then 0x13
  else if b <? 0xED then 0x03
  else if b =? 0xED then 0x23
  else if b <? 0xF0 then 0x03
  else if b =? 0xF0 then 0x34
  else if b <? 0xF4 then 0x04
  else if b =? 0xF4 then 0x44
  else 0xF1.

(** [acceptRanges]: the range of valid values of the second byte. *)
Definition acceptRanges (i : Z) : Z * Z :=
  if i =? 0 then (locb, hicb)
  else if i =? 1 then (0xA0, hicb)
  else if i =? 2 then (locb, 0x9F)
  else if i =? 3 then (0x90, hicb)
  else if i =? 4 then (locb, 0x8F)
  else (0, 0).

(** [utf8.DecodeRuneInString]: the first rune of [s] and its width in
    bytes; [(RuneError, 0)] on the empty string and [(RuneError, 1)] on an
    invalid encoding.  Go's mask trick [rune(x) << 31 >> 31] selects
    [RuneError] exactly when bit 0 of [x] is set. *)
Definition DecodeRuneInString (s : string) : Z * nat :=
  match s with
  | EmptyString => (RuneError, 0%nat)
  | String a0 t0 =>
    let s0 := byte_of a0 in
    let x := first s0 in
    if 0xF0 <=? x then
      (if Z.testbit x 0 then RuneError else s0, 1%nat)
    else
      let sz := Z.land x 7 in
      let '(lo, hi) := acceptRanges (Z.shiftr x 4) in
      if Z.of_nat (String.length s) <? sz then (RuneError, 1%nat) else
      match t0 with
      | EmptyString => (RuneError, 1%nat)
      | String a1 t1 =>
        let s1 := byte_of a1 in
        if (s1 <? lo) || (hi <? s1) then (RuneError, 1%nat) else
        if sz <=? 2 then
          (Z.lor (Z.shiftl (Z.land s0 mask2) 6) (Z.land s1 maskx), 2%nat)
        else
        match t1 with
        | EmptyString => (RuneError, 1%nat)
        | String a2 t2 =>
          let s2 := byte_of a2 in
          if (s2 <? locb) || (hicb <? s2) then (RuneError, 1%nat) else
          if sz <=? 3 then
            (Z.lor (Z.lor (Z.shiftl (Z.land s0 mask3) 12)
                          (Z.shiftl (Z.land s1 maskx) 6))
                   (Z.land s2 maskx), 3%nat)
          else
          match t2 with
          | EmptyString => (RuneError, 1%nat)
          | String a3 _ =>
            let s3 := byte_of a3 in
            if (s3 <? locb) || (hicb <? s3) then (RuneError, 1%nat) else
            (Z.lor (Z.lor (Z.lor (Z.shiftl (Z.land s0 mask4) 18)
                                 (Z.shiftl (Z.land s1 maskx) 12))
                          (Z.shiftl (Z.land s2 maskx) 6))
                   (Z.land s3 maskx), 4%nat)
          end
        end
      end
  end.

(** [s[n:]] and [s[:n]]. *)
Fixpoint string_drop (n : nat) (s : string) : string :=
  match n, s with
  | O, _ => s
  | S k, EmptyString => EmptyString
  | S k, String _ t => string_drop k t
  end.

Fixpoint string_take (n : nat) (s : string) : string :=
  match n, s with
  | O, _ => EmptyString
  | S k, EmptyString => EmptyString
  | S k, String a t => String a (string_take k t)
  end.

Lemma string_drop_length_le (n : nat) (s : string) :
  (String.length (string_drop n s) <= String.length s)%nat.
Proof.
  revert s. induction n as [|n IH]; intros [|a t]; simpl; try lia.
  specialize (IH t). lia.
Qed.

(** The decoding of a string as [for _, r := range s] sees it: the runes
    from left to right, each with the bytes it was decoded from. *)
Equations chunks (s : string) : list (Z * string) by wf (String.length s) lt :=
chunks EmptyString := [];
chunks (String a t) :=
  let n := snd (DecodeRuneInString (String a t)) in
  (fst (DecodeRuneInString (String a t)), String a (string_take (n - 1) t))
    :: chunks (string_drop (n - 1) t).
Next Obligation.
  intros. simpl.
  eapply Nat.le_lt_trans; [apply string_drop_length_le | apply Nat.lt_succ_diag_r].
Qed.

Definition runes (s : string) : list Z := map fst (chunks s).

Definition unchunk (l : list (Z * string)) : string :=
  fold_right (fun c acc => String.append (snd c) acc) EmptyString l.

End utf8.

Module unicode.

(** [unicode.IsSpace]: the Latin-1 spaces, and above Latin-1 the code
    points of the [White_Space] table. *)
Definition IsSpace (r : Z) : bool :=
  if (0 <=? r) && (r <=? 0xFF) then
    (r =? 0x09) || (r =? 0x0A) || (r =? 0x0B) || (r =? 0x0C) || (r =? 0x0D)
    || (r =? 0x20) || (r =? 0x85) || (r =? 0xA0)
  else
    (r =? 0x1680) || ((0x2000 <=? r) && (r <=? 0x200A))
    || (r =? 0x2028) || (r =? 0x2029) || (r =? 0x202F) || (r =? 0x205F)
    || (r =? 0x3000).

End unicode.

Module strings.

Fixpoint drop_while {A} (f : A -> bool) (l : list A) : list A :=
  match l with
  | [] => []
  | x :: t => if f x then drop_while f t else l
  end.

Fixpoint drop_while_end {A} (f : A -> bool) (l : list A) : list A :=
  match l with
  | [] => []
  | x :: t =>
    match drop_while_end f t with
    | [] => if f x then [] else [x]
    | r => x :: r
    end
  end.

Definition space_chunk (c : Z * string) : bool := unicode.IsSpace (fst c).

(** [strings.TrimSpace]: "returns a slice of the string s, with all leading
    and trailing white space removed, as defined by Unicode". *)
Definition TrimSpace (s : string) : string :=
  utf8.unchunk (drop_while_end space_chunk
                  (drop_while space_chunk (utf8.chunks s))).

(** A string made of white space only (the empty string included). *)
Definition whitespace_only (s : string) : bool :=
  forallb unicode.IsSpace (utf8.runes s).

End strings.

(** ** Package os and time: the world the account store lives in *)

(** [AccountMeta] of accounts/paths.go.  A [time.Time] is modelled by the
    instant it denotes, in nanoseconds since the zero time (January 1,
    year 1, 00:00 UTC), so that [IsZero] is a comparison with [0]. *)
Record AccountMeta : Type := mkAccountMeta {
  Remark : string;
  CreatedAt : Z;
  UpdatedAt : Z
}.

Record AccountInfo : Type := mkAccountInfo {
  ID : string;
  InfoRemark : string;
  InfoCreatedAt : Z;
  InfoUpdatedAt : Z
}.

Definition IsZero (t : Z) : bool := t =? 0.

(** The content of a regular file, as far as [encoding/json] can tell it
    apart: [MetaJSON m] is any content that [json.Unmarshal] decodes to
    the [AccountMeta] [m] (absent fields decode to zero values), and what
    [json.MarshalIndent] writes for [m]; [Opaque] is any content on which
    decoding fails (cookies, images, damaged files). *)
Inductive FileData : Type :=
| MetaJSON (m : AccountMeta)
| Opaque (bytes : string).

Inductive node : Type :=
| Dir
| File (data : FileData).

(** A path is the list of its components below the file-system root; the
    root itself, [[]], is a directory. *)
Abbreviation path := (list string).
Abbreviation filesys := (gmap (list string) node).

Record DirEntry : Type := mkDirEntry {
  Name : string;
  EntryIsDir : bool
}.

Module os.

(** [os.Stat]: every component before the last must be a directory. *)
Fixpoint stat_walk (full pre : path) (rest : list string) (m : filesys)
  : Result node :=
  match rest with
  | [] => Ok Dir
  | c :: rest' =>
    match m !! (pre ++ [c]) with
    | None => Err (PathError "stat" full ENOENT)
    | Some n =>
      match rest' with
      | [] => Ok n
      | _ :: _ =>
        match n with
        | Dir => stat_walk full (pre ++ [c]) rest' m
        | File _ => Err (PathError "stat" full ENOTDIR)
        end
      end
    end
  end.

Definition Stat (p : path) (m : filesys) : Result node := stat_walk p [] p m.

(** [os.IsNotExist] and [errors.Is(err, os.ErrNotExist)]. *)
Definition IsNotExist (e : error) : bool :=
  match e with
  | PathError _ _ ENOENT => true
  | _ => false
  end.

(** [os.MkdirAll]: creates the directory and any missing parent; does
    nothing where a directory exists already; fails when a component is a
    regular file. *)
Fixpoint mkdir_walk (full pre : path) (rest : list string) (m : filesys)
  : Result filesys :=
  match rest with
  | [] => Ok m
  | c :: rest' =>
    match m !! (pre ++ [c]) with
    | Some (File _) => Err (PathError "mkdir" full ENOTDIR)
    | Some Dir => mkdir_walk full (pre ++ [c]) rest' m
    | None => mkdir_walk full (pre ++ [c]) rest' (<[pre ++ [c] := Dir]> m)
    end
  end.

Definition MkdirAll (p : path) (m : filesys) : Result filesys :=
  mkdir_walk p [] p m.

Definition ReadFile (p : path) (m : filesys) : Result FileData :=
  match Stat p m with
  | Err (PathError _ q errno) => Err (PathError "open" q errno)
  | Err e => Err e
  | Ok Dir => Err (PathError "read" p EISDIR)
  | Ok (File d) => Ok d
  end.

Definition parent (p : path) : path := removelast p.

(** [os.WriteFile]: creates or truncates the file; the directory that
    holds it must exist. *)
Definition WriteFile (p : path) (d : FileData) (m : filesys)
  : Result filesys :=
  match p with
  | [] => Err (PathError "open" p EISDIR)
  | _ :: _ =>
    match Stat (parent p) m with
    | Err (PathError _ _ errno) => Err (PathError "open" p errno)
    | Err e => Err e
    | Ok (File _) => Err (PathError "open" p ENOTDIR)
    | Ok Dir =>
      match m !! p with
      | Some Dir => Err (PathError "open" p EISDIR)
      | _ => Ok (<[p := File d]> m)
      end
    end
  end.

(** The name of [q] inside directory [p], when [q] is an entry of [p]. *)
Fixpoint entry_name (p q : path) : option string :=
  match p, q with
  | [], [c] => Some c
  | a :: p', b :: q' => if String.eqb a b then entry_name p' q' else None
  | _, _ => None
  end.

Definition is_Dir (n : node) : bool :=
  match n with Dir => true | File _ => false end.

Fixpoint insert_entry (e : DirEntry) (l : list DirEntry) : list DirEntry :=
  match l with
  | [] => [e]
  | x :: t => if String.ltb (Name e) (Name x) then e :: l
              else x :: insert_entry e t
  end.

(** [os.ReadDir]: the entries of the directory, sorted by file name. *)
Definition ReadDir (p : path) (m : filesys) : Result (list DirEntry) :=
  match Stat p m with
  | Err (PathError _ q errno) => Err (PathError "open" q errno)
  | Err e => Err e
  | Ok (File _) => Err (PathError "readdir" p ENOTDIR)
  | Ok Dir =>
    Ok (fold_right insert_entry []
          (omap (fun kn => match entry_name p (fst kn) with
                           | Some c => Some (mkDirEntry c (is_Dir (snd kn)))
                           | None => None
                           end)
                (map_to_list m)))
  end.

End os.

(** The world: the environment variable [XHS_MCP_DATA_DIR] (after
    [TrimSpace], as the directory it names; [None] when it is empty), the
    working directory ([None] when [os.Getwd] fails), the file system,
    and the wall clock with the number of times it was read.  The clock
    reads a positive number: no reading is the zero time. *)
Record World : Type := mkWorld {
  env_data_dir : option (list string);
  getwd : option (list string);
  fs : gmap (list string) node;
  clock : nat -> positive;
  clock_reads : nat
}.

Definition set_fs (m : filesys) (w : World) : World :=
  mkWorld (env_data_dir w) (getwd w) m (clock w) (clock_reads w).

(** Code with effects on the world; the world is returned on failure too,
    since what was created before the failure stays. *)
Definition IO (A : Type) : Type := World -> Result A * World.

Definition ret {A} (a : A) : IO A := fun w => (Ok a, w).

Definition fail {A} (e : error) : IO A := fun w => (Err e, w).

Definition bind {A B} (c : IO A) (k : A -> IO B) : IO B :=
  fun w => match c w with
           | (Ok a, w') => k a w'
           | (Err e, w') => (Err e, w')
           end.

Notation "x <- c ;; k" := (bind c (fun x => k))
  (at level 100, c at next level, right associativity).
Notation "c ;;; k" := (bind c (fun _ => k))
  (at level 100, right associativity).

(** Lifting of the file-system calls. *)
Definition lift_fs (f : filesys -> Result filesys) : IO unit :=
  fun w => match f (fs w) with
           | Ok m => (Ok tt, set_fs m w)
           | Err e => (Err e, w)
           end.

Definition read_fs {A} (f : filesys -> Result A) : IO A :=
  fun w => (f (fs w), w).

(** [time.Now]. *)
Definition time_Now : IO Z :=
  fun w => (Ok (Zpos (clock w (clock_reads w))),
            mkWorld (env_data_dir w) (getwd w) (fs w) (clock w)
                    (S (clock_reads w))).

(** How a path prints in an error message. *)
Definition path_string (p : path) : string :=
  fold_right (fun c acc => "/" +:+ c +:+ acc) "" p.

(** ** Package accounts (accounts/paths.go): the store *)

Module accounts.

Definition defaultAccountID : string := "default".

(** The character class [[a-zA-Z0-9_-]]. *)
Definition idClass (r : Z) : bool :=
  ((0x61 <=? r) && (r <=? 0x7A)) || ((0x41 <=? r) && (r <=? 0x5A))
  || ((0x30 <=? r) && (r <=? 0x39)) || (r =? 0x5F) || (r =? 0x2D).

(** [accountIDPattern.MatchString] for [^[a-zA-Z0-9_-]+$]: the whole text
    is one or more runes of the class ([$] without the [m] flag is the end
    of the text). *)
Definition accountIDPattern_MatchString (s : string) : bool :=
  match utf8.runes s with
  | [] => false
  | rs => forallb idClass rs
  end.

(** The error of [fmt.Errorf("invalid account_id: %s", accountID)]; it
    carries the identifier as it was given. *)
Definition InvalidAccountID (accountID : string) : error :=
  ErrorString ("invalid account_id: " +:+ accountID).

Definition sanitizeAccountID (accountID : string) : Result string :=
  let trimmed := strings.TrimSpace accountID in
  if String.eqb trimmed "" then Ok defaultAccountID
  else if negb (accountIDPattern_MatchString trimmed) then
    Err (InvalidAccountID accountID)
  else Ok trimmed.

Definition ValidateAccountID (accountID : string) : option error :=
  match sanitizeAccountID accountID with
  | Err e => Some e
  | Ok _ => None
  end.

Definition DefaultAccountID : string := defaultAccountID.

Definition ResolveAccountID (accountID : string) : Result string :=
  match sanitizeAccountID accountID with
  | Err e => Err e
  | Ok id => Ok id
  end.

Definition IsDefaultAccount (accountID : string) : bool :=
  match sanitizeAccountID accountID with
  | Err _ => false
  | Ok resolved => String.eqb resolved defaultAccountID
  end.

Definition cookiesFileName : string := "cookies.json".
Definition imagesDirName : string := "images".
Definition dataDirName : string := "accounts".
Definition metaFileName : string := "meta.json".

Definition ensure_dir (what : string) (dir : path) : IO unit :=
  fun w => match os.MkdirAll dir (fs w) with
           | Ok m => (Ok tt, set_fs m w)
           | Err e =>
             (Err (Wrapped ("failed to ensure " +:+ what +:+ " "
                            +:+ path_string dir) e), w)
           end.

Definition baseDataDir : IO path :=
  fun w =>
    match env_data_dir w with
    | Some dir => (ensure_dir "data dir" dir ;;; ret dir) w
    | None =>
      match getwd w with
      | None =>
        (Err (Wrapped "failed to determine working directory"
                (PathError "getwd" [] EGETWD)), w)
      | Some cwd =>
        let dir := cwd ++ ["data"] in
        (ensure_dir "data dir" dir ;;; ret dir) w
      end
    end.

Definition accountsRootDir : IO path :=
  baseDir <- baseDataDir ;;
  let root := baseDir ++ [dataDirName] in
  ensure_dir "accounts dir" root ;;;
  ret root.

Definition accountDir (accountID : string) : IO path :=
  match sanitizeAccountID accountID with
  | Err e => fail e
  | Ok id =>
    root <- accountsRootDir ;;
    let dir := root ++ [id] in
    ensure_dir "account dir" dir ;;;
    ret dir
  end.

Definition metaPath (accountID : string) : IO path :=
  dir <- accountDir accountID ;;
  ret (dir ++ [metaFileName]).

Definition defaultAccountMeta : IO AccountMeta :=
  now <- time_Now ;;
  ret (mkAccountMeta "" now now).

Definition normalizeAccountMeta (meta : AccountMeta) : IO AccountMeta :=
  meta1 <- (if IsZero (CreatedAt meta)
            then now <- time_Now ;;
                 ret (mkAccountMeta (Remark meta) now (UpdatedAt meta))
            else ret meta) ;;
  ret (if IsZero (UpdatedAt meta1)
       then mkAccountMeta (Remark meta1) (CreatedAt meta1) (CreatedAt meta1)
       else meta1).

Definition saveAccountMeta (p : path) (meta : AccountMeta) : IO unit :=
  let meta' := mkAccountMeta (strings.TrimSpace (Remark meta))
                             (CreatedAt meta) (UpdatedAt meta) in
  lift_fs (os.WriteFile p (MetaJSON meta')).

(** [json.Unmarshal(data, &meta)]. *)
Definition json_Unmarshal (data : FileData) : Result AccountMeta :=
  match data with
  | MetaJSON m => Ok m
  | Opaque _ => Err JSONSyntaxError
  end.

Definition ensureMeta (accountID : string) : IO AccountMeta :=
  p <- metaPath accountID ;;
  fun w =>
    match os.ReadFile p (fs w) with
    | Err e =>
      if os.IsNotExist e then
        (meta <- defaultAccountMeta ;;
         saveAccountMeta p meta ;;;
         ret meta) w
      else (Err e, w)
    | Ok data =>
      match json_Unmarshal data with
      | Err e => (Err e, w)
      | Ok meta0 =>
        (meta <- normalizeAccountMeta meta0 ;;
         saveAccountMeta p meta ;;;
         ret meta) w
      end
    end.

Definition CookiesPath (accountID : string) : IO path :=
  dir <- accountDir accountID ;;
  ret (dir ++ [cookiesFileName]).

Definition ImagesDir (accountID : string) : IO path :=
  dir <- accountDir accountID ;;
  let imagesDir := dir ++ [imagesDirName] in
  ensure_dir "images dir" imagesDir ;;;
  ret imagesDir.

Definition EnsureAccount (accountID : string) : IO unit :=
  CookiesPath accountID ;;;
  ImagesDir accountID ;;;
  ensureMeta accountID ;;;
  ret tt.

Definition info_of (id : string) (meta : AccountMeta) : AccountInfo :=
  mkAccountInfo id (Remark meta) (CreatedAt meta) (UpdatedAt meta).

(** [sort.Slice(infos, less)], as an insertion sort. *)
Fixpoint sort_insert {A} (less : A -> A -> bool) (x : A) (l : list A)
  : list A :=
  match l with
  | [] => [x]
  | y :: t => if less x y then x :: l else y :: sort_insert less x t
  end.

Definition sort_Slice {A} (less : A -> A -> bool) (l : list A) : list A :=
  fold_right (sort_insert less) [] l.

(** The comparison that [ListAccounts] sorts by:
    [infos[i].ID < infos[j].ID]. *)
Definition id_less (a b : AccountInfo) : bool := String.ltb (ID a) (ID b).

(** The loop of [ListAccounts] over the directory entries. *)
Fixpoint list_entries (entries : list DirEntry) (infos : list AccountInfo)
  : IO (list AccountInfo) :=
  match entries with
  | [] => ret infos
  | entry :: rest =>
    if negb (EntryIsDir entry) then list_entries rest infos
    else
      let id := Name entry in
      meta <- ensureMeta id ;;
      list_entries rest (infos ++ [info_of id meta])
  end.

Definition ListAccounts : IO (list AccountInfo) :=
  root <- accountsRootDir ;;
  entries <- read_fs (os.ReadDir root) ;;
  infos <- list_entries entries [] ;;
  infos' <-
    (fun w =>
       match os.Stat (root ++ [defaultAccountID]) (fs w) with
       | Err e =>
         if os.IsNotExist e then
           (EnsureAccount defaultAccountID ;;;
            meta <- ensureMeta defaultAccountID ;;
            ret (infos ++ [info_of defaultAccountID meta])) w
         else (Ok infos, w)
       | Ok _ => (Ok infos, w)
       end) ;;
  ret (sort_Slice id_less infos').

Definition SetAccountRemark (accountID remark : string) : IO AccountInfo :=
  match ResolveAccountID accountID with
  | Err e => fail e
  | Ok id =>
    EnsureAccount id ;;;
    p <- metaPath id ;;
    meta <- ensureMeta id ;;
    now <- time_Now ;;
    let created := if IsZero (CreatedAt meta) then now else CreatedAt meta in
    let meta' := mkAccountMeta (strings.TrimSpace remark) created now in
    saveAccountMeta p meta' ;;;
    ret (info_of id meta')
  end.

End accounts.

(** ** The browser: a page as an oracle over the interaction history *)

(** Code that may return an error or panic (the [Must...] calls of rod
    panic instead of returning an error). *)
Inductive Outcome (A : Type) : Type :=
| Done (a : A)
| Failed (e : error)
| Panicked.
Arguments Done {A} a.
Arguments Failed {A} e.
Arguments Panicked {A}.

Inductive Level : Type := InfoLevel | WarnLevel | ErrorLevel.

(** A value that a script evaluated to, as far as [Nil], [Bool] and [Str]
    of gson can tell. *)
Inductive JSValue : Type :=
| JSNull
| JSBool (b : bool)
| JSString (s : string).

Definition JSValue_Nil (v : JSValue) : bool :=
  match v with JSNull => true | _ => false end.

Definition JSValue_Bool (v : JSValue) : bool :=
  match v with JSBool b => b | _ => false end.

Definition JSValue_Str (v : JSValue) : string :=
  match v with
  | JSString s => s
  | JSBool true => "true"
  | JSBool false => "false"
  | JSNull => "<nil>"
  end.

(** [page.Evaluate]: an error, a nil result, or a value. *)
Inductive EvalOutcome : Type :=
| EvalError (e : error)
| EvalNoResult
| EvalValue (v : JSValue).

(** [page.Element(selector)]: an error, a nil element, or the element. *)
Inductive ElementOutcome : Type :=
| ElementError (e : error)
| ElementNil
| ElementFound.

(** A tag of the filter panel: the text of its [span] ([None] when the
    tag has none) and its [class] attribute. *)
Record Tag : Type := mkTag {
  tag_text : option string;
  tag_class : option string
}.

(** What happened on the page, newest first.  Every call records its
    answer. *)
Inductive Event : Type :=
| EvNavigate (url : string) (res : option error)
| EvWaitDOMStable (ok : bool)
| EvSleep (ms : Z)
| EvMustEval (js : string) (res : option string)
| EvEvaluate (js : string) (res : EvalOutcome)
| EvDeadline
| EvElement (selector : string) (res : ElementOutcome)
| EvClick (selector : string) (res : option error)
| EvMustElement (selector : string) (ok : bool)
| EvMustHover (selector : string) (ok : bool)
| EvMustWaitVisible (selector : string) (ok : bool)
| EvMustElements (selector : string) (res : option (list Tag))
| EvMustClick (selector : string) (label : string) (ok : bool)
| EvLog (level : Level) (msg : string)
| EvNewBrowser (cookies : option FileData)
| EvNewPage
| EvPageClose
| EvBrowserClose
| EvProcessImages (dir : list string) (images : list string)
                  (res : Result (list string))
| EvPublishImage (title content : string) (tags imagePaths : list string)
                 (res : Outcome unit).

(** The page, the browser behind it, the image downloader and the
    publish action are collaborators: the model takes their answers from
    an oracle that sees the history so far.  [on_ticks h timeout] is the
    number of polling ticks that a wait of [timeout] milliseconds started
    at history [h] sees before its deadline is selected. *)
Record Page : Type := mkPage {
  on_Navigate : list Event -> string -> option error;
  on_WaitDOMStable : list Event -> bool;
  on_MustEval : list Event -> string -> option string;
  on_Evaluate : list Event -> string -> EvalOutcome;
  on_ticks : list Event -> Z -> nat;
  on_Element : list Event -> string -> ElementOutcome;
  on_Click : list Event -> string -> option error;
  on_MustElement : list Event -> string -> bool;
  on_MustHover : list Event -> string -> bool;
  on_MustWaitVisible : list Event -> string -> bool;
  on_MustElements : list Event -> string -> option (list Tag);
  on_MustClick : list Event -> string -> string -> bool;
  on_ProcessImages : list Event -> list string -> list string
                     -> Result (list string);
  on_PublishImage : list Event -> string -> string -> list string
                    -> list string -> Outcome unit
}.

Definition Act (A : Type) : Type :=
  Page -> list Event -> Outcome A * list Event.

Definition act_ret {A} (a : A) : Act A := fun _ h => (Done a, h).

Definition act_fail {A} (e : error) : Act A := fun _ h => (Failed e, h).

Definition act_bind {A B} (c : Act A) (k : A -> Act B) : Act B :=
  fun pg h => match c pg h with
              | (Done a, h') => k a pg h'
              | (Failed e, h') => (Failed e, h')
              | (Panicked, h') => (Panicked, h')
              end.

Notation "x <~ c ;; k" := (act_bind c (fun x => k))
  (at level 100, c at next level, right associativity).
Notation "c ;;> k" := (act_bind c (fun _ => k))
  (at level 100, right associativity).

Definition log (level : Level) (msg : string) : Act unit :=
  fun _ h => (Done tt, EvLog level msg :: h).

Definition Sleep (ms : Z) : Act unit :=
  fun _ h => (Done tt, EvSleep ms :: h).

(** [page.Navigate(url)], as a call that returns an error. *)
Definition Navigate (url : string) : Act (option error) :=
  fun pg h => let r := on_Navigate pg h url in
              (Done r, EvNavigate url r :: h).

Definition MustWaitDOMStable : Act unit :=
  fun pg h => let ok := on_WaitDOMStable pg h in
              (if ok then Done tt else Panicked, EvWaitDOMStable ok :: h).

Definition MustEval (js : string) : Act string :=
  fun pg h => let r := on_MustEval pg h js in
              (match r with Some s => Done s | None => Panicked end,
               EvMustEval js r :: h).

Definition Evaluate (js : string) : Act EvalOutcome :=
  fun pg h => let r := on_Evaluate pg h js in
              (Done r, EvEvaluate js r :: h).

Definition Element (selector : string) : Act ElementOutcome :=
  fun pg h => let r := on_Element pg h selector in
              (Done r, EvElement selector r :: h).

Definition Click (selector : string) : Act (option error) :=
  fun pg h => let r := on_Click pg h selector in
              (Done r, EvClick selector r :: h).

Definition must (ok : bool) (ev : Event) : Act unit :=
  fun _ h => (if ok then Done tt else Panicked, ev :: h).

Definition MustElement (selector : string) : Act unit :=
  fun pg h => must (on_MustElement pg h selector)
                   (EvMustElement selector (on_MustElement pg h selector)) pg h.

Definition MustHover (selector : string) : Act unit :=
  fun pg h => must (on_MustHover pg h selector)
                   (EvMustHover selector (on_MustHover pg h selector)) pg h.

Definition MustWaitVisible (selector : string) : Act unit :=
  fun pg h => must (on_MustWaitVisible pg h selector)
                   (EvMustWaitVisible selector
                      (on_MustWaitVisible pg h selector)) pg h.

Definition MustElements (selector : string) : Act (list Tag) :=
  fun pg h => let r := on_MustElements pg h selector in
              (match r with Some l => Done l | None => Panicked end,
               EvMustElements selector r :: h).

Definition MustClick (selector label : string) : Act unit :=
  fun pg h => must (on_MustClick pg h selector label)
                   (EvMustClick selector label
                      (on_MustClick pg h selector label)) pg h.

(** [err.Error()]. *)
Definition errno_message (n : Errno) : string :=
  match n with
  | ENOENT => "no such file or directory"
  | ENOTDIR => "not a directory"
  | EISDIR => "is a directory"
  | EGETWD => "getwd failed"
  end.

Fixpoint Error (e : error) : string :=
  match e with
  | ErrorString msg => msg
  | Wrapped msg cause => msg +:+ ": " +:+ Error cause
  | PathError op p n => op +:+ " " +:+ path_string p +:+ ": " +:+ errno_message n
  | JSONSyntaxError => "invalid character"
  | ContextCanceled => "context canceled"
  | ContextDeadlineExceeded => "context deadline exceeded"
  end.

(** [err == context.Canceled]. *)
Definition is_Canceled (e : error) : bool :=
  match e with ContextCanceled => true | _ => false end.

(** ** Package xiaohongshu *)

Module xiaohongshu.

(** *** wait.go *)

(** One tick of the loop of [waitForInitialState]: [Some r] when the loop
    returns [r], [None] when it goes on ([continue], or the end of the
    [select] case). *)
Definition poll (res : EvalOutcome) : option (Outcome unit) :=
  match res with
  | EvalError err => if is_Canceled err then Some (Failed err) else None
  | EvalNoResult => None
  | EvalValue v =>
    if JSValue_Nil v then None
    else if JSValue_Bool v then Some (Done tt) else None
  end.

(** The loop, for the [n] ticks that are selected before [ctx.Done()]
    is: the tick case evaluates the predicate; when the ticks are used up
    the deadline case returns [ctx.Err()]. *)
Fixpoint wait_loop (n : nat) (expr : string) : Act unit :=
  match n with
  | O => fun _ h => (Failed ContextDeadlineExceeded, EvDeadline :: h)
  | S n' =>
    fun pg h =>
      match Evaluate expr pg h with
      | (Done res, h') =>
        match poll res with
        | Some r => (r, h')
        | None => wait_loop n' expr pg h'
        end
      | (Failed e, h') => (Failed e, h')
      | (Panicked, h') => (Panicked, h')
      end
  end.

Definition waitForInitialState (expr : string) (timeout : Z) : Act unit :=
  fun pg h => wait_loop (on_ticks pg h timeout) expr pg h.

(** *** like_favorite.go *)

Record ActionResult : Type := mkActionResult {
  FeedID : string;
  Success : bool;
  Message : string
}.

Definition selectorLikeButton : string :=
  ".interact-container .left .like-lottie".
Definition selectorCollectButton : string :=
  ".interact-container .left .reds-icon.collect-icon".

Definition actionLike : string := "点赞".
Definition actionFavorite : string := "收藏".
Definition actionUnlike : string := "取消点赞".
Definition actionUnfavorite : string := "取消收藏".

(** The script of [getInteractState]. *)
Definition noteDetailMapJS : string := "noteDetailMap".

Section Interact.

(** [makeFeedDetailURL] is defined in a file that is not part of the
    sources at hand; [json_noteDetailMap] is [json.Unmarshal] into the
    map from feed identifiers to [(liked, collected)]. *)
Variable makeFeedDetailURL : string -> string -> string.
Variable json_noteDetailMap : string -> Result (gmap string (bool * bool)).

Definition preparePage (actionType feedID xsecToken : string) : Act unit :=
  let url := makeFeedDetailURL feedID xsecToken in
  log InfoLevel ("Opening feed detail page for " +:+ actionType +:+ ": "
                 +:+ url) ;;>
  err <~ Navigate url ;;
  match err with
  | Some e => act_fail e
  | None =>
    MustWaitDOMStable ;;>
    Sleep 1000 ;;>
    act_ret tt
  end.

Definition performClick (selector : string) : Act unit :=
  element <~ Element selector ;;
  match element with
  | ElementError err => act_fail err
  | ElementNil => act_fail (ErrorString ("未找到操作按钮: " +:+ selector))
  | ElementFound =>
    err <~ Click selector ;;
    match err with
    | Some e => act_fail e
    | None => act_ret tt
    end
  end.

Definition getInteractState (feedID : string) : Act (bool * bool) :=
  result <~ MustEval noteDetailMapJS ;;
  if String.eqb result "" then
    act_fail (ErrorString "__INITIAL_STATE__ not found")
  else
    match json_noteDetailMap result with
    | Err err => act_fail (Wrapped "unmarshal note detail map failed" err)
    | Ok noteDetailMap =>
      match noteDetailMap !! feedID with
      | None => act_fail (ErrorString ("feed " +:+ feedID
                                       +:+ " not found in note detail map"))
      | Some (liked, collected) => act_ret (liked, collected)
      end
    end.

(** [liked, _, err := a.getInteractState(page, feedID)] followed by
    [if err != nil]: the error of the read is a value that the caller
    inspects. *)
Definition try_getInteractState (feedID : string)
  : Act (Result (bool * bool)) :=
  fun pg h => match getInteractState feedID pg h with
              | (Done st, h') => (Done (Ok st), h')
              | (Failed e, h') => (Done (Err e), h')
              | (Panicked, h') => (Panicked, h')
              end.

Definition toggleLike (feedID : string) (targetLiked : bool)
    (actionType : string) : Act unit :=
  performClick selectorLikeButton ;;>
  Sleep 3000 ;;>
  st <~ try_getInteractState feedID ;;
  match st with
  | Err err =>
    log WarnLevel ("验证" +:+ actionType +:+ "状态失败: " +:+ Error err) ;;>
    act_ret tt
  | Ok (liked, _) =>
    if Bool.eqb liked targetLiked then
      log InfoLevel ("feed " +:+ feedID +:+ " " +:+ actionType +:+ "成功") ;;>
      act_ret tt
    else
      log WarnLevel ("feed " +:+ feedID +:+ " " +:+ actionType
                     +:+ "可能未成功，状态未变化，尝试再次点击") ;;>
      performClick selectorLikeButton ;;>
      Sleep 2000 ;;>
      st2 <~ try_getInteractState feedID ;;
      match st2 with
      | Err err =>
        log WarnLevel ("第二次验证" +:+ actionType +:+ "状态失败: "
                       +:+ Error err) ;;>
        act_ret tt
      | Ok (liked2, _) =>
        if Bool.eqb liked2 targetLiked then
          log InfoLevel ("feed " +:+ feedID +:+ " 第二次点击" +:+ actionType
                         +:+ "成功") ;;>
          act_ret tt
        else act_ret tt
      end
  end.

Definition LikeAction_perform (feedID xsecToken : string)
    (targetLiked : bool) : Act unit :=
  let actionType := if negb targetLiked then actionUnlike else actionLike in
  preparePage actionType feedID xsecToken ;;>
  st <~ try_getInteractState feedID ;;
  match st with
  | Err err =>
    log WarnLevel ("failed to read interact state: " +:+ Error err
                   +:+ " (continue to try clicking)") ;;>
    toggleLike feedID targetLiked actionType
  | Ok (liked, _) =>
    if targetLiked && liked then
      log InfoLevel ("feed " +:+ feedID +:+ " already liked, skip clicking") ;;>
      act_ret tt
    else if negb targetLiked && negb liked then
      log InfoLevel ("feed " +:+ feedID +:+ " not liked yet, skip clicking") ;;>
      act_ret tt
    else toggleLike feedID targetLiked actionType
  end.

Definition Like (feedID xsecToken : string) : Act unit :=
  LikeAction_perform feedID xsecToken true.

Definition Unlike (feedID xsecToken : string) : Act unit :=
  LikeAction_perform feedID xsecToken false.

Definition toggleFavorite (feedID : string) (targetCollected : bool)
    (actionType : string) : Act unit :=
  performClick selectorCollectButton ;;>
  Sleep 3000 ;;>
  st <~ try_getInteractState feedID ;;
  match st with
  | Err err =>
    log WarnLevel ("验证" +:+ actionType +:+ "状态失败: " +:+ Error err) ;;>
    act_ret tt
  | Ok (_, collected) =>
    if Bool.eqb collected targetCollected then
      log InfoLevel ("feed " +:+ feedID +:+ " " +:+ actionType +:+ "成功") ;;>
      act_ret tt
    else
      log WarnLevel ("feed " +:+ feedID +:+ " " +:+ actionType
                     +:+ "可能未成功，状态未变化，尝试再次点击") ;;>
      performClick selectorCollectButton ;;>
      Sleep 2000 ;;>
      st2 <~ try_getInteractState feedID ;;
      match st2 with
      | Err err =>
        log WarnLevel ("第二次验证" +:+ actionType +:+ "状态失败: "
                       +:+ Error err) ;;>
        act_ret tt
      | Ok (_, collected2) =>
        if Bool.eqb collected2 targetCollected then
          log InfoLevel ("feed " +:+ feedID +:+ " 第二次点击" +:+ actionType
                         +:+ "成功") ;;>
          act_ret tt
        else act_ret tt
      end
  end.

Definition FavoriteAction_perform (feedID xsecToken : string)
    (targetCollected : bool) : Act unit :=
  let actionType :=
    if negb targetCollected then actionUnfavorite else actionFavorite in
  preparePage actionType feedID xsecToken ;;>
  st <~ try_getInteractState feedID ;;
  match st with
  | Err err =>
    log WarnLevel ("failed to read interact state: " +:+ Error err
                   +:+ " (continue to try clicking)") ;;>
    toggleFavorite feedID targetCollected actionType
  | Ok (_, collected) =>
    if targetCollected && collected then
      log InfoLevel ("feed " +:+ feedID
                     +:+ " already favorited, skip clicking") ;;>
      act_ret tt
    else if negb targetCollected && negb collected then
      log InfoLevel ("feed " +:+ feedID
                     +:+ " not favorited yet, skip clicking") ;;>
      act_ret tt
    else toggleFavorite feedID targetCollected actionType
  end.

Definition Favorite (feedID xsecToken : string) : Act unit :=
  FavoriteAction_perform feedID xsecToken true.

Definition Unfavorite (feedID xsecToken : string) : Act unit :=
  FavoriteAction_perform feedID xsecToken false.

End Interact.

End xiaohongshu.

(** ** Package xiaohongshu: search.go *)

Module search.

Record SearchFilters : Type := mkSearchFilters {
  Sort : string;
  NoteType : string;
  PublishTime : string;
  SearchScope : string;
  Distance : string
}.

Definition SortDefault : string := "comprehensive".
Definition SortLatest : string := "latest".
Definition SortMostLikes : string := "most_likes".
Definition SortMostComments : string := "most_comments".
Definition SortMostFavorites : string := "most_favorites".

Definition NoteTypeAll : string := "all".
Definition NoteTypeVideo : string := "video".
Definition NoteTypeImage : string := "image".

Definition PublishAll : string := "all".
Definition PublishDay : string := "day".
Definition PublishWeek : string := "week".
Definition PublishHalfYr : string := "half_year".

Definition ScopeAll : string := "all".
Definition ScopeSeen : string := "seen".
Definition ScopeUnseen : string := "unseen".
Definition ScopeFollowed : string := "followed".

Definition DistanceAll : string := "all".
Definition DistanceSameCity : string := "same_city".
Definition DistanceNearby : string := "nearby".

Definition sortOptionLabels : gmap string string :=
  list_to_map [ (SortDefault, "综合"); (SortLatest, "最新");
                (SortMostLikes, "最多点赞"); (SortMostComments, "最多评论");
                (SortMostFavorites, "最多收藏") ].

Definition noteTypeLabels : gmap string string :=
  list_to_map [ (NoteTypeAll, "不限"); (NoteTypeVideo, "视频");
                (NoteTypeImage, "图文") ].

Definition publishTimeLabels : gmap string string :=
  list_to_map [ (PublishAll, "不限"); (PublishDay, "一天内");
                (PublishWeek, "一周内"); (PublishHalfYr, "半年内") ].

Definition searchScopeLabels : gmap string string :=
  list_to_map [ (ScopeAll, "不限"); (ScopeSeen, "已看过");
                (ScopeUnseen, "未看过"); (ScopeFollowed, "已关注") ].

Definition distanceLabels : gmap string string :=
  list_to_map [ (DistanceAll, "不限"); (DistanceSameCity, "同城");
                (DistanceNearby, "附近") ].

(** [_, ok := labels[key]]. *)
Definition has_key (labels : gmap string string) (key : string) : bool :=
  match labels !! key with Some _ => true | None => false end.

(** [labels[key]]: the empty string when the key is absent. *)
Definition label_of (labels : gmap string string) (key : string) : string :=
  match labels !! key with Some l => l | None => "" end.

Definition NewSearchFilters (sort noteType publishTime searchScope
    distance : string) : Result SearchFilters :=
  let sort := if String.eqb sort "" then SortDefault else sort in
  let noteType := if String.eqb noteType "" then NoteTypeAll else noteType in
  let publishTime :=
    if String.eqb publishTime "" then PublishAll else publishTime in
  let searchScope :=
    if String.eqb searchScope "" then ScopeAll else searchScope in
  let distance := if String.eqb distance "" then DistanceAll else distance in
  if negb (has_key sortOptionLabels sort) then
    Err (ErrorString ("invalid sort option: " +:+ sort))
  else if negb (has_key noteTypeLabels noteType) then
    Err (ErrorString ("invalid note_type option: " +:+ noteType))
  else if negb (has_key publishTimeLabels publishTime) then
    Err (ErrorString ("invalid publish_time option: " +:+ publishTime))
  else if negb (has_key searchScopeLabels searchScope) then
    Err (ErrorString ("invalid search_scope option: " +:+ searchScope))
  else if negb (has_key distanceLabels distance) then
    Err (ErrorString ("invalid distance option: " +:+ distance))
  else Ok (mkSearchFilters sort noteType publishTime searchScope distance).

(** [(f *SearchFilters) isDefault()]; [None] is the nil pointer. *)
Definition isDefault (f : option SearchFilters) : bool :=
  match f with
  | None => true
  | Some f =>
    String.eqb (Sort f) SortDefault && String.eqb (NoteType f) NoteTypeAll
    && String.eqb (PublishTime f) PublishAll
    && String.eqb (SearchScope f) ScopeAll
    && String.eqb (Distance f) DistanceAll
  end.

(** The two scripts of [Search]: the readiness predicate and the
    serialization of [window.__INITIAL_STATE__]. *)
Definition searchReadyJS : string := "search.feeds._value.length > 0".
Definition initialStateJS : string := "JSON.stringify(__INITIAL_STATE__)".

(** [strings.Contains]. *)
Fixpoint has_prefix (p s : string) : bool :=
  match p, s with
  | EmptyString, _ => true
  | String a p', String b s' => Ascii.eqb a b && has_prefix p' s'
  | String _ _, EmptyString => false
  end.

Fixpoint Contains (s sub : string) : bool :=
  has_prefix sub s
  || match s with
     | EmptyString => false
     | String _ s' => Contains s' sub
     end.

(** The loop of [clickFilterTag] over the tags. *)
Fixpoint clickFilterTag_loop (selector target : string) (tags : list Tag)
  : Act unit :=
  match tags with
  | [] => act_fail (ErrorString ("未找到筛选项 " +:+ target))
  | tag :: rest =>
    match tag_text tag with
    | None => clickFilterTag_loop selector target rest
    | Some raw =>
      let text := strings.TrimSpace raw in
      if String.eqb text target then
        match tag_class tag with
        | Some className =>
          if Contains className "active" then act_ret tt
          else MustClick selector target ;;> Sleep 200 ;;> act_ret tt
        | None => MustClick selector target ;;> Sleep 200 ;;> act_ret tt
        end
      else clickFilterTag_loop selector target rest
    end
  end.

Definition clickFilterTag (selector target : string) : Act unit :=
  tags <~ MustElements selector ;;
  clickFilterTag_loop selector target tags.

Definition when_not (skip : bool) (c : Act unit) : Act unit :=
  if skip then act_ret tt else c.

Definition applySearchFilters (filters : SearchFilters) : Act unit :=
  MustElement "div.filter" ;;>
  MustHover "div.filter" ;;>
  MustElement "div.filter-panel" ;;>
  MustWaitVisible "div.filter-panel" ;;>
  when_not (String.eqb (Sort filters) SortDefault)
    (clickFilterTag ".filters-wrapper > div:nth-child(1) .tags"
       (label_of sortOptionLabels (Sort filters))) ;;>
  when_not (String.eqb (NoteType filters) NoteTypeAll)
    (clickFilterTag ".filters-wrapper > div:nth-child(2) .tags"
       (label_of noteTypeLabels (NoteType filters))) ;;>
  when_not (String.eqb (PublishTime filters) PublishAll)
    (clickFilterTag ".filters-wrapper > div:nth-child(3) .tags"
       (label_of publishTimeLabels (PublishTime filters))) ;;>
  when_not (String.eqb (SearchScope filters) ScopeAll)
    (clickFilterTag ".filters-wrapper > div:nth-child(4) .tags"
       (label_of searchScopeLabels (SearchScope filters))) ;;>
  when_not (String.eqb (Distance filters) DistanceAll)
    (clickFilterTag ".filters-wrapper > div:nth-child(5) .tags"
       (label_of distanceLabels (Distance filters))) ;;>
  MustElement ".operation-container .operation:nth-child(2)" ;;>
  MustClick ".operation-container .operation:nth-child(2)" "" ;;>
  Sleep 500 ;;>
  xiaohongshu.waitForInitialState searchReadyJS 30000.

Section Search.

(** [Feed] and [FeedsValue] are declared in a file that is not part of
    the sources at hand; [json_searchFeeds] is [json.Unmarshal] into
    [SearchResult] followed by the selection of [Search.Feeds.Value];
    [url_QueryEscape] is the escaping that [url.Values.Encode] applies. *)
Variable Feed : Type.
Variable json_searchFeeds : string -> Result (list Feed).
Variable url_QueryEscape : string -> string.

Definition makeSearchURL (keyword : string) : string :=
  "https://www.xiaohongshu.com/search_result?" +:+ "keyword="
  +:+ url_QueryEscape keyword +:+ "&source=web_explore_feed".

Definition Search (keyword : string) (filters : option SearchFilters)
  : Act (list Feed) :=
  let searchURL := makeSearchURL keyword in
  err <~ Navigate searchURL ;;
  match err with
  | Some e => act_fail e
  | None =>
    xiaohongshu.waitForInitialState searchReadyJS 30000 ;;>
    match filters with
    | Some f =>
      if negb (isDefault filters) then applySearchFilters f else act_ret tt
    | None => act_ret tt
    end ;;>
    result <~ Evaluate initialStateJS ;;
    match result with
    | EvalError e => act_fail e
    | EvalNoResult =>
      act_fail (ErrorString "failed to evaluate search initial state")
    | EvalValue v =>
      let str := JSValue_Str v in
      if String.eqb str "" then
        act_fail (ErrorString "__INITIAL_STATE__ not found")
      else
        match json_searchFeeds str with
        | Err e => act_fail (Wrapped "failed to unmarshal __INITIAL_STATE__" e)
        | Ok feeds => act_ret feeds
        end
    end
  end.

End Search.

End search.

(** ** Package browser and the service layer (service.go) *)

Module service.
Import xiaohongshu.

(** Code of the service layer acts on the world of the account store and
    on the browser. *)
Definition Svc (A : Type) : Type :=
  Page -> World -> list Event -> Outcome A * World * list Event.

Definition svc_ret {A} (a : A) : Svc A := fun _ w h => (Done a, w, h).

Definition svc_fail {A} (e : error) : Svc A := fun _ w h => (Failed e, w, h).

Definition svc_bind {A B} (c : Svc A) (k : A -> Svc B) : Svc B :=
  fun pg w h => match c pg w h with
                | (Done a, w', h') => k a pg w' h'
                | (Failed e, w', h') => (Failed e, w', h')
                | (Panicked, w', h') => (Panicked, w', h')
                end.

Notation "x <== c ;; k" := (svc_bind c (fun x => k))
  (at level 100, c at next level, right associativity).
Notation "c ;;= k" := (svc_bind c (fun _ => k))
  (at level 100, right associativity).

Definition lift_io {A} (c : IO A) : Svc A :=
  fun _ w h => match c w with
               | (Ok a, w') => (Done a, w', h)
               | (Err e, w') => (Failed e, w', h)
               end.

Definition lift_act {A} (c : Act A) : Svc A :=
  fun pg w h => match c pg h with (r, h') => (r, w, h') end.

Definition emit (ev : Event) : Svc unit := fun _ w h => (Done tt, w, ev :: h).

(** [browser.NewBrowser]: the cookie bundle is loaded when the file is
    there; a directory that cannot be prepared, a file that cannot be
    inspected or read are logged, and the browser starts without
    cookies. *)
Definition NewBrowser (cookiePath : path) : Svc unit :=
  fun pg w h =>
    match os.MkdirAll (os.parent cookiePath) (fs w) with
    | Err infoErr =>
      (Done tt, w,
       EvNewBrowser None
       :: EvLog WarnLevel ("failed to inspect cookies path "
                           +:+ path_string cookiePath +:+ ": "
                           +:+ Error infoErr) :: h)
    | Ok m =>
      let w' := set_fs m w in
      match os.Stat cookiePath m with
      | Ok _ =>
        match os.ReadFile cookiePath m with
        | Ok data => (Done tt, w', EvNewBrowser (Some data) :: h)
        | Err loadErr =>
          (Done tt, w',
           EvNewBrowser None
           :: EvLog WarnLevel ("failed to load cookies from "
                               +:+ path_string cookiePath +:+ ": "
                               +:+ Error loadErr) :: h)
        end
      | Err err =>
        if os.IsNotExist err then (Done tt, w', EvNewBrowser None :: h)
        else
          (Done tt, w',
           EvNewBrowser None
           :: EvLog WarnLevel ("failed to stat cookies file "
                               +:+ path_string cookiePath +:+ ": "
                               +:+ Error err) :: h)
      end
    end.

Definition newBrowser (accountID : string) : Svc unit :=
  cookiePath <== lift_io (accounts.CookiesPath accountID) ;;
  NewBrowser cookiePath.

(** [b, err := s.newBrowser(accountID)], [defer b.Close()],
    [page := b.NewPage()], [defer page.Close()], then the body: the page
    and the browser are closed on every way out of the body. *)
Definition with_page {A} (accountID : string) (body : Act A) : Svc A :=
  newBrowser accountID ;;=
  emit EvNewPage ;;=
  fun pg w h =>
    match body pg h with
    | (r, h') => (r, w, EvBrowserClose :: EvPageClose :: h')
    end.

Section Service.

Variable makeFeedDetailURL : string -> string -> string.
Variable json_noteDetailMap : string -> Result (gmap string (bool * bool)).

Definition LikeFeed (accountID feedID xsecToken : string)
  : Svc ActionResult :=
  with_page accountID
    (Like makeFeedDetailURL json_noteDetailMap feedID xsecToken) ;;=
  svc_ret (mkActionResult feedID true "点赞成功或已点赞").

Definition UnlikeFeed (accountID feedID xsecToken : string)
  : Svc ActionResult :=
  with_page accountID
    (Unlike makeFeedDetailURL json_noteDetailMap feedID xsecToken) ;;=
  svc_ret (mkActionResult feedID true "取消点赞成功或未点赞").

Definition FavoriteFeed (accountID feedID xsecToken : string)
  : Svc ActionResult :=
  with_page accountID
    (Favorite makeFeedDetailURL json_noteDetailMap feedID xsecToken) ;;=
  svc_ret (mkActionResult feedID true "收藏成功或已收藏").

Definition UnfavoriteFeed (accountID feedID xsecToken : string)
  : Svc ActionResult :=
  with_page accountID
    (Unfavorite makeFeedDetailURL json_noteDetailMap feedID xsecToken) ;;=
  svc_ret (mkActionResult feedID true "取消收藏成功或未收藏").

End Service.

Record PublishRequest : Type := mkPublishRequest {
  Title : string;
  Content : string;
  Images : list string;
  Tags : list string
}.

Record PublishResponse : Type := mkPublishResponse {
  RespTitle : string;
  RespContent : string;
  RespImages : nat;
  Status : string
}.

(** The error of the title check, [TitleTooLong] in the specification. *)
Definition TitleTooLong : error := ErrorString "标题长度超过限制".

(** [processImages]: the images directory of the account, then the
    downloader (a collaborator). *)
Definition processImages (accountID : string) (images : list string)
  : Svc (list string) :=
  imageDir <== lift_io (accounts.ImagesDir accountID) ;;
  fun pg w h =>
    let r := on_ProcessImages pg h imageDir images in
    (match r with Ok l => Done l | Err e => Failed e end, w,
     EvProcessImages imageDir images r :: h).

(** [publishContent]: [NewPublishImageAction] and [Publish] belong to a
    file that is not part of the sources at hand; their joint outcome is
    taken from the oracle. *)
Definition publishContent (accountID : string) (title content : string)
    (tags imagePaths : list string) : Svc unit :=
  with_page accountID
    (fun pg h =>
       let r := on_PublishImage pg h title content tags imagePaths in
       (r, EvPublishImage title content tags imagePaths r :: h)).

Section Publish.

(** [runewidth.StringWidth] belongs to a package outside the
    repository. *)
Variable StringWidth : string -> Z.

(** [PublishContent] after the title check. *)
Definition publish_checked (accountID : string) (req : PublishRequest)
  : Svc PublishResponse :=
  imagePaths <== processImages accountID (Images req) ;;
  publishContent accountID (Title req) (Content req) (Tags req)
                 imagePaths ;;=
  svc_ret (mkPublishResponse (Title req) (Content req)
                             (length imagePaths) "发布完成").

Definition PublishContent (accountID : string) (req : PublishRequest)
  : Svc PublishResponse :=
  if 40 <? StringWidth (Title req) then svc_fail TitleTooLong
  else publish_checked accountID req.

End Publish.

(** Modelled from the spec: the display width that the title rule counts
    ("East-Asian-width characters count as 2 units, others as 1"), with
    the wide and full-width blocks of East Asian scripts as the
    East-Asian-width characters.  The code calls [runewidth.StringWidth],
    a package that is not part of the repository. *)
Definition east_asian_wide (r : Z) : bool :=
  ((0x1100 <=? r) && (r <=? 0x115F))
  || ((0x2E80 <=? r) && (r <=? 0x303E))
  || ((0x3041 <=? r) && (r <=? 0x33FF))
  || ((0x3400 <=? r) && (r <=? 0x4DBF))
  || ((0x4E00 <=? r) && (r <=? 0x9FFF))
  || ((0xA000 <=? r) && (r <=? 0xA4CF))
  || ((0xAC00 <=? r) && (r <=? 0xD7A3))
  || ((0xF900 <=? r) && (r <=? 0xFAFF))
  || ((0xFE30 <=? r) && (r <=? 0xFE4F))
  || ((0xFF00 <=? r) && (r <=? 0xFF60))
  || ((0xFFE0 <=? r) && (r <=? 0xFFE6))
  || ((0x20000 <=? r) && (r <=? 0x3FFFD)).

Definition RuneWidth (r : Z) : Z := if east_asian_wide r then 2 else 1.

Definition StringWidth (s : string) : Z :=
  fold_right (fun r acc => RuneWidth r + acc) 0 (utf8.runes s).

End service.

(** ** Vocabulary of the account-store properties *)

(** Every component of [pre ++ rest] below [pre] is a directory. *)
Fixpoint all_dirs (pre : path) (rest : list string) (m : filesys) : Prop :=
  match rest with
  | [] => True
  | c :: rest' => m !! (pre ++ [c]) = Some Dir /\ all_dirs (pre ++ [c]) rest' m
  end.

(** Directories stay directories. *)
Definition keeps_dirs (m m' : filesys) : Prop :=
  forall q, m !! q = Some Dir -> m' !! q = Some Dir.

(** The data directory that [baseDataDir] resolves to. *)
Definition data_dir (w : World) : option path :=
  match env_data_dir w with
  | Some dir => Some dir
  | None => match getwd w with
            | Some cwd => Some (cwd ++ ["data"])
            | None => None
            end
  end.

Definition accounts_root (w : World) : option path :=
  match data_dir w with
  | Some base => Some (base ++ [accounts.dataDirName])
  | None => None
  end.

(** The world after some store operations: same environment and clock,
    and no directory lost. *)
Definition grows (w w' : World) : Prop :=
  env_data_dir w' = env_data_dir w /\ getwd w' = getwd w
  /\ clock w' = clock w /\ keeps_dirs (fs w) (fs w').

(** Account [id] is materialized with metadata [meta]: its directory, its
    images directory and its metadata file exist, and the metadata is in
    the form in which [saveAccountMeta] and [normalizeAccountMeta] leave
    it. *)
Definition materialized (w : World) (id : string) (meta : AccountMeta)
  : Prop :=
  exists root,
    accounts_root w = Some root
    /\ all_dirs [] (root ++ [id; accounts.imagesDirName]) (fs w)
    /\ fs w !! (root ++ [id; accounts.metaFileName])
       = Some (File (MetaJSON meta))
    /\ strings.TrimSpace (Remark meta) = Remark meta
    /\ CreatedAt meta <> 0 /\ UpdatedAt meta <> 0.

(** The accounts root holds account directories only: every entry is a
    directory, named by an identifier that [sanitizeAccountID] accepts as
    it is.  This is how the store itself populates the root. *)
Definition store_wf (w : World) : Prop :=
  forall root c n,
    accounts_root w = Some root -> fs w !! (root ++ [c]) = Some n ->
    n = Dir /\ accounts.sanitizeAccountID c = Ok c.

(** A directory that may be created below the accounts root: where it
    passes through an entry of the root, the entry has a canonical
    name. *)
Definition safe_dir (root d : path) : Prop :=
  forall c r, d = (root ++ [c]) ++ r -> accounts.sanitizeAccountID c = Ok c.

(** The accounts root at [root] holds account directories only. *)
Definition wf_at (root : path) (m : filesys) : Prop :=
  forall c n, m !! (root ++ [c]) = Some n ->
              n = Dir /\ accounts.sanitizeAccountID c = Ok c.

(** A step of the store from [w] to [w']: the environment is the same and
    a well-formed accounts root stays well formed. *)
Definition keeps (w w' : World) : Prop :=
  env_data_dir w' = env_data_dir w /\ getwd w' = getwd w
  /\ (store_wf w -> store_wf w').

(** A world in which nothing was created yet. *)
Definition fresh_world : World :=
  mkWorld (Some ["srv"; "xhs"]) None ∅ Pos.of_succ_nat 0.


(** Ascending order of identifiers (byte-wise, as Go compares strings). *)
Definition id_le (a b : AccountInfo) : Prop :=
  String.leb (ID a) (ID b) = true.

(** The metadata as [saveAccountMeta] writes it. *)
Definition trimmed_meta (meta : AccountMeta) : AccountMeta :=
  mkAccountMeta (strings.TrimSpace (Remark meta))
                (CreatedAt meta) (UpdatedAt meta).

(** The metadata stored for the account with (sanitized) identifier [id]. *)
Definition stored_meta (w : World) (id : string) : option AccountMeta :=
  match accounts_root w with
  | Some root =>
    match fs w !! (root ++ [id; accounts.metaFileName]) with
    | Some (File (MetaJSON meta)) => Some meta
    | _ => None
    end
  | None => None
  end.

(** ** Vocabulary of the browser-side properties *)

(** The answers that the page gives to [n] consecutive evaluations of
    [expr] started at history [h]: the values of the predicate at the
    polling ticks. *)
Fixpoint answers (pg : Page) (expr : string) (h : list Event) (n : nat)
  : list EvalOutcome :=
  match n with
  | O => []
  | S n' =>
    let r := on_Evaluate pg h expr in
    r :: answers pg expr (EvEvaluate expr r :: h) n'
  end.

(** The history after the evaluations with answers [l] (oldest first). *)
Definition polled (expr : string) (l : list EvalOutcome) (h : list Event)
  : list Event :=
  rev (map (EvEvaluate expr) l) ++ h.


Fixpoint clicks (selector : string) (h : list Event) : nat :=
  match h with
  | [] => 0%nat
  | EvClick sel _ :: t =>
    ((if String.eqb sel selector then 1 else 0) + clicks selector t)%nat
  | _ :: t => clicks selector t
  end.


(** Where the failure [e] of an interact call comes from, read off the
    history [h] it ends with: a navigation that failed, a toggle control
    that could not be found, or a click that failed. *)
Definition failure_origin (selector : string) (e : error) (h : list Event)
  : Prop :=
  match h with
  | EvNavigate _ (Some e') :: _ => e = e'
  | EvElement sel (ElementError e') :: _ => sel = selector /\ e = e'
  | EvElement sel ElementNil :: _ =>
    sel = selector /\ e = ErrorString ("未找到操作按钮: " +:+ selector)
  | EvClick sel (Some e') :: _ => sel = selector /\ e = e'
  | _ => False
  end.


(** The enumerations of the search filters, and the resolution of an
    omitted (empty) field to its default. *)
Definition sort_values : list string :=
  ["comprehensive"; "latest"; "most_likes"; "most_comments";
   "most_favorites"].
Definition note_type_values : list string := ["all"; "video"; "image"].
Definition publish_time_values : list string :=
  ["all"; "day"; "week"; "half_year"].
Definition search_scope_values : list string :=
  ["all"; "seen"; "unseen"; "followed"].
Definition distance_values : list string := ["all"; "same_city"; "nearby"].

Definition or_default (default value : string) : string :=
  if String.eqb value "" then default else value.

(** Letters of the Latin blocks (Basic Latin to Latin Extended-B), and
    the CJK unified ideographs. *)
Definition latin (r : Z) : bool := (0 <=? r) && (r <? 0x250).
Definition cjk (r : Z) : bool := (0x4E00 <=? r) && (r <=? 0x9FFF).

(** ** Concrete collaborators, for running the model *)

Fixpoint reads (h : list Event) : nat :=
  match h with
  | [] => 0%nat
  | EvMustEval _ _ :: t => S (reads t)
  | _ :: t => reads t
  end.

Fixpoint evaluations (h : list Event) : nat :=
  match h with
  | [] => 0%nat
  | EvEvaluate _ _ :: t => S (evaluations t)
  | _ :: t => evaluations t
  end.

(** A page on which navigation, lookups and clicks succeed; its [k]-th
    read of the embedded state returns the [k]-th element of [states]
    ([last] once they are used up), its [k]-th evaluation the [k]-th
    element of [evals], and every wait sees [ticks] ticks. *)
Definition demo_page (states : list string) (last : string) (ticks : nat)
    (evals : list EvalOutcome) : Page :=
  mkPage (fun _ _ => None) (fun _ => true)
         (fun h _ => Some (nth (reads h) states last))
         (fun h _ => nth (evaluations h) evals EvalNoResult)
         (fun _ _ => ticks)
         (fun _ _ => ElementFound) (fun _ _ => None)
         (fun _ _ => true) (fun _ _ => true) (fun _ _ => true)
         (fun _ _ => Some []) (fun _ _ _ => true)
         (fun _ _ images => Ok images) (fun _ _ _ _ _ => Done tt).

(** The same page, except that the toggle control is not there. *)
Definition no_button_page (states : list string) (last : string) : Page :=
  mkPage (fun _ _ => None) (fun _ => true)
         (fun h _ => Some (nth (reads h) states last))
         (fun _ _ => EvalNoResult) (fun _ _ => 0%nat)
         (fun _ _ => ElementNil) (fun _ _ => None)
         (fun _ _ => true) (fun _ _ => true) (fun _ _ => true)
         (fun _ _ => Some []) (fun _ _ _ => true)
         (fun _ _ images => Ok images) (fun _ _ _ _ _ => Done tt).

(** A decoder of the embedded state that knows three documents: feed
    [f1] liked, feed [f1] not liked, and a map without [f1]. *)
Definition demo_json (s : string) : Result (gmap string (bool * bool)) :=
  if String.eqb s "liked" then Ok {[ "f1" := (true, true) ]}
  else if String.eqb s "unliked" then Ok {[ "f1" := (false, false) ]}
  else if String.eqb s "other" then Ok {[ "f2" := (true, true) ]}
  else Err JSONSyntaxError.

Definition demo_url (feedID xsecToken : string) : string :=
  "https://www.xiaohongshu.com/explore/" +:+ feedID +:+ "?xsec_token="
  +:+ xsecToken.

(** ** Package accounts, the version of the store without metadata *)

(** The sources hold a second version of package accounts, in which
    accounts have no metadata.  Its [sanitizeAccountID], [baseDataDir],
    [ValidateAccountID], [ResolveAccountID] and [IsDefaultAccount] are the
    same, word for word, as in accounts/paths.go; the account directory is
    made in one step, and [EnsureAccount] stops after the images
    directory. *)
Module accounts_v0.

Definition accountDir (accountID : string) : IO path :=
  match accounts.sanitizeAccountID accountID with
  | Err e => fail e
  | Ok id =>
    baseDir <- accounts.baseDataDir ;;
    let dir := baseDir ++ [accounts.dataDirName; id] in
    accounts.ensure_dir "account dir" dir ;;;
    ret dir
  end.

Definition CookiesPath (accountID : string) : IO path :=
  dir <- accountDir accountID ;;
  ret (dir ++ [accounts.cookiesFileName]).

Definition ImagesDir (accountID : string) : IO path :=
  dir <- accountDir accountID ;;
  let imagesDir := dir ++ [accounts.imagesDirName] in
  accounts.ensure_dir "images dir" imagesDir ;;;
  ret imagesDir.

Definition EnsureAccount (accountID : string) : IO unit :=
  CookiesPath accountID ;;;
  ImagesDir accountID ;;;
  ret tt.

End accounts_v0.

(** ** Vocabulary of the further properties *)

(** A log line, as opposed to an action on the store or on the browser. *)
Definition is_log (ev : Event) : Prop :=
  match ev with EvLog _ _ => True | _ => False end.


(** The cookie bundle at [p]: the content of the regular file there. *)
Definition cookie_bundle (w : World) (p : path) : option FileData :=
  match fs w !! p with
  | Some (File d) => Some d
  | _ => None
  end.

(** The bytes of a string. *)
Definition bytes (s : string) : list ascii := list_ascii_of_string s.

(** Every entry of the file system of [w] is in [w'] as it was. *)
Definition extends (w w' : World) : Prop :=
  forall q n, fs w !! q = Some n -> fs w' !! q = Some n.

(** Every entry of the file system of [w], the one at [p] apart, is in
    [w'] as it was. *)
Definition extends_but (p : path) (w w' : World) : Prop :=
  forall q n, fs w !! q = Some n -> q <> p -> fs w' !! q = Some n.

(** What the store may do to an entry of the file system: leave it as it
    is, or, when it is a regular file named [meta.json], replace its
    content by metadata. *)
Definition persists (w w' : World) : Prop :=
  forall q n, fs w !! q = Some n ->
    fs w' !! q = Some n
    \/ (exists dir d m, q = dir ++ [accounts.metaFileName] /\ n = File d
                        /\ fs w' !! q = Some (File (MetaJSON m))).

(** Nothing is lost from [w] to [w']: directories stay directories, every
    entry is still there, and every file that is not named [meta.json]
    has the content it had. *)
Definition nothing_lost (w w' : World) : Prop :=
  (forall q, fs w !! q = Some Dir -> fs w' !! q = Some Dir)
  /\ (forall q n, fs w !! q = Some n -> is_Some (fs w' !! q))
  /\ (forall q d, fs w !! q = Some (File d) ->
        last q <> Some accounts.metaFileName -> fs w' !! q = Some (File d)).

(** The clock was not read fewer times in [w'] than in [w]. *)
Definition later (w w' : World) : Prop :=
  (clock_reads w <= clock_reads w')%nat.

(** A world in which the account [bob] has a metadata file that does not
    decode. *)
Definition damaged_world : World :=
  mkWorld (Some ["srv"; "xhs"]) None
    (<[ ["srv"; "xhs"; "accounts"; "bob"; "meta.json"] := File (Opaque "{") ]>
       (<[ ["srv"; "xhs"; "accounts"; "bob"] := Dir ]>
          (<[ ["srv"; "xhs"; "accounts"] := Dir ]>
             (<[ ["srv"; "xhs"] := Dir ]> (<[ ["srv"] := Dir ]> ∅)))))
    Pos.of_succ_nat 0.

(** ** Package main: the MCP tool handlers *)

Module main.
Import service.

(** A value of type [interface{}] in the arguments of a tool call, as far
    as the handlers tell values apart by their type assertions: a
    [string], a [bool], a [[]interface{}] (of its items the handlers ask
    only whether they are strings: [None] is an item that is not), a
    [[]string], and any other value (a number, a map, [nil]). *)
Inductive Value : Type :=
| VString (s : string)
| VBool (b : bool)
| VList (items : list (option string))
| VStrings (items : list string)
| VOther.

(** [map[string]interface{}]; [None] is the nil map. *)
Definition Args : Type := option (gmap string Value).

(** [args[key]]: reading a nil map gives the zero value. *)
Definition index (args : Args) (key : string) : option Value :=
  match args with
  | None => None
  | Some m => m !! key
  end.

(** [MCPContent] and [MCPToolResult] are declared in a file that is not
    part of the sources at hand; their fields are those that the handlers
    set. *)
Record MCPContent : Type := mkMCPContent {
  Type_ : string;
  Text : string;
  MimeType : string;
  Data : string
}.

Record MCPToolResult : Type := mkMCPToolResult {
  Content : list MCPContent;
  IsError : bool
}.

(** [&MCPToolResult{Content: []MCPContent{{Type: "text", Text: text}},
    IsError: isError}]. *)
Definition text_result (text : string) (isError : bool) : MCPToolResult :=
  mkMCPToolResult [mkMCPContent "text" text "" ""] isError.

(** [accounts.ErrMissingAccountID]. *)
Definition ErrMissingAccountID : error := ErrorString "account_id is required".

Definition accountIDFromArgs (args : Args) : Result string :=
  match args with
  | None => Err ErrMissingAccountID
  | Some m =>
    match m !! "account_id" with
    | Some (VString raw) =>
      let trimmed := strings.TrimSpace raw in
      if String.eqb trimmed "" then Err ErrMissingAccountID
      else accounts.ResolveAccountID trimmed
    | _ => Err ErrMissingAccountID
    end
  end.

Definition accountErrorResult (err : error) : MCPToolResult :=
  text_result ("账号参数错误: " +:+ Error err) true.

Definition stringFromArgs (args : Args) (key : string) : string :=
  match args with
  | None => ""
  | Some m =>
    match m !! key with
    | Some (VString s) => strings.TrimSpace s
    | _ => ""
    end
  end.

(** The two loops of [stringSliceFromArgs]. *)
Fixpoint collect_values (items : list (option string))
    (result : list string) : list string :=
  match items with
  | [] => result
  | item :: rest =>
    match item with
    | Some s =>
      let s := strings.TrimSpace s in
      if negb (String.eqb s "") then collect_values rest (result ++ [s])
      else collect_values rest result
    | None => collect_values rest result
    end
  end.

Fixpoint collect_strings (items : list string) (result : list string)
  : list string :=
  match items with
  | [] => result
  | s :: rest =>
    let s := strings.TrimSpace s in
    if negb (String.eqb s "") then collect_strings rest (result ++ [s])
    else collect_strings rest result
  end.

Definition stringSliceFromArgs (args : Args) (key : string) : list string :=
  let result := [] in
  match args with
  | None => result
  | Some m =>
    match m !! key with
    | None => result
    | Some value =>
      match value with
      | VList items => collect_values items result
      | VStrings items => collect_strings items result
      | _ => result
      end
    end
  end.

(** [v, _ := args[key].(bool)]. *)
Definition boolFromArgs (args : Args) (key : string) : bool :=
  match index args key with
  | Some (VBool b) => b
  | _ => false
  end.

(** [fmt.Sprintf("%v", b)]. *)
Definition bool_string (b : bool) : string := if b then "true" else "false".

(** [result, err := call]: the error of the call is a value that the
    handler inspects; a panic is not. *)
Definition try {A} (c : Svc A) : Svc (Result A) :=
  fun pg w h => match c pg w h with
                | (Done a, w', h') => (Done (Ok a), w', h')
                | (Failed e, w', h') => (Done (Err e), w', h')
                | (Panicked, w', h') => (Panicked, w', h')
                end.

(** [logrus.WithField("account", accountID).Infof(...)]: the history
    records the message, followed by the field. *)
Definition log_account (accountID msg : string) : Svc unit :=
  emit (EvLog InfoLevel (msg +:+ " account=" +:+ accountID)).

Section Handlers.

Variable makeFeedDetailURL : string -> string -> string.
Variable json_noteDetailMap : string -> Result (gmap string (bool * bool)).

(** [json.MarshalIndent(result, "", "  ")] for an [*ActionResult]. *)
Variable json_ActionResult : xiaohongshu.ActionResult -> Result string.

Definition handleLikeFeed (args : Args) : Svc MCPToolResult :=
  match accountIDFromArgs args with
  | Err err => svc_ret (accountErrorResult err)
  | Ok accountID =>
    let feedID := stringFromArgs args "feed_id" in
    if String.eqb feedID "" then
      svc_ret (text_result "点赞失败: 缺少feed_id参数" true)
    else
    let xsecToken := stringFromArgs args "xsec_token" in
    if String.eqb xsecToken "" then
      svc_ret (text_result "点赞失败: 缺少xsec_token参数" true)
    else
    let unlike := boolFromArgs args "unlike" in
    log_account accountID
      ("MCP: 点赞操作 - Feed ID: " +:+ feedID +:+ ", unlike: "
       +:+ bool_string unlike) ;;=
    res <== try (if unlike
                 then UnlikeFeed makeFeedDetailURL json_noteDetailMap
                        accountID feedID xsecToken
                 else LikeFeed makeFeedDetailURL json_noteDetailMap
                        accountID feedID xsecToken) ;;
    match res with
    | Err err =>
      let action := if unlike then "取消点赞" else "点赞" in
      svc_ret (text_result (action +:+ "失败: " +:+ Error err) true)
    | Ok result =>
      match json_ActionResult result with
      | Err err =>
        svc_ret (text_result (xiaohongshu.Message result
                              +:+ "成功，但序列化失败: " +:+ Error err) true)
      | Ok jsonData => svc_ret (text_result jsonData false)
      end
    end
  end.

Definition handleFavoriteFeed (args : Args) : Svc MCPToolResult :=
  match accountIDFromArgs args with
  | Err err => svc_ret (accountErrorResult err)
  | Ok accountID =>
    let feedID := stringFromArgs args "feed_id" in
    if String.eqb feedID "" then
      svc_ret (text_result "收藏失败: 缺少feed_id参数" true)
    else
    let xsecToken := stringFromArgs args "xsec_token" in
    if String.eqb xsecToken "" then
      svc_ret (text_result "收藏失败: 缺少xsec_token参数" true)
    else
    let unfavorite := boolFromArgs args "unfavorite" in
    log_account accountID
      ("MCP: 收藏操作 - Feed ID: " +:+ feedID +:+ ", unfavorite: "
       +:+ bool_string unfavorite) ;;=
    res <== try (if unfavorite
                 then UnfavoriteFeed makeFeedDetailURL json_noteDetailMap
                        accountID feedID xsecToken
                 else FavoriteFeed makeFeedDetailURL json_noteDetailMap
                        accountID feedID xsecToken) ;;
    match res with
    | Err err =>
      let action := if unfavorite then "取消收藏" else "收藏" in
      svc_ret (text_result (action +:+ "失败: " +:+ Error err) true)
    | Ok result =>
      match json_ActionResult result with
      | Err err =>
        svc_ret (text_result (xiaohongshu.Message result
                              +:+ "成功，但序列化失败: " +:+ Error err) true)
      | Ok jsonData => svc_ret (text_result jsonData false)
      end
    end
  end.

End Handlers.

Section StoreHandlers.

(** [json.MarshalIndent] for an [*accounts.AccountInfo]. *)
Variable json_AccountInfo : AccountInfo -> Result string.

Definition handleSetAccountRemark (args : Args) : IO MCPToolResult :=
  match accountIDFromArgs args with
  | Err err => ret (accountErrorResult err)
  | Ok accountID =>
    let remark := stringFromArgs args "remark" in
    fun w =>
      match accounts.SetAccountRemark accountID remark w with
      | (Err err, w') =>
        (Ok (text_result ("更新账号备注失败: " +:+ Error err) true), w')
      | (Ok info, w') =>
        match json_AccountInfo info with
        | Err err =>
          (Ok (text_result ("更新账号备注成功，但序列化失败: "
                            +:+ Error err) true), w')
        | Ok jsonData => (Ok (text_result jsonData false), w')
        end
      end
  end.

End StoreHandlers.

Section SearchHandler.

Variable Feed : Type.
Variable json_searchFeeds : string -> Result (list Feed).
Variable url_QueryEscape : string -> string.

Record FeedsListResponse : Type := mkFeedsListResponse {
  Feeds : list Feed;
  Count : nat
}.

(** [json.MarshalIndent] for a [*FeedsListResponse]. *)
Variable json_FeedsListResponse : FeedsListResponse -> Result string.

(** [SearchFeeds] of service.go. *)
Definition SearchFeeds (accountID keyword : string)
    (filters : option search.SearchFilters) : Svc FeedsListResponse :=
  feeds <== with_page accountID
              (search.Search Feed json_searchFeeds url_QueryEscape
                 keyword filters) ;;
  svc_ret (mkFeedsListResponse feeds (length feeds)).

Definition handleSearchFeeds (args : Args) : Svc MCPToolResult :=
  match accountIDFromArgs args with
  | Err err => svc_ret (accountErrorResult err)
  | Ok accountID =>
    log_account accountID "MCP: 搜索Feeds" ;;=
    match index args "keyword" with
    | Some (VString keyword) =>
      if String.eqb keyword "" then
        svc_ret (text_result "搜索Feeds失败: 缺少关键词参数" true)
      else
      log_account accountID ("MCP: 搜索Feeds - 关键词: " +:+ keyword) ;;=
      match search.NewSearchFilters
              (stringFromArgs args "sort")
              (stringFromArgs args "note_type")
              (stringFromArgs args "publish_time")
              (stringFromArgs args "search_scope")
              (stringFromArgs args "distance") with
      | Err err => svc_ret (text_result ("搜索Feeds失败: " +:+ Error err) true)
      | Ok filters =>
        res <== try (SearchFeeds accountID keyword (Some filters)) ;;
        match res with
        | Err err =>
          svc_ret (text_result ("搜索Feeds失败: " +:+ Error err) true)
        | Ok result =>
          match json_FeedsListResponse result with
          | Err err =>
            svc_ret (text_result ("搜索Feeds成功，但序列化失败: "
                                  +:+ Error err) true)
          | Ok jsonData => svc_ret (text_result jsonData false)
          end
        end
      end
    | _ => svc_ret (text_result "搜索Feeds失败: 缺少关键词参数" true)
    end
  end.

End SearchHandler.

Section PublishHandler.

(** [runewidth.StringWidth] belongs to a package outside the
    repository. *)
Variable StringWidth : string -> Z.

(** [fmt.Sprintf("%+v", result)] for a [*PublishResponse]. *)
Variable fmt_PublishResponse : PublishResponse -> string.

Definition handlePublishContent (args : Args) : Svc MCPToolResult :=
  match accountIDFromArgs args with
  | Err err => svc_ret (accountErrorResult err)
  | Ok accountID =>
    log_account accountID "MCP: 发布内容" ;;=
    let title := stringFromArgs args "title" in
    let content := stringFromArgs args "content" in
    let imagePaths := stringSliceFromArgs args "images" in
    let tags := stringSliceFromArgs args "tags" in
    if String.eqb title "" then
      svc_ret (text_result "发布失败: 缺少title参数" true)
    else if String.eqb content "" then
      svc_ret (text_result "发布失败: 缺少content参数" true)
    else if Nat.eqb (length imagePaths) 0 then
      svc_ret (text_result "发布失败: 缺少images参数" true)
    else
    log_account accountID
      ("MCP: 发布内容 - 标题: " +:+ title +:+ ", 图片数量: "
       +:+ pretty (length imagePaths) +:+ ", 标签数量: "
       +:+ pretty (length tags)) ;;=
    res <== try (PublishContent StringWidth accountID
                   (mkPublishRequest title content imagePaths tags)) ;;
    match res with
    | Err err => svc_ret (text_result ("发布失败: " +:+ Error err) true)
    | Ok result =>
      svc_ret (text_result ("内容发布成功: " +:+ fmt_PublishResponse result)
                           false)
    end
  end.

End PublishHandler.

(** *** The HTTP handlers (handlers_api.go) *)

(** What a handler passes to [respondSuccess] as data; of the handlers
    modelled here only [setAccountRemarkHandler] does. *)
Inductive ResponseData : Type :=
| DataAccountInfo (info : AccountInfo).

(** [ErrorResponse] and [SuccessResponse]. *)
Inductive Body : Type :=
| ErrorBody (error_ code details : string)
| SuccessBody (data : ResponseData) (message : string).

(** The [*gin.Context] of a request: the method, the path and the query
    of the request, the keys that the handlers set, and what was written
    and logged so far, newest first. *)
Record GinContext : Type := mkGinContext {
  ReqMethod : string;
  ReqPath : string;
  ReqQuery : gmap string string;
  Keys : gmap string string;
  Written : list (Z * Body);
  Logged : list (Level * string)
}.

(** [c.GetString(key)] and [c.Query(key)]: the empty string when the key
    is absent. *)
Definition GetString (c : GinContext) (key : string) : string :=
  match Keys c !! key with Some v => v | None => "" end.

Definition Query (c : GinContext) (key : string) : string :=
  match ReqQuery c !! key with Some v => v | None => "" end.

(** [c.Set(key, value)]. *)
Definition Set_ (key value : string) (c : GinContext) : GinContext :=
  mkGinContext (ReqMethod c) (ReqPath c) (ReqQuery c)
               (<[key := value]> (Keys c)) (Written c) (Logged c).

Definition StatusOK : Z := 200.
Definition StatusBadRequest : Z := 400.
Definition StatusInternalServerError : Z := 500.

(** The line that [respondError] and [respondSuccess] log:
    ["%s %s %s %d"]. *)
Definition request_line (c : GinContext) (statusCode : Z) : string :=
  ReqMethod c +:+ " " +:+ ReqPath c +:+ " " +:+ GetString c "account"
  +:+ " " +:+ pretty statusCode.

Definition respond (level : Level) (statusCode : Z) (body : Body)
    (c : GinContext) : GinContext :=
  mkGinContext (ReqMethod c) (ReqPath c) (ReqQuery c) (Keys c)
               ((statusCode, body) :: Written c)
               ((level, request_line c statusCode) :: Logged c).

Definition respondError (statusCode : Z) (code message details : string)
    (c : GinContext) : GinContext :=
  respond ErrorLevel statusCode (ErrorBody message code details) c.

Definition respondSuccess (data : ResponseData) (message : string)
    (c : GinContext) : GinContext :=
  respond InfoLevel StatusOK (SuccessBody data message) c.

Definition resolveAccountID (raw : string) (c : GinContext)
  : (string * bool) * GinContext :=
  let trimmed := strings.TrimSpace raw in
  if String.eqb trimmed "" then
    (("", false),
     respondError StatusBadRequest "MISSING_ACCOUNT_ID" "缺少账号参数"
                  "account_id is required" c)
  else
    match accounts.ResolveAccountID trimmed with
    | Err err =>
      (("", false),
       respondError StatusBadRequest "INVALID_ACCOUNT_ID" "账号格式不正确"
                    (Error err) c)
    | Ok resolved => ((resolved, true), c)
    end.

Definition accountIDFromQuery (c : GinContext)
  : (string * bool) * GinContext :=
  resolveAccountID (Query c "account_id") c.

(** The payload of [setAccountRemarkHandler]. *)
Record RemarkPayload : Type := mkRemarkPayload {
  PayloadAccountID : string;
  PayloadRemark : string
}.

(** [setAccountRemarkHandler]; [bound] is what [c.ShouldBindJSON] made of
    the body of the request (gin is outside the repository).  The field
    [account_id] of the payload is bound as [required]: gin answers a body
    without it, or with the empty string for it, by an error. *)
Definition setAccountRemarkHandler (bound : Result RemarkPayload)
    (w : World) (c : GinContext) : World * GinContext :=
  match bound with
  | Err err =>
    (w, respondError StatusBadRequest "INVALID_REQUEST" "请求参数错误"
                     (Error err) c)
  | Ok payload =>
    match accounts.SetAccountRemark (PayloadAccountID payload)
                                    (PayloadRemark payload) w with
    | (Err err, w') =>
      (w', respondError StatusInternalServerError
                        "SET_ACCOUNT_REMARK_FAILED" "更新账号备注失败"
                        (Error err) c)
    | (Ok info, w') =>
      (w', respondSuccess (DataAccountInfo info) "更新账号备注成功"
                          (Set_ "account" (ID info) c))
    end
  end.

End main.




(** The metadata that an account information carries, and the account
    information with its remark trimmed. *)
Definition meta_of (info : AccountInfo) : AccountMeta :=
  mkAccountMeta (InfoRemark info) (InfoCreatedAt info) (InfoUpdatedAt info).

Definition trim_info (info : AccountInfo) : AccountInfo :=
  mkAccountInfo (ID info) (strings.TrimSpace (InfoRemark info))
                (InfoCreatedAt info) (InfoUpdatedAt info).

(** Account [id] has settled metadata [meta]: its directory and its
    metadata file exist, and the metadata is in the form in which
    [saveAccountMeta] and [normalizeAccountMeta] leave it. *)
Definition has_meta (w : World) (id : string) (meta : AccountMeta) : Prop :=
  exists root,
    accounts_root w = Some root
    /\ all_dirs [] (root ++ [id]) (fs w)
    /\ fs w !! (root ++ [id; accounts.metaFileName])
       = Some (File (MetaJSON meta))
    /\ strings.TrimSpace (Remark meta) = Remark meta
    /\ CreatedAt meta <> 0 /\ UpdatedAt meta <> 0.

(* ===================================================================== *)
(** * Part II: properties                                                 *)
(* ===================================================================== *)

Ltac bool_lia :=
  repeat match goal with
  | H : (_ <? _) = true |- _ => apply Z.ltb_lt in H
  | H : (_ <? _) = false |- _ => apply Z.ltb_ge in H
  | H : (_ <=? _) = true |- _ => apply Z.leb_le in H
  | H : (_ <=? _) = false |- _ => apply Z.leb_gt in H
  | H : (_ =? _) = true |- _ => apply Z.eqb_eq in H
  | H : (_ =? _) = false |- _ => apply Z.eqb_neq in H
  | H : _ || _ = true |- _ => apply orb_true_iff in H
  | H : _ || _ = false |- _ => apply orb_false_iff in H; destruct H
  | H : _ && _ = true |- _ => apply andb_true_iff in H; destruct H
  | H : _ && _ = false |- _ => apply andb_false_iff in H
  end.

(** Case analysis of [DecodeRuneInString] on strings whose first bytes
    are explicit. *)
Ltac decode_cases :=
  unfold utf8.DecodeRuneInString, utf8.first;
  repeat match goal with
         | |- context [utf8.byte_of ?a] => generalize (utf8.byte_of a); intro
         end;
  cbn [String.length];
  repeat (case_match; simplify_eq; try done);
  intros; simplify_eq; try congruence;
  try (split; [reflexivity | cbn [String.length]; lia]);
  try (exfalso;
       repeat match goal with
       | H : context [Z.land ?a ?b] |- _ =>
           let v := eval vm_compute in (Z.land a b) in
           change (Z.land a b) with v in H
       end;
       bool_lia; lia).

(** ** UTF-8 decoding and trimming *)

Section Utf8Facts.
Import utf8.

Lemma string_app_cons (a : ascii) (s t : string) :
  String a s +:+ t = String a (s +:+ t).
Proof. reflexivity. Qed.

Lemma string_take_drop (n : nat) (s : string) :
  string_take n s +:+ string_drop n s = s.
Proof.
  revert s. induction n as [|n IH]; intros [|a t]; simpl; try reflexivity.
  rewrite string_app_cons. f_equal. apply IH.
Qed.

Lemma string_app_length (s t : string) :
  String.length (s +:+ t) = (String.length s + String.length t)%nat.
Proof.
  induction s as [|a s IH]; [done|].
  rewrite !string_app_cons; simpl; f_equal; apply IH.
Qed.

Lemma string_app_assoc (s t u : string) : (s +:+ t) +:+ u = s +:+ t +:+ u.
Proof.
  induction s as [|a s IH]; [done|].
  rewrite !string_app_cons; simpl; f_equal; apply IH.
Qed.

Lemma string_app_nil_r (s : string) : s +:+ "" = s.
Proof.
  induction s as [|a s IH]; [done|].
  rewrite !string_app_cons; simpl; f_equal; apply IH.
Qed.

Lemma string_take_app (n : nat) (s t : string) :
  (n <= String.length s)%nat -> string_take n (s +:+ t) = string_take n s.
Proof.
  revert s. induction n as [|n IH]; intros [|a s] Hn; simpl in *;
    try reflexivity; try lia.
  rewrite ?string_app_cons; simpl. rewrite IH; [done | lia].
Qed.

Lemma string_drop_app (n : nat) (s t : string) :
  (n <= String.length s)%nat ->
  string_drop n (s +:+ t) = string_drop n s +:+ t.
Proof.
  revert s. induction n as [|n IH]; intros [|a s] Hn; simpl in *;
    try reflexivity; try lia.
  rewrite ?string_app_cons; simpl. apply IH. lia.
Qed.

Lemma string_take_length (n : nat) (s : string) :
  (n <= String.length s)%nat -> String.length (string_take n s) = n.
Proof.
  revert s. induction n as [|n IH]; intros [|a s] Hn; simpl in *;
    try reflexivity; try lia.
  rewrite IH; [done | lia].
Qed.

Lemma chunks_cons (a : ascii) (t : string) :
  chunks (String a t) =
  (fst (DecodeRuneInString (String a t)),
   String a (string_take (snd (DecodeRuneInString (String a t)) - 1) t))
  :: chunks (string_drop (snd (DecodeRuneInString (String a t)) - 1) t).
Proof. by rewrite chunks_equation_2. Qed.

Lemma chunks_nil : chunks "" = [].
Proof. by rewrite chunks_equation_1. Qed.

(** Induction on a string along its decoding. *)
Lemma chunks_ind (P : string -> Prop) :
  P "" ->
  (forall a t,
     P (string_drop (snd (DecodeRuneInString (String a t)) - 1) t) ->
     P (String a t)) ->
  forall s, P s.
Proof.
  intros Hnil Hcons s.
  remember (String.length s) as n eqn:Hn.
  revert s Hn. induction n as [n IH] using lt_wf_ind. intros [|a t] Hn.
  - exact Hnil.
  - apply Hcons. eapply IH; [|reflexivity]. simpl in Hn.
    pose proof (string_drop_length_le
      (snd (DecodeRuneInString (String a t)) - 1) t). lia.
Qed.

Lemma unchunk_cons (c : Z * string) (l : list (Z * string)) :
  unchunk (c :: l) = c.2 +:+ unchunk l.
Proof. reflexivity. Qed.

Lemma unchunk_chunks (s : string) : unchunk (chunks s) = s.
Proof.
  induction s as [|a t IH] using chunks_ind.
  - by rewrite chunks_nil.
  - rewrite chunks_cons, unchunk_cons, IH. cbn [snd].
    by rewrite string_app_cons, string_take_drop.
Qed.

Lemma unchunk_app (l1 l2 : list (Z * string)) :
  unchunk (l1 ++ l2) = unchunk l1 +:+ unchunk l2.
Proof.
  induction l1 as [|c l1 IH]; [done|].
  rewrite <- app_comm_cons, !unchunk_cons, IH. by rewrite string_app_assoc.
Qed.

Lemma string_app_nil_l (q : string) : "" +:+ q = q.
Proof. reflexivity. Qed.

(** A rune that decoded without error does not depend on the bytes after
    its encoding. *)
Lemma decode_ext (a : ascii) (t q : string) (r : Z) (n : nat) :
  DecodeRuneInString (String a t) = (r, n) -> r <> RuneError ->
  DecodeRuneInString (String a t +:+ q) = (r, n)
  /\ (1 <= n <= S (String.length t))%nat.
Proof.
  destruct t as [|a1 [|a2 [|a3 t]]];
    rewrite ?string_app_cons, ?string_app_nil_l.
  - destruct q as [|b1 [|b2 [|b3 q]]]; decode_cases.
  - destruct q as [|b1 [|b2 q]]; decode_cases.
  - destruct q as [|b1 q]; decode_cases.
  - decode_cases.
Qed.

(** Cutting a string after the first rune does not change that rune, be it
    an error or not. *)
Lemma decode_prefix (a : ascii) (t q : string) (r : Z) (n : nat) :
  DecodeRuneInString (String a t +:+ q) = (r, n) ->
  (n <= S (String.length t))%nat ->
  DecodeRuneInString (String a t) = (r, n).
Proof.
  destruct t as [|a1 [|a2 [|a3 t]]];
    rewrite ?string_app_cons, ?string_app_nil_l.
  - destruct q as [|b1 [|b2 [|b3 q]]]; decode_cases.
  - destruct q as [|b1 [|b2 q]]; decode_cases.
  - destruct q as [|b1 q]; decode_cases.
  - decode_cases.
Qed.

Lemma decode_size (a : ascii) (t : string) :
  (1 <= snd (DecodeRuneInString (String a t)) <= S (String.length t))%nat.
Proof.
  destruct t as [|a1 [|a2 [|a3 t]]];
    unfold DecodeRuneInString, first;
    repeat match goal with
           | |- context [byte_of ?a] => generalize (byte_of a); intro
           end;
    repeat (case_match; simplify_eq; try done);
    cbn [snd String.length]; lia.
Qed.

Lemma chunks_app (s q : string) :
  Forall (fun r => r <> RuneError) (runes s) ->
  chunks (s +:+ q) = chunks s ++ chunks q.
Proof.
  unfold runes. induction s as [|a t IH] using chunks_ind; intros Hv.
  - by rewrite chunks_nil.
  - rewrite chunks_cons in Hv. rewrite fmap_cons in Hv.
    apply Forall_cons in Hv as [Hr Hv]. cbn [fst] in Hr.
    destruct (DecodeRuneInString (String a t)) as [r n] eqn:Hd.
    cbn [fst snd] in *.
    destruct (decode_ext a t q r n Hd Hr) as [Hd' Hn].
    rewrite string_app_cons, (chunks_cons a t), chunks_cons.
    rewrite <- string_app_cons, Hd', Hd. cbn [fst snd].
    rewrite string_take_app, string_drop_app by lia.
    rewrite IH by done. done.
Qed.

Lemma string_take_app_exact (s t : string) :
  string_take (String.length s) (s +:+ t) = s.
Proof.
  induction s as [|a s IH]; [by destruct t|].
  rewrite string_app_cons. simpl. by rewrite IH.
Qed.

Lemma string_drop_app_exact (s t : string) :
  string_drop (String.length s) (s +:+ t) = t.
Proof.
  induction s as [|a s IH]; [done|].
  rewrite string_app_cons. simpl. by rewrite IH.
Qed.

(** The decoding of a string cut at a rune boundary is the decoding of the
    string, cut. *)
Lemma chunks_prefix (s : string) (l1 l2 : list (Z * string)) :
  chunks s = l1 ++ l2 -> chunks (unchunk l1) = l1.
Proof.
  revert l1. induction s as [|a t IH] using chunks_ind; intros l1 Hs.
  - rewrite chunks_nil in Hs. symmetry in Hs.
    apply app_eq_nil in Hs as [-> _]. apply chunks_nil.
  - destruct l1 as [|c l1]; [apply chunks_nil|].
    rewrite chunks_cons in Hs. rewrite <- app_comm_cons in Hs.
    destruct (DecodeRuneInString (String a t)) as [r n] eqn:Hd.
    cbn [fst snd] in *.
    injection Hs as Hc Hrest.
    pose proof (decode_size a t) as Hn. rewrite Hd in Hn. cbn [snd] in Hn.
    specialize (IH l1 Hrest).
    set (p := string_take (n - 1) t) in *.
    assert (Hp : String.length p = (n - 1)%nat)
      by (apply string_take_length; lia).
    assert (Ht : t = p +:+ unchunk l1 +:+ unchunk l2).
    { rewrite <- unchunk_app, <- Hrest, unchunk_chunks.
      symmetry. apply string_take_drop. }
    assert (Hd2 : DecodeRuneInString (String a (p +:+ unchunk l1)) = (r, n)).
    { apply (decode_prefix a _ (unchunk l2)).
      - by rewrite string_app_cons, string_app_assoc, <- Ht.
      - rewrite string_app_length. lia. }
    rewrite unchunk_cons, <- Hc. cbn [snd].
    rewrite string_app_cons, chunks_cons, Hd2. cbn [fst snd].
    rewrite <- Hp, string_take_app_exact, string_drop_app_exact.
    by rewrite IH.
Qed.

End Utf8Facts.

(** ** Trimming *)

Section TrimFacts.
Import utf8 strings.
Context {A : Type} (f : A -> bool).

Lemma drop_while_all (l : list A) :
  forallb f l = true -> drop_while f l = [].
Proof.
  induction l as [|x l IH]; simpl; [done|].
  intros [Hx Hl]%andb_true_iff. rewrite Hx. auto.
Qed.

Lemma drop_while_app_all (l1 l2 : list A) :
  forallb f l1 = true -> drop_while f (l1 ++ l2) = drop_while f l2.
Proof.
  induction l1 as [|x l IH]; simpl; [done|].
  intros [Hx Hl]%andb_true_iff. rewrite Hx. auto.
Qed.

Lemma drop_while_head (l : list A) (x : A) (m : list A) :
  drop_while f l = x :: m -> f x = false.
Proof.
  induction l as [|y l IH]; simpl; [done|].
  destruct (f y) eqn:Hy; [done|]. intros [= -> _]. done.
Qed.

Lemma drop_while_suffix (l : list A) :
  exists l1, l = l1 ++ drop_while f l.
Proof.
  induction l as [|x l [l1 IH]]; simpl; [by exists []|].
  destruct (f x); [|by exists []].
  exists (x :: l1). simpl. by rewrite <- IH.
Qed.

Lemma drop_while_end_cons_keep (x : A) (l : list A) :
  f x = false -> drop_while_end f (x :: l) = x :: drop_while_end f l.
Proof. intros Hx. simpl. rewrite Hx. by destruct (drop_while_end f l). Qed.

Lemma drop_while_end_all (l : list A) :
  forallb f l = true -> drop_while_end f l = [].
Proof.
  induction l as [|x l IH]; simpl; [done|].
  intros [Hx Hl]%andb_true_iff. by rewrite IH, Hx.
Qed.

Lemma drop_while_end_app_all (l1 l2 : list A) :
  forallb f l2 = true -> drop_while_end f (l1 ++ l2) = drop_while_end f l1.
Proof.
  intros Hl2. induction l1 as [|x l IH]; simpl.
  - by apply drop_while_end_all.
  - by rewrite IH.
Qed.

Lemma drop_while_end_prefix (l : list A) :
  exists l2, l = drop_while_end f l ++ l2.
Proof.
  induction l as [|x l [l2 IH]]; simpl; [by exists []|].
  destruct (drop_while_end f l) as [|y r] eqn:E.
  - destruct (f x); [by exists (x :: l)|]. exists l2. simpl. by rewrite IH.
  - exists l2. simpl. by rewrite IH.
Qed.

Lemma drop_while_end_idem (l : list A) :
  drop_while_end f (drop_while_end f l) = drop_while_end f l.
Proof.
  induction l as [|x l IH]; simpl; [done|].
  destruct (drop_while_end f l) as [|y r] eqn:E.
  - destruct (f x) eqn:Hx; [done|]. simpl. by rewrite Hx.
  - change (drop_while_end f (x :: y :: r)) with
      (match drop_while_end f (y :: r) with
       | [] => if f x then [] else [x]
       | r' => x :: r'
       end).
    by rewrite IH.
Qed.

Lemma drop_while_of_trimmed (l : list A) :
  drop_while f (drop_while_end f (drop_while f l))
  = drop_while_end f (drop_while f l).
Proof.
  destruct (drop_while f l) as [|x m] eqn:E; [done|].
  pose proof (drop_while_head _ _ _ E) as Hx.
  rewrite drop_while_end_cons_keep by done. simpl. by rewrite Hx.
Qed.

Lemma drop_while_keep (l : list A) :
  forallb (fun x => negb (f x)) l = true -> drop_while f l = l.
Proof.
  destruct l as [|x l]; simpl; [done|].
  intros [Hx _]%andb_true_iff. by destruct (f x).
Qed.

Lemma drop_while_end_keep (l : list A) :
  forallb (fun x => negb (f x)) l = true -> drop_while_end f l = l.
Proof.
  induction l as [|x l IH]; [done|]. cbn [forallb].
  intros [Hx Hl]%andb_true_iff.
  rewrite drop_while_end_cons_keep by by destruct (f x).
  by rewrite IH.
Qed.

Lemma drop_while_end_nil_inv (l : list A) :
  drop_while_end f l = [] -> forallb f l = true.
Proof.
  induction l as [|x l IH]; simpl; [done|].
  destruct (drop_while_end f l); [|done].
  destruct (f x); [|done]. auto.
Qed.

End TrimFacts.

Section TrimSpaceFacts.
Import utf8 strings.

Lemma chunks_suffix (l1 l2 : list (Z * string)) (s : string) :
  chunks s = l1 ++ l2 -> chunks (unchunk l2) = l2.
Proof.
  revert s. induction l1 as [|c l1 IH]; intros s Hs.
  - simpl in Hs. by rewrite <- Hs, unchunk_chunks.
  - destruct s as [|a t]; [by rewrite chunks_nil in Hs|].
    rewrite chunks_cons, <- app_comm_cons in Hs.
    injection Hs as _ Hrest. eauto.
Qed.

Lemma chunks_TrimSpace (s : string) :
  chunks (TrimSpace s)
  = drop_while_end space_chunk (drop_while space_chunk (chunks s)).
Proof.
  unfold TrimSpace.
  destruct (drop_while_suffix space_chunk (chunks s)) as [l1 Hl1].
  remember (drop_while space_chunk (chunks s)) as m eqn:Em.
  apply chunks_suffix in Hl1.
  destruct (drop_while_end_prefix space_chunk m) as [l2 Hl2].
  apply (chunks_prefix (unchunk m) _ l2). rewrite Hl1. exact Hl2.
Qed.

(** Trimming a trimmed string changes nothing. *)
Lemma TrimSpace_idem (s : string) : TrimSpace (TrimSpace s) = TrimSpace s.
Proof.
  unfold TrimSpace at 1. rewrite chunks_TrimSpace.
  by rewrite drop_while_of_trimmed, drop_while_end_idem.
Qed.

Lemma whitespace_only_chunks (s : string) :
  whitespace_only s = forallb space_chunk (chunks s).
Proof.
  unfold whitespace_only, runes.
  induction (chunks s) as [|c l IH]; simpl; [done|]. by rewrite IH.
Qed.

Lemma TrimSpace_whitespace (s : string) :
  whitespace_only s = true -> TrimSpace s = "".
Proof.
  rewrite whitespace_only_chunks. intros H. unfold TrimSpace.
  by rewrite drop_while_all.
Qed.

Lemma chunks_eq_nil (s : string) : chunks s = [] -> s = "".
Proof. destruct s; [done|]. by rewrite chunks_cons. Qed.

Lemma TrimSpace_empty_inv (s : string) :
  TrimSpace s = "" -> whitespace_only s = true.
Proof.
  intros H. pose proof (chunks_TrimSpace s) as Hc.
  rewrite H, chunks_nil in Hc. symmetry in Hc.
  apply drop_while_end_nil_inv in Hc.
  rewrite whitespace_only_chunks.
  destruct (drop_while_suffix space_chunk (chunks s)) as [l1 Hl1].
  destruct (drop_while space_chunk (chunks s)) as [|x m] eqn:E.
  - clear Hl1. induction (chunks s) as [|c l IH]; simpl in *; [done|].
    destruct (space_chunk c); [auto | done].
  - apply drop_while_head in E. simpl in Hc. by rewrite E in Hc.
Qed.

End TrimSpaceFacts.

(** ** Account identifiers (claim C1) *)

Section AccountIDFacts.
Import utf8 strings accounts.

Lemma idClass_not_space (r : Z) :
  idClass r = true -> unicode.IsSpace r = false.
Proof.
  unfold idClass, unicode.IsSpace. intros H.
  repeat case_match; bool_lia;
    repeat match goal with
           | |- _ || _ = false => apply orb_false_iff; split
           | |- _ && _ = false => apply andb_false_iff
           | |- (_ =? _) = false => apply Z.eqb_neq
           end; try lia.
  all: intuition lia.
Qed.

Lemma idClass_not_error (r : Z) : idClass r = true -> r <> RuneError.
Proof. unfold idClass, RuneError. intros H ->. by vm_compute in H. Qed.

Lemma IsSpace_not_error (r : Z) :
  unicode.IsSpace r = true -> r <> RuneError.
Proof. intros H ->. by vm_compute in H. Qed.

Lemma MatchString_runes (s : string) :
  accountIDPattern_MatchString s = true ->
  runes s <> [] /\ forallb idClass (runes s) = true.
Proof.
  unfold accountIDPattern_MatchString.
  destruct (runes s) as [|r rs]; [done|]. by split.
Qed.

Lemma MatchString_nonempty (s : string) :
  accountIDPattern_MatchString s = true -> s <> "".
Proof.
  intros [Hne _]%MatchString_runes ->. apply Hne.
  unfold runes. by rewrite chunks_nil.
Qed.

Lemma matching_chunks_nonspace (s : string) :
  forallb idClass (runes s) = true ->
  forallb (fun c => negb (space_chunk c)) (chunks s) = true.
Proof.
  unfold runes, space_chunk.
  induction (chunks s) as [|c l IH]; simpl; [done|].
  intros [Hc Hl]%andb_true_iff.
  by rewrite (idClass_not_space _ Hc), IH.
Qed.

(** White space is trimmed away from around an identifier, and an
    identifier has none to trim. *)
Lemma TrimSpace_matching (s : string) :
  accountIDPattern_MatchString s = true -> TrimSpace s = s.
Proof.
  intros [_ H]%MatchString_runes. apply matching_chunks_nonspace in H.
  unfold TrimSpace.
  by rewrite drop_while_keep, drop_while_end_keep, unchunk_chunks.
Qed.

Lemma runes_valid_of (P : Z -> bool) (s : string) :
  (forall r, P r = true -> r <> RuneError) ->
  forallb P (runes s) = true ->
  Forall (fun r => r <> RuneError) (runes s).
Proof.
  intros HP. induction (runes s) as [|r l IH]; simpl; [constructor|].
  intros [Hr Hl]%andb_true_iff. constructor; auto.
Qed.

Lemma TrimSpace_padded (pre t post : string) :
  whitespace_only pre = true -> whitespace_only post = true ->
  accountIDPattern_MatchString t = true ->
  TrimSpace (pre +:+ t +:+ post) = t.
Proof.
  intros Hpre Hpost [Hne Ht]%MatchString_runes.
  unfold TrimSpace.
  rewrite chunks_app
    by (eapply runes_valid_of; [apply IsSpace_not_error | exact Hpre]).
  rewrite chunks_app
    by (eapply runes_valid_of; [apply idClass_not_error | exact Ht]).
  rewrite whitespace_only_chunks in Hpre, Hpost.
  rewrite drop_while_app_all by done.
  apply matching_chunks_nonspace in Ht.
  transitivity (unchunk (chunks t)); [f_equal | apply unchunk_chunks].
  unfold runes in Hne. destruct (chunks t) as [|c l]; [done|].
  assert (Hc : space_chunk c = false).
  { simpl in Ht. apply andb_true_iff in Ht as [Hc _].
    by destruct (space_chunk c). }
  rewrite <- app_comm_cons. cbn [drop_while]. rewrite Hc.
  rewrite app_comm_cons, drop_while_end_app_all by done.
  by rewrite drop_while_end_keep.
Qed.

Lemma sanitize_default (s : string) :
  whitespace_only s = true -> sanitizeAccountID s = Ok defaultAccountID.
Proof.
  intros H. unfold sanitizeAccountID. by rewrite TrimSpace_whitespace.
Qed.

Lemma sanitize_trimmed (s : string) :
  accountIDPattern_MatchString (TrimSpace s) = true ->
  sanitizeAccountID s = Ok (TrimSpace s).
Proof.
  intros H. unfold sanitizeAccountID. rewrite H. simpl.
  apply MatchString_nonempty in H.
  by destruct (String.eqb_spec (TrimSpace s) "").
Qed.

Lemma sanitize_invalid (s : string) :
  whitespace_only s = false ->
  accountIDPattern_MatchString (TrimSpace s) = false ->
  sanitizeAccountID s = Err (InvalidAccountID s).
Proof.
  intros Hws H. unfold sanitizeAccountID. rewrite H. simpl.
  destruct (String.eqb_spec (TrimSpace s) "") as [E|]; [|done].
  apply TrimSpace_empty_inv in E. congruence.
Qed.

Lemma Resolve_sanitize (s : string) :
  ResolveAccountID s = sanitizeAccountID s.
Proof. unfold ResolveAccountID. by destruct (sanitizeAccountID s). Qed.

(** C1, as the sources have it.  [resolve] trims the white space around
    its argument before anything else.  An identifier that matches
    [^[A-Za-z0-9_-]+$] is returned unchanged; an empty or white-space-only
    argument gives the default identifier; an identifier that matches the
    pattern once the surrounding white space is removed is accepted and
    returned trimmed; and the call fails, with [InvalidAccountID] carrying
    the argument as given, exactly when the argument is not white space
    only and its trimmed form does not match the pattern. *)
Theorem ResolveAccountID_classes :
  (forall s, accountIDPattern_MatchString s = true ->
             ResolveAccountID s = Ok s)
  /\ (forall s, whitespace_only s = true ->
                ResolveAccountID s = Ok defaultAccountID)
  /\ (forall pre t post,
        whitespace_only pre = true -> whitespace_only post = true ->
        accountIDPattern_MatchString t = true ->
        ResolveAccountID (pre +:+ t +:+ post) = Ok t)
  /\ (forall s, whitespace_only s = false ->
                accountIDPattern_MatchString (TrimSpace s) = true ->
                ResolveAccountID s = Ok (TrimSpace s))
  /\ (forall s, whitespace_only s = false ->
                accountIDPattern_MatchString (TrimSpace s) = false ->
                ResolveAccountID s = Err (InvalidAccountID s))
  /\ (forall s e, ResolveAccountID s = Err e ->
                  e = InvalidAccountID s
                  /\ whitespace_only s = false
                  /\ accountIDPattern_MatchString (TrimSpace s) = false).
Proof.
  repeat split.
  - intros s H. rewrite Resolve_sanitize.
    rewrite <- (TrimSpace_matching s H) at 2.
    apply sanitize_trimmed. by rewrite TrimSpace_matching.
  - intros s H. rewrite Resolve_sanitize. by apply sanitize_default.
  - intros pre t post Hpre Hpost Ht. rewrite Resolve_sanitize.
    rewrite <- (TrimSpace_padded pre t post Hpre Hpost Ht) at 2.
    apply sanitize_trimmed. by rewrite TrimSpace_padded.
  - intros s _ H. rewrite Resolve_sanitize. by apply sanitize_trimmed.
  - intros s Hws H. rewrite Resolve_sanitize. by apply sanitize_invalid.
  - rewrite Resolve_sanitize in H. unfold sanitizeAccountID in H.
    repeat case_match; congruence.
  - destruct (whitespace_only s) eqn:Hws; [|done].
    rewrite Resolve_sanitize, sanitize_default in H by done. done.
  - rewrite Resolve_sanitize in H. unfold sanitizeAccountID in H.
    repeat case_match; try congruence.
    by destruct (accountIDPattern_MatchString (TrimSpace s)).
Qed.

(** The three classes of [ResolveAccountID_classes] at concrete inputs. *)
Lemma ResolveAccountID_classes_witness :
  ResolveAccountID "shop_01-A" = Ok "shop_01-A"
  /\ ResolveAccountID "   " = Ok "default"
  /\ ResolveAccountID (" " +:+ "abc" +:+ "  ") = Ok "abc"
  /\ ResolveAccountID "a b" = Err (InvalidAccountID "a b").
Proof.
  destruct ResolveAccountID_classes as (H1 & H2 & H3 & _ & H5 & _).
  split; [apply H1; reflexivity|].
  split; [apply H2; reflexivity|].
  split; [apply H3; reflexivity|].
  apply H5; reflexivity.
Defined.

(** C1 as stated fails: [" abc"] neither matches the pattern nor is white
    space only, yet it is resolved (to ["abc"]) and not rejected. *)
Lemma ResolveAccountID_padded_counterexample :
  accountIDPattern_MatchString " abc" = false
  /\ whitespace_only " abc" = false
  /\ ResolveAccountID " abc" = Ok "abc"
  /\ ResolveAccountID " abc" <> Err (InvalidAccountID " abc").
Proof. vm_compute. repeat split; congruence. Qed.

End AccountIDFacts.

(** ** The file system *)

Section FileSystemFacts.
Import os.

Lemma keeps_dirs_refl (m : filesys) : keeps_dirs m m.
Proof. by intros q. Qed.

Lemma keeps_dirs_trans (m1 m2 m3 : filesys) :
  keeps_dirs m1 m2 -> keeps_dirs m2 m3 -> keeps_dirs m1 m3.
Proof. intros H1 H2 q Hq. auto. Qed.

Lemma keeps_dirs_insert_new (m : filesys) (k : path) (n : node) :
  m !! k <> Some Dir -> keeps_dirs m (<[k := n]> m).
Proof.
  intros Hk q Hq. destruct (decide (k = q)) as [->|Hne]; [done|].
  by rewrite lookup_insert_ne.
Qed.

Lemma all_dirs_mono (m m' : filesys) (pre : path) (rest : list string) :
  keeps_dirs m m' -> all_dirs pre rest m -> all_dirs pre rest m'.
Proof.
  intros Hk. revert pre. induction rest as [|c rest IH]; intros pre; [done|].
  simpl. intros [H1 H2]. split; auto.
Qed.

Lemma all_dirs_app (m : filesys) (pre a b : list string) :
  all_dirs pre (a ++ b) m <-> all_dirs pre a m /\ all_dirs (pre ++ a) b m.
Proof.
  revert pre. induction a as [|c a IH]; intros pre; simpl.
  - rewrite app_nil_r. tauto.
  - rewrite IH, <- app_assoc. simpl. tauto.
Qed.

Lemma mkdir_walk_ok (full pre : path) (rest : list string) (m m' : filesys) :
  mkdir_walk full pre rest m = Ok m' ->
  all_dirs pre rest m' /\ keeps_dirs m m'.
Proof.
  revert pre m. induction rest as [|c rest IH]; intros pre m; simpl.
  - intros [= ->]. split; [done | apply keeps_dirs_refl].
  - destruct (m !! (pre ++ [c])) as [[|d]|] eqn:E; [| done |].
    + intros [H1 H2]%IH. split; [split|]; auto.
    + intros [H1 H2]%IH.
      assert (keeps_dirs m (<[pre ++ [c] := Dir]> m)) as H3
        by (apply keeps_dirs_insert_new; congruence).
      split; [split|]; auto.
      * apply H2. apply lookup_insert_eq.
      * eapply keeps_dirs_trans; eauto.
Qed.

Lemma mkdir_walk_noop (full pre : path) (rest : list string) (m : filesys) :
  all_dirs pre rest m -> mkdir_walk full pre rest m = Ok m.
Proof.
  revert pre. induction rest as [|c rest IH]; intros pre; simpl; [done|].
  intros [-> H]. auto.
Qed.

Lemma MkdirAll_ok (p : path) (m m' : filesys) :
  MkdirAll p m = Ok m' -> all_dirs [] p m' /\ keeps_dirs m m'.
Proof. apply mkdir_walk_ok. Qed.

Lemma MkdirAll_noop (p : path) (m : filesys) :
  all_dirs [] p m -> MkdirAll p m = Ok m.
Proof. apply mkdir_walk_noop. Qed.

Lemma stat_walk_dir (full pre : path) (rest : list string) (m : filesys) :
  all_dirs pre rest m -> stat_walk full pre rest m = Ok Dir.
Proof.
  revert pre. induction rest as [|c rest IH]; intros pre; simpl; [done|].
  intros [-> H]. destruct rest; [done|]. auto.
Qed.

Lemma stat_walk_step (full pre : path) (d : string) (rest : list string)
    (m : filesys) :
  rest <> [] -> m !! (pre ++ [d]) = Some Dir ->
  stat_walk full pre (d :: rest) m = stat_walk full (pre ++ [d]) rest m.
Proof. intros Hne Hd. simpl. rewrite Hd. by destruct rest. Qed.

Lemma stat_walk_entry (full pre : path) (rest : list string) (c : string)
    (m : filesys) :
  all_dirs pre rest m ->
  stat_walk full pre (rest ++ [c]) m =
  match m !! (pre ++ rest ++ [c]) with
  | Some n => Ok n
  | None => Err (PathError "stat" full ENOENT)
  end.
Proof.
  revert pre. induction rest as [|d rest IH]; intros pre.
  - intros _. simpl. by destruct (m !! (pre ++ [c])).
  - cbn [all_dirs]. intros [Hd H]. rewrite <- app_comm_cons.
    rewrite stat_walk_step by (done || by destruct rest).
    rewrite IH by done. by rewrite <- app_assoc.
Qed.

Lemma Stat_dir (p : path) (m : filesys) :
  all_dirs [] p m -> Stat p m = Ok Dir.
Proof. apply stat_walk_dir. Qed.

Lemma Stat_entry (dir : path) (c : string) (m : filesys) :
  all_dirs [] dir m ->
  Stat (dir ++ [c]) m =
  match m !! (dir ++ [c]) with
  | Some n => Ok n
  | None => Err (PathError "stat" (dir ++ [c]) ENOENT)
  end.
Proof. intros H. unfold Stat. by rewrite stat_walk_entry. Qed.

Lemma parent_snoc (dir : path) (c : string) : parent (dir ++ [c]) = dir.
Proof. apply removelast_last. Qed.

Lemma WriteFile_entry (dir : path) (c : string) (d : FileData) (m : filesys) :
  all_dirs [] dir m ->
  WriteFile (dir ++ [c]) d m =
  match m !! (dir ++ [c]) with
  | Some Dir => Err (PathError "open" (dir ++ [c]) EISDIR)
  | _ => Ok (<[dir ++ [c] := File d]> m)
  end.
Proof.
  intros H. unfold WriteFile.
  destruct (dir ++ [c]) eqn:E; [by destruct dir|].
  rewrite <- E, parent_snoc, Stat_dir by done. done.
Qed.

Lemma ReadFile_entry (dir : path) (c : string) (m : filesys) :
  all_dirs [] dir m ->
  ReadFile (dir ++ [c]) m =
  match m !! (dir ++ [c]) with
  | Some (File d) => Ok d
  | Some Dir => Err (PathError "read" (dir ++ [c]) EISDIR)
  | None => Err (PathError "open" (dir ++ [c]) ENOENT)
  end.
Proof.
  intros H. unfold ReadFile. rewrite Stat_entry by done.
  by destruct (m !! (dir ++ [c])) as [[|d]|].
Qed.

End FileSystemFacts.

(** ** The account store (claims C8 and C9) *)

Lemma bind_Ok_inv {A B} (c : IO A) (k : A -> IO B) (w w' : World) (b : B) :
  bind c k w = (Ok b, w') ->
  exists a w1, c w = (Ok a, w1) /\ k a w1 = (Ok b, w').
Proof.
  unfold bind. destruct (c w) as [[a|e] w1]; [eauto | done].
Qed.

Lemma bind_Ok {A B} (c : IO A) (k : A -> IO B) (w w1 : World) (a : A) :
  c w = (Ok a, w1) -> bind c k w = k a w1.
Proof. unfold bind. by intros ->. Qed.

(** Splits a successful run of a sequence into the runs of its steps. *)
Ltac io_inv H :=
  repeat match type of H with
  | bind _ _ _ = (Ok _, _) =>
      let a := fresh "a" in let w := fresh "w" in
      let H1 := fresh "Hstep" in
      apply bind_Ok_inv in H as (a & w & H1 & H)
  | ret _ _ = (Ok _, _) => unfold ret in H; simplify_eq
  | fail _ _ = (Ok _, _) => by unfold fail in H
  end.

(** Refutes an equation between lists of different lengths. *)
Ltac length_contra H :=
  exfalso; apply (f_equal length) in H; rewrite ?length_app in H;
  simpl in H; lia.

(** Splits the conjunctions of the goal, without unfolding definitions. *)
Ltac splits := repeat match goal with |- _ /\ _ => split end.

Section StoreFacts.
Import os accounts.

Lemma set_fs_same (w : World) : set_fs (fs w) w = w.
Proof. by destruct w. Qed.

Lemma grows_refl (w : World) : grows w w.
Proof. repeat split. apply keeps_dirs_refl. Qed.

Lemma grows_trans (w1 w2 w3 : World) :
  grows w1 w2 -> grows w2 w3 -> grows w1 w3.
Proof.
  intros (E1 & G1 & C1 & K1) (E2 & G2 & C2 & K2).
  repeat split; try congruence. eapply keeps_dirs_trans; eauto.
Qed.

Lemma grows_accounts_root (w w' : World) :
  grows w w' -> accounts_root w' = accounts_root w.
Proof.
  intros (E & G & _). unfold accounts_root, data_dir. by rewrite E, G.
Qed.

Lemma grows_all_dirs (w w' : World) (p : path) :
  grows w w' -> all_dirs [] p (fs w) -> all_dirs [] p (fs w').
Proof. intros (_ & _ & _ & K). by apply all_dirs_mono. Qed.

Lemma app_snoc2 (r : path) (a b : string) : (r ++ [a]) ++ [b] = r ++ [a; b].
Proof. by rewrite <- app_assoc. Qed.

Lemma all_dirs_parent (m : filesys) (dir : path) (c : string) :
  all_dirs [] (dir ++ [c]) m -> all_dirs [] dir m.
Proof. by intros [H _]%all_dirs_app. Qed.

Lemma time_Now_spec (w w' : World) (t : Z) :
  time_Now w = (Ok t, w') -> t <> 0 /\ grows w w' /\ fs w' = fs w.
Proof.
  unfold time_Now. intros [= <- <-]. split; [done|].
  split; [|done]. repeat split. apply keeps_dirs_refl.
Qed.

Lemma ensure_dir_spec (what : string) (d : path) (w w' : World) (u : unit) :
  ensure_dir what d w = (Ok u, w') ->
  grows w w' /\ all_dirs [] d (fs w').
Proof.
  unfold ensure_dir. destruct (MkdirAll d (fs w)) as [m|e] eqn:E; [|done].
  intros [= <- <-]. apply MkdirAll_ok in E as [H1 H2].
  split; [|done]. by repeat split.
Qed.

Lemma ensure_dir_noop (what : string) (d : path) (w : World) :
  all_dirs [] d (fs w) -> ensure_dir what d w = (Ok tt, w).
Proof.
  intros H. unfold ensure_dir. by rewrite MkdirAll_noop, set_fs_same.
Qed.

Lemma baseDataDir_spec (w w' : World) (base : path) :
  baseDataDir w = (Ok base, w') ->
  data_dir w = Some base /\ grows w w' /\ all_dirs [] base (fs w').
Proof.
  unfold baseDataDir, data_dir.
  destruct (env_data_dir w) as [dir|]; [|destruct (getwd w) as [cwd|]];
    [| |done]; intros H; io_inv H; by apply ensure_dir_spec in Hstep.
Qed.

Lemma baseDataDir_noop (w : World) (base : path) :
  data_dir w = Some base -> all_dirs [] base (fs w) ->
  baseDataDir w = (Ok base, w).
Proof.
  unfold baseDataDir, data_dir. intros Hd Ha.
  destruct (env_data_dir w) as [dir|]; [|destruct (getwd w) as [cwd|]];
    simplify_eq; by erewrite bind_Ok by by apply ensure_dir_noop.
Qed.

Lemma accountsRootDir_spec (w w' : World) (root : path) :
  accountsRootDir w = (Ok root, w') ->
  accounts_root w = Some root /\ grows w w' /\ all_dirs [] root (fs w').
Proof.
  unfold accountsRootDir, accounts_root. intros H. io_inv H.
  apply baseDataDir_spec in Hstep as (-> & G1 & _).
  apply ensure_dir_spec in Hstep0 as (G2 & A2).
  split; [done|]. split; [by eapply grows_trans | done].
Qed.

Lemma accountsRootDir_noop (w : World) (root : path) :
  accounts_root w = Some root -> all_dirs [] root (fs w) ->
  accountsRootDir w = (Ok root, w).
Proof.
  unfold accountsRootDir, accounts_root. intros Hr Ha.
  destruct (data_dir w) as [base|] eqn:Hd; simplify_eq.
  erewrite bind_Ok
    by (apply baseDataDir_noop; [done | by eapply all_dirs_parent]).
  by erewrite bind_Ok by by apply ensure_dir_noop.
Qed.

Lemma accountDir_spec (raw : string) (w w' : World) (dir : path) :
  accountDir raw w = (Ok dir, w') ->
  exists id root,
    sanitizeAccountID raw = Ok id /\ accounts_root w = Some root
    /\ dir = root ++ [id] /\ grows w w' /\ all_dirs [] dir (fs w').
Proof.
  unfold accountDir. destruct (sanitizeAccountID raw) as [id|e]; [|done].
  intros H. io_inv H.
  apply accountsRootDir_spec in Hstep as (Hr & G1 & _).
  apply ensure_dir_spec in Hstep0 as (G2 & A2).
  exists id, a. splits; try done. by eapply grows_trans.
Qed.

Lemma accountDir_noop (raw id : string) (w : World) (root : path) :
  sanitizeAccountID raw = Ok id -> accounts_root w = Some root ->
  all_dirs [] (root ++ [id]) (fs w) ->
  accountDir raw w = (Ok (root ++ [id]), w).
Proof.
  intros Hs Hr Ha. unfold accountDir. rewrite Hs.
  erewrite bind_Ok
    by (apply accountsRootDir_noop; [done | by eapply all_dirs_parent]).
  by erewrite bind_Ok by by apply ensure_dir_noop.
Qed.

Lemma ImagesDir_spec (raw : string) (w w' : World) (p : path) :
  ImagesDir raw w = (Ok p, w') ->
  exists id root,
    sanitizeAccountID raw = Ok id /\ accounts_root w = Some root
    /\ p = root ++ [id; imagesDirName] /\ grows w w'
    /\ all_dirs [] p (fs w').
Proof.
  unfold ImagesDir. intros H. io_inv H.
  apply accountDir_spec in Hstep as (id & root & Hs & Hr & -> & G1 & _).
  apply ensure_dir_spec in Hstep0 as (G2 & A2).
  exists id, root. rewrite app_snoc2 in *.
  splits; try done. by eapply grows_trans.
Qed.

Lemma ImagesDir_noop (raw id : string) (w : World) (root : path) :
  sanitizeAccountID raw = Ok id -> accounts_root w = Some root ->
  all_dirs [] (root ++ [id; imagesDirName]) (fs w) ->
  ImagesDir raw w = (Ok (root ++ [id; imagesDirName]), w).
Proof.
  intros Hs Hr Ha. unfold ImagesDir. rewrite <- app_snoc2 in *.
  erewrite bind_Ok
    by (eapply accountDir_noop; [done | done | by eapply all_dirs_parent]).
  by erewrite bind_Ok by by apply ensure_dir_noop.
Qed.

Lemma CookiesPath_spec (raw : string) (w w' : World) (p : path) :
  CookiesPath raw w = (Ok p, w') ->
  exists id root,
    sanitizeAccountID raw = Ok id /\ accounts_root w = Some root
    /\ p = root ++ [id; cookiesFileName] /\ grows w w'
    /\ all_dirs [] (root ++ [id]) (fs w').
Proof.
  unfold CookiesPath. intros H. io_inv H.
  apply accountDir_spec in Hstep as (id & root & Hs & Hr & -> & G1 & A1).
  exists id, root. by rewrite app_snoc2.
Qed.

Lemma saveAccountMeta_spec (dir : path) (c : string) (meta : AccountMeta)
    (w w' : World) (u : unit) :
  all_dirs [] dir (fs w) ->
  saveAccountMeta (dir ++ [c]) meta w = (Ok u, w') ->
  grows w w'
  /\ fs w' = <[dir ++ [c] := File (MetaJSON (trimmed_meta meta))]> (fs w)
  /\ fs w' !! (dir ++ [c]) = Some (File (MetaJSON (trimmed_meta meta))).
Proof.
  intros Ha. unfold saveAccountMeta, lift_fs.
  rewrite WriteFile_entry by done.
  destruct (fs w !! (dir ++ [c])) as [[|d]|] eqn:E; [done | |];
    intros [= <- <-]; (split; [|split; [done | apply lookup_insert_eq]]);
    repeat split; apply keeps_dirs_insert_new; congruence.
Qed.

Lemma saveAccountMeta_noop (dir : path) (c : string) (meta : AccountMeta)
    (w : World) :
  all_dirs [] dir (fs w) ->
  fs w !! (dir ++ [c]) = Some (File (MetaJSON meta)) ->
  strings.TrimSpace (Remark meta) = Remark meta ->
  saveAccountMeta (dir ++ [c]) meta w = (Ok tt, w).
Proof.
  intros Ha Hf Ht. unfold saveAccountMeta, lift_fs.
  rewrite WriteFile_entry, Hf, Ht by done.
  destruct meta as [r c0 u0]. cbn [Remark CreatedAt UpdatedAt].
  by rewrite insert_id, set_fs_same.
Qed.

Lemma normalizeAccountMeta_spec (meta meta' : AccountMeta) (w w' : World) :
  normalizeAccountMeta meta w = (Ok meta', w') ->
  grows w w' /\ fs w' = fs w /\ Remark meta' = Remark meta
  /\ CreatedAt meta' <> 0 /\ UpdatedAt meta' <> 0.
Proof.
  unfold normalizeAccountMeta, IsZero. intros H. io_inv H.
  destruct (CreatedAt meta =? 0) eqn:Ec.
  - io_inv Hstep. apply time_Now_spec in Hstep0 as (Hn & G & F).
    cbn [Remark CreatedAt UpdatedAt].
    destruct (UpdatedAt meta =? 0) eqn:Eu; cbn [Remark CreatedAt UpdatedAt];
      splits; try done; by bool_lia.
  - io_inv Hstep. bool_lia.
    destruct (UpdatedAt a =? 0) eqn:Eu; cbn [Remark CreatedAt UpdatedAt];
      splits; try done; try apply grows_refl; by bool_lia.
Qed.

Lemma normalizeAccountMeta_noop (meta : AccountMeta) (w : World) :
  CreatedAt meta <> 0 -> UpdatedAt meta <> 0 ->
  normalizeAccountMeta meta w = (Ok meta, w).
Proof.
  intros Hc Hu. unfold normalizeAccountMeta, IsZero.
  apply Z.eqb_neq in Hc, Hu. rewrite Hc. unfold bind, ret. by rewrite Hu.
Qed.

Lemma metaPath_spec (raw : string) (w w' : World) (p : path) :
  metaPath raw w = (Ok p, w') ->
  exists id root,
    sanitizeAccountID raw = Ok id /\ accounts_root w = Some root
    /\ p = (root ++ [id]) ++ [metaFileName] /\ grows w w'
    /\ all_dirs [] (root ++ [id]) (fs w').
Proof.
  unfold metaPath. intros H. io_inv H.
  apply accountDir_spec in Hstep as (id & root & Hs & Hr & -> & G1 & A1).
  by exists id, root.
Qed.

Lemma metaPath_noop (raw id : string) (w : World) (root : path) :
  sanitizeAccountID raw = Ok id -> accounts_root w = Some root ->
  all_dirs [] (root ++ [id]) (fs w) ->
  metaPath raw w = (Ok ((root ++ [id]) ++ [metaFileName]), w).
Proof.
  intros Hs Hr Ha. unfold metaPath.
  by erewrite bind_Ok by by eapply accountDir_noop.
Qed.

Lemma CookiesPath_noop (raw id : string) (w : World) (root : path) :
  sanitizeAccountID raw = Ok id -> accounts_root w = Some root ->
  all_dirs [] (root ++ [id]) (fs w) ->
  CookiesPath raw w = (Ok ((root ++ [id]) ++ [cookiesFileName]), w).
Proof.
  intros Hs Hr Ha. unfold CookiesPath.
  by erewrite bind_Ok by by eapply accountDir_noop.
Qed.

(** What a successful [ensureMeta] leaves behind. *)
Lemma ensureMeta_spec (raw : string) (w w' : World) (meta : AccountMeta) :
  ensureMeta raw w = (Ok meta, w') ->
  exists id root,
    sanitizeAccountID raw = Ok id /\ accounts_root w = Some root
    /\ grows w w' /\ all_dirs [] (root ++ [id]) (fs w')
    /\ fs w' !! (root ++ [id; metaFileName])
       = Some (File (MetaJSON (trimmed_meta meta)))
    /\ CreatedAt meta <> 0 /\ UpdatedAt meta <> 0.
Proof.
  unfold ensureMeta. intros H. io_inv H.
  apply metaPath_spec in Hstep as (id & root & Hs & Hr & -> & G1 & A1).
  exists id, root. rewrite <- app_snoc2.
  destruct (ReadFile ((root ++ [id]) ++ [metaFileName]) (fs w0))
    as [data|e] eqn:Hread.
  - destruct (json_Unmarshal data) as [meta0|e]; [|done].
    io_inv H.
    apply normalizeAccountMeta_spec in Hstep as (G2 & F2 & _ & Hc & Hu).
    apply saveAccountMeta_spec in Hstep0 as (G3 & _ & Hf);
      [|by eapply grows_all_dirs].
    splits; try done.
    + eauto using grows_trans.
    + eauto using grows_all_dirs.
  - destruct (IsNotExist e); [|done]. io_inv H.
    unfold defaultAccountMeta in Hstep. io_inv Hstep.
    apply time_Now_spec in Hstep1 as (Hn & G2 & F2).
    apply saveAccountMeta_spec in Hstep0 as (G3 & _ & Hf);
      [|by eapply grows_all_dirs].
    splits; try done.
    + eauto using grows_trans.
    + eauto using grows_all_dirs.
Qed.

Lemma ensureMeta_noop (raw id : string) (w : World) (meta : AccountMeta) :
  sanitizeAccountID raw = Ok id -> materialized w id meta ->
  ensureMeta raw w = (Ok meta, w).
Proof.
  intros Hs (root & Hr & Ha & Hf & Ht & Hc & Hu).
  rewrite <- app_snoc2 in Ha, Hf. apply all_dirs_parent in Ha.
  unfold ensureMeta.
  erewrite bind_Ok by by eapply metaPath_noop.
  rewrite ReadFile_entry, Hf by done. cbn [json_Unmarshal].
  erewrite bind_Ok by by apply normalizeAccountMeta_noop.
  by erewrite bind_Ok by by apply saveAccountMeta_noop.
Qed.

(** What a successful [EnsureAccount] leaves behind. *)
Lemma EnsureAccount_spec (raw : string) (w w' : World) (u : unit) :
  EnsureAccount raw w = (Ok u, w') ->
  exists id meta,
    sanitizeAccountID raw = Ok id /\ materialized w' id meta /\ grows w w'.
Proof.
  unfold EnsureAccount. intros H. io_inv H.
  apply CookiesPath_spec in Hstep as (id & root & Hs & Hr & _ & G1 & _).
  apply ImagesDir_spec in Hstep0 as (id2 & root2 & Hs2 & Hr2 & -> & G2 & A2).
  apply ensureMeta_spec in Hstep1
    as (id3 & root3 & Hs3 & Hr3 & G3 & A3 & Hf & Hc & Hu).
  rewrite (grows_accounts_root _ _ G1) in Hr2.
  rewrite (grows_accounts_root _ _ G2), (grows_accounts_root _ _ G1) in Hr3.
  rewrite Hs in Hs2, Hs3. injection Hs2 as <-. injection Hs3 as <-.
  rewrite Hr in Hr2, Hr3. injection Hr2 as <-. injection Hr3 as <-.
  exists id, (trimmed_meta a1). split; [done|]. split.
  - exists root. splits; try done.
    + by rewrite (grows_accounts_root _ _ G3), (grows_accounts_root _ _ G2),
        (grows_accounts_root _ _ G1).
    + by apply (grows_all_dirs w1 w').
    + apply TrimSpace_idem.
  - eauto using grows_trans.
Qed.

Lemma EnsureAccount_noop (raw id : string) (w : World) (meta : AccountMeta) :
  sanitizeAccountID raw = Ok id -> materialized w id meta ->
  EnsureAccount raw w = (Ok tt, w).
Proof.
  intros Hs Hm. pose proof Hm as (root & Hr & Ha & Hf & Ht & Hc & Hu).
  unfold EnsureAccount.
  erewrite bind_Ok.
  2:{ eapply CookiesPath_noop; [done..|].
      rewrite <- app_snoc2 in Ha. by eapply all_dirs_parent. }
  erewrite bind_Ok by by eapply ImagesDir_noop.
  by erewrite bind_Ok by by eapply ensureMeta_noop.
Qed.

Lemma materialized_stored (w : World) (id : string) (meta : AccountMeta) :
  materialized w id meta -> stored_meta w id = Some meta.
Proof.
  intros (root & Hr & _ & Hf & _). unfold stored_meta. by rewrite Hr, Hf.
Qed.

(** C8.  [EnsureAccount] is idempotent.  After a successful call the
    account has stored metadata with non-zero creation and update times,
    and a second call succeeds, reads no clock and writes nothing new: the
    world after it is the world before it, so the stored metadata, with its
    [CreatedAt] and [UpdatedAt], is unchanged. *)
Theorem EnsureAccount_idempotent (raw : string) (w w1 : World) :
  EnsureAccount raw w = (Ok tt, w1) ->
  exists id meta,
    ResolveAccountID raw = Ok id
    /\ stored_meta w1 id = Some meta
    /\ CreatedAt meta <> 0 /\ UpdatedAt meta <> 0
    /\ EnsureAccount raw w1 = (Ok tt, w1)
    /\ stored_meta (snd (EnsureAccount raw w1)) id = Some meta.
Proof.
  intros H. apply EnsureAccount_spec in H as (id & meta & Hs & Hm & _).
  pose proof (EnsureAccount_noop raw id w1 meta Hs Hm) as Hnoop.
  exists id, meta. rewrite Hnoop. cbn [snd].
  pose proof Hm as (root & _ & _ & _ & _ & Hc & Hu).
  splits; try done; try by apply materialized_stored.
  unfold ResolveAccountID. by rewrite Hs.
Qed.

(** C8 at a concrete world: a first call for ["alice"] on an empty file
    system, then the second call. *)
Lemma EnsureAccount_idempotent_witness :
  exists id meta,
    ResolveAccountID "alice" = Ok id
    /\ stored_meta (snd (EnsureAccount "alice" fresh_world)) id = Some meta
    /\ CreatedAt meta <> 0 /\ UpdatedAt meta <> 0
    /\ EnsureAccount "alice" (snd (EnsureAccount "alice" fresh_world))
       = (Ok tt, snd (EnsureAccount "alice" fresh_world))
    /\ stored_meta
         (snd (EnsureAccount "alice"
                 (snd (EnsureAccount "alice" fresh_world)))) id
       = Some meta.
Proof.
  apply (EnsureAccount_idempotent "alice" fresh_world).
  vm_compute. reflexivity.
Defined.

(** *** Listing *)

Lemma entry_name_spec (p q : path) (c : string) :
  entry_name p q = Some c <-> q = p ++ [c].
Proof.
  revert q. induction p as [|a p IH]; intros q; simpl.
  - destruct q as [|b [|b' q]]; split; intros H; by simplify_eq.
  - destruct q as [|b q]; [split; intros H; by simplify_eq|].
    destruct (String.eqb_spec a b) as [->|Hne].
    + rewrite IH. split; intros H; by simplify_eq.
    + split; intros H; by simplify_eq.
Qed.

Lemma insert_entry_perm (e : DirEntry) (l : list DirEntry) :
  insert_entry e l ≡ₚ e :: l.
Proof.
  induction l as [|x l IH]; simpl; [done|].
  destruct (String.ltb (Name e) (Name x)); [done|].
  rewrite IH. apply Permutation_swap.
Qed.

Lemma sort_entries_perm (l : list DirEntry) :
  fold_right insert_entry [] l ≡ₚ l.
Proof.
  induction l as [|x l IH]; simpl; [done|].
  by rewrite insert_entry_perm, IH.
Qed.

(** The entries that [ReadDir] returns are the entries of the directory. *)
Lemma ReadDir_elem (p : path) (m : filesys) (entries : list DirEntry)
    (e : DirEntry) :
  ReadDir p m = Ok entries ->
  e ∈ entries <->
  exists n, m !! (p ++ [Name e]) = Some n /\ EntryIsDir e = is_Dir n.
Proof.
  unfold ReadDir. destruct (Stat p m) as [[|d]|[]]; try done.
  intros [= <-]. rewrite sort_entries_perm, list_elem_of_omap. split.
  - intros ([k n] & Hin & Hg). apply elem_of_map_to_list in Hin.
    cbn [fst snd] in Hg.
    destruct (entry_name p k) as [c|] eqn:Ec; [|done].
    apply entry_name_spec in Ec as ->. injection Hg as <-.
    by exists n.
  - intros (n & Hn & Hd). exists (p ++ [Name e], n). split.
    + by apply elem_of_map_to_list.
    + cbn [fst snd].
      rewrite (proj2 (entry_name_spec p (p ++ [Name e]) (Name e)) eq_refl).
      destruct e. cbn in *. by rewrite Hd.
Qed.

Lemma mkdir_walk_frame (full pre : path) (rest : list string)
    (m m' : filesys) (q : path) :
  mkdir_walk full pre rest m = Ok m' ->
  (forall r, pre ++ rest <> q ++ r) ->
  m' !! q = m !! q.
Proof.
  revert pre m. induction rest as [|c rest IH]; intros pre m; simpl.
  - by intros [= ->].
  - intros H Hq.
    assert (Hq' : forall r, (pre ++ [c]) ++ rest <> q ++ r)
      by (intros r; rewrite <- app_assoc; apply Hq).
    destruct (m !! (pre ++ [c])) as [[|d]|] eqn:E; [| done |].
    + by apply IH in H.
    + apply IH in H; [|done]. rewrite H. apply lookup_insert_ne.
      intros <-. apply (Hq rest). by rewrite <- app_assoc.
Qed.

Lemma ensure_dir_frame (what : string) (d q : path) (w w' : World) (u : unit) :
  ensure_dir what d w = (Ok u, w') ->
  (forall r, d <> q ++ r) ->
  fs w' !! q = fs w !! q.
Proof.
  unfold ensure_dir. destruct (MkdirAll d (fs w)) as [m|e] eqn:E; [|done].
  intros [= <- <-] Hq. by eapply mkdir_walk_frame.
Qed.

Lemma accountsRootDir_children (w w' : World) (root : path) (c : string) :
  accountsRootDir w = (Ok root, w') ->
  fs w' !! (root ++ [c]) = fs w !! (root ++ [c]).
Proof.
  unfold accountsRootDir. intros H. io_inv H.
  pose proof Hstep as Hb. apply baseDataDir_spec in Hb as (Hd & _ & _).
  transitivity (fs w0 !! ((a ++ [dataDirName]) ++ [c])).
  - eapply ensure_dir_frame; [done|]. intros r Hr. length_contra Hr.
  - unfold baseDataDir in Hstep.
    destruct (env_data_dir w) as [dir|]; [|destruct (getwd w) as [cwd|]];
      [| |done]; io_inv Hstep;
      (eapply ensure_dir_frame; [done|]); intros r Hr; length_contra Hr.
Qed.

Lemma ensureMeta_frame (raw id : string) (root : path) (w w' : World)
    (meta : AccountMeta) (q : path) :
  sanitizeAccountID raw = Ok id -> accounts_root w = Some root ->
  all_dirs [] (root ++ [id]) (fs w) ->
  ensureMeta raw w = (Ok meta, w') ->
  q <> root ++ [id; metaFileName] ->
  fs w' !! q = fs w !! q.
Proof.
  intros Hs Hr Ha H Hq. unfold ensureMeta in H.
  erewrite bind_Ok in H by by eapply metaPath_noop.
  rewrite app_snoc2 in H.
  destruct (ReadFile (root ++ [id; metaFileName]) (fs w)) as [data|e].
  - destruct (json_Unmarshal data) as [meta0|e]; [|done]. io_inv H.
    apply normalizeAccountMeta_spec in Hstep as (G & F & _).
    rewrite <- app_snoc2 in Hstep0.
    apply saveAccountMeta_spec in Hstep0 as (_ & -> & _);
      [|by eapply grows_all_dirs].
    rewrite app_snoc2, lookup_insert_ne by done. by rewrite F.
  - destruct (IsNotExist e); [|done]. io_inv H.
    unfold defaultAccountMeta in Hstep. io_inv Hstep.
    apply time_Now_spec in Hstep1 as (_ & G & F).
    rewrite <- app_snoc2 in Hstep0.
    apply saveAccountMeta_spec in Hstep0 as (_ & -> & _);
      [|by eapply grows_all_dirs].
    rewrite app_snoc2, lookup_insert_ne by done. by rewrite F.
Qed.

Lemma child_not_meta (root : path) (c id : string) :
  root ++ [c] <> root ++ [id; metaFileName].
Proof. intros H. by apply app_inv_head in H. Qed.

(** The loop of [ListAccounts]: every directory entry yields an account
    of that name, and the entries of the accounts root stay as they are. *)
Lemma list_entries_spec (root : path) (entries : list DirEntry) :
  forall (acc infos : list AccountInfo) (w w' : World),
    accounts_root w = Some root ->
    all_dirs [] root (fs w) ->
    (forall e, e ∈ entries -> EntryIsDir e = true ->
       fs w !! (root ++ [Name e]) = Some Dir
       /\ sanitizeAccountID (Name e) = Ok (Name e)) ->
    list_entries entries acc w = (Ok infos, w') ->
    grows w w'
    /\ (forall c, fs w' !! (root ++ [c]) = fs w !! (root ++ [c]))
    /\ (forall e, e ∈ entries -> EntryIsDir e = true ->
          exists info, info ∈ infos /\ ID info = Name e)
    /\ (forall info, info ∈ acc -> info ∈ infos).
Proof.
  induction entries as [|e entries IH]; intros acc infos w w' Hr Ha He H.
  - simpl in H. unfold ret in H. simplify_eq.
    splits; try done; [apply grows_refl | by intros e ?%elem_of_nil].
  - simpl in H. destruct (EntryIsDir e) eqn:Hd; simpl in H.
    + io_inv H.
      destruct (He e) as [Hdir Hsan]; [by left | done |].
      assert (Ha' : all_dirs [] (root ++ [Name e]) (fs w)).
      { apply all_dirs_app. split; [done|]. simpl. by split. }
      pose proof Hstep as Hspec.
      apply ensureMeta_spec in Hspec as (_ & _ & _ & _ & G & _).
      assert (Hch : forall c, fs w0 !! (root ++ [c]) = fs w !! (root ++ [c])).
      { intros c. eapply ensureMeta_frame; eauto. apply child_not_meta. }
      apply IH in H as (G' & Hch' & Hin & Hacc).
      * splits.
        -- by eapply grows_trans.
        -- intros c. by rewrite Hch', Hch.
        -- intros e' [->|Hin']%elem_of_cons Hd'; [|by apply Hin].
           exists (info_of (Name e) a). split; [|done].
           apply Hacc, elem_of_app. right. by left.
        -- intros info Hi. apply Hacc, elem_of_app. by left.
      * by rewrite (grows_accounts_root _ _ G).
      * by eapply grows_all_dirs.
      * intros e' Hin' Hd'. rewrite Hch. apply He; [by right | done].
    + apply IH in H as (G' & Hch' & Hin & Hacc); try done.
      * splits; try done.
        intros e' [->|Hin']%elem_of_cons Hd'; [congruence | by apply Hin].
      * intros e' Hin' Hd'. apply He; [by right | done].
Qed.

(** *** Sorting *)

Lemma sort_insert_perm {A} (less : A -> A -> bool) (x : A) (l : list A) :
  sort_insert less x l ≡ₚ x :: l.
Proof.
  induction l as [|y l IH]; simpl; [done|].
  destruct (less x y); [done|]. rewrite IH. apply Permutation_swap.
Qed.

Lemma sort_Slice_perm {A} (less : A -> A -> bool) (l : list A) :
  sort_Slice less l ≡ₚ l.
Proof.
  unfold sort_Slice. induction l as [|x l IH]; simpl; [done|].
  by rewrite sort_insert_perm, IH.
Qed.

Lemma string_ltb_leb (a b : string) :
  String.ltb a b = true -> String.leb a b = true.
Proof. unfold String.ltb, String.leb. by destruct (String.compare a b). Qed.

Lemma string_nltb_leb (a b : string) :
  String.ltb a b = false -> String.leb b a = true.
Proof.
  unfold String.ltb, String.leb. rewrite (String.compare_antisym b a).
  by destruct (String.compare a b).
Qed.

Lemma sort_insert_HdRel (x y : AccountInfo) (l : list AccountInfo) :
  id_le y x -> HdRel id_le y l -> HdRel id_le y (sort_insert id_less x l).
Proof.
  intros Hyx Hl. destruct l as [|z l]; simpl; [by constructor|].
  destruct (id_less x z); constructor; [done|]. by inversion Hl.
Qed.

Lemma sort_insert_sorted (x : AccountInfo) (l : list AccountInfo) :
  Sorted id_le l -> Sorted id_le (sort_insert id_less x l).
Proof.
  induction 1 as [|y l Hs IH Hd]; simpl.
  - repeat constructor.
  - destruct (id_less x y) eqn:E.
    + constructor; [by constructor|]. constructor.
      by apply string_ltb_leb.
    + constructor; [done|]. apply sort_insert_HdRel; [|done].
      by apply string_nltb_leb.
Qed.

Lemma sort_Slice_sorted (l : list AccountInfo) :
  Sorted id_le (sort_Slice id_less l).
Proof.
  unfold sort_Slice. induction l as [|x l IH]; simpl; [constructor|].
  by apply sort_insert_sorted.
Qed.

Lemma read_fs_inv {A} (f : filesys -> Result A) (w w' : World) (a : A) :
  read_fs f w = (Ok a, w') -> f (fs w) = Ok a /\ w' = w.
Proof. unfold read_fs. by intros [= -> ->]. Qed.

(** The run of a successful [ListAccounts], step by step. *)
Lemma ListAccounts_inv (w w' : World) (infos : list AccountInfo) :
  ListAccounts w = (Ok infos, w') ->
  exists root w0 entries infos0 w1 infos1,
    accountsRootDir w = (Ok root, w0)
    /\ ReadDir root (fs w0) = Ok entries
    /\ list_entries entries [] w0 = (Ok infos0, w1)
    /\ infos = sort_Slice id_less infos1
    /\ match Stat (root ++ [defaultAccountID]) (fs w1) with
       | Err e =>
         if IsNotExist e
         then exists meta, infos1 = infos0 ++ [info_of defaultAccountID meta]
         else infos1 = infos0
       | Ok _ => infos1 = infos0
       end.
Proof.
  unfold ListAccounts. intros H. io_inv H.
  apply read_fs_inv in Hstep0 as [Hrd ->].
  exists a, w0, a0, a1, w2, a2. splits; try done.
  destruct (Stat (a ++ [defaultAccountID]) (fs w2)) as [n|e].
  - by simplify_eq.
  - destruct (IsNotExist e); [|by simplify_eq].
    io_inv Hstep2. by exists a4.
Qed.


Lemma fresh_world_wf : store_wf fresh_world.
Proof. intros root c n _ Hn. cbn [fs fresh_world] in Hn. by simplify_map_eq. Qed.



End StoreFacts.

(** ** The store keeps its accounts root well formed *)

Section StoreInvariantFacts.
Import os accounts.

Lemma mkdir_walk_changes (full pre : path) (rest : list string)
    (m m' : filesys) (q : path) :
  mkdir_walk full pre rest m = Ok m' ->
  m' !! q = m !! q
  \/ (m' !! q = Some Dir /\ exists r, pre ++ rest = q ++ r).
Proof.
  revert pre m. induction rest as [|c rest IH]; intros pre m; simpl.
  - intros [= ->]. by left.
  - destruct (m !! (pre ++ [c])) as [[|d]|] eqn:E; [| done |].
    + intros [H|(H & r & Hr)]%IH; [by left|].
      right. split; [done|]. exists r. by rewrite <- Hr, <- app_assoc.
    + intros H. pose proof H as [H1 H2]%mkdir_walk_ok.
      apply IH in H as [H|(H & r & Hr)].
      * destruct (decide (pre ++ [c] = q)) as [<-|Hne].
        -- right. split; [apply H2, lookup_insert_eq|].
           exists rest. by rewrite <- app_assoc.
        -- left. by rewrite H, lookup_insert_ne.
      * right. split; [done|]. exists r. by rewrite <- Hr, <- app_assoc.
Qed.

Lemma sanitize_canonical (raw id : string) :
  sanitizeAccountID raw = Ok id -> sanitizeAccountID id = Ok id.
Proof.
  unfold sanitizeAccountID at 1.
  destruct (String.eqb_spec (strings.TrimSpace raw) "") as [|Hne].
  - intros [= <-]. by vm_compute.
  - destruct (accountIDPattern_MatchString (strings.TrimSpace raw)) eqn:Hm;
      [|done].
    intros [= <-]. rewrite <- (TrimSpace_matching _ Hm) at 2.
    apply sanitize_trimmed. by rewrite TrimSpace_matching.
Qed.

Lemma MkdirAll_wf (root d : path) (m m' : filesys) :
  safe_dir root d -> wf_at root m -> MkdirAll d m = Ok m' -> wf_at root m'.
Proof.
  intros Hs Hwf H c n Hn.
  destruct (mkdir_walk_changes _ _ _ _ _ (root ++ [c]) H)
    as [E|(E & r & Hr)].
  - rewrite E in Hn. by apply Hwf.
  - rewrite E in Hn. injection Hn as <-. split; [done|].
    by apply (Hs c r).
Qed.

Lemma keeps_refl (w : World) : keeps w w.
Proof. unfold keeps. auto. Qed.

Lemma keeps_trans (w1 w2 w3 : World) : keeps w1 w2 -> keeps w2 w3 -> keeps w1 w3.
Proof.
  intros (E1 & G1 & K1) (E2 & G2 & K2). unfold keeps.
  split; [congruence|]. split; [congruence|auto].
Qed.

Lemma keeps_root (w w' : World) : keeps w w' -> accounts_root w' = accounts_root w.
Proof. intros (E & G & _). unfold accounts_root, data_dir. by rewrite E, G. Qed.

Lemma bind_inv {A B} (c : IO A) (k : A -> IO B) (w w' : World) (r : Result B) :
  bind c k w = (r, w') ->
  (exists a w1, c w = (Ok a, w1) /\ k a w1 = (r, w'))
  \/ (exists e, c w = (Err e, w') /\ r = Err e).
Proof.
  unfold bind. destruct (c w) as [[a|e] w1]; [eauto|].
  intros [= <- <-]. eauto.
Qed.

Lemma store_wf_at (w : World) (root : path) :
  accounts_root w = Some root -> store_wf w <-> wf_at root (fs w).
Proof.
  intros Hr. split.
  - intros H c n. by apply H.
  - intros H root' c n Hr'. rewrite Hr in Hr'. injection Hr' as <-. apply H.
Qed.

Lemma set_fs_keeps (w : World) (m : filesys) (root : path) :
  accounts_root w = Some root ->
  (wf_at root (fs w) -> wf_at root m) -> keeps w (set_fs m w).
Proof.
  intros Hr H. split; [done|]. split; [done|]. intros Hwf.
  apply (store_wf_at _ root); [done|]. apply H. by apply (store_wf_at w root).
Qed.

Lemma ensure_dir_keeps (what : string) (d root : path) (w w' : World)
    (r : Result unit) :
  accounts_root w = Some root -> safe_dir root d ->
  ensure_dir what d w = (r, w') -> keeps w w'.
Proof.
  intros Hr Hs. unfold ensure_dir.
  destruct (MkdirAll d (fs w)) as [m|e] eqn:E; intros [= <- <-].
  - apply (set_fs_keeps _ _ root); [done|]. intros Hwf.
    by eapply MkdirAll_wf.
  - apply keeps_refl.
Qed.

Lemma safe_dir_above (root pre : path) (d : path) :
  root = d ++ pre -> safe_dir root d.
Proof. intros -> c r Hd. length_contra Hd. Qed.

Lemma safe_dir_below (root : path) (id : string) (rest : path) :
  sanitizeAccountID id = Ok id -> safe_dir root (root ++ id :: rest).
Proof.
  intros Hid c r Hd. rewrite <- app_assoc in Hd.
  apply app_inv_head in Hd. by injection Hd as <- _.
Qed.

Lemma baseDataDir_keeps (w w' : World) (r : Result path) :
  baseDataDir w = (r, w') -> keeps w w'.
Proof.
  unfold baseDataDir.
  destruct (env_data_dir w) as [dir|] eqn:Ee;
    [|destruct (getwd w) as [cwd|] eqn:Eg].
  - intros [(a & w1 & H1 & H2)|(e & H1 & _)]%bind_inv.
    + unfold ret in H2. injection H2 as _ <-.
      eapply (ensure_dir_keeps _ _ (dir ++ [dataDirName])); [|by eapply safe_dir_above|done].
      unfold accounts_root, data_dir. by rewrite Ee.
    + eapply (ensure_dir_keeps _ _ (dir ++ [dataDirName])); [|by eapply safe_dir_above|done].
      unfold accounts_root, data_dir. by rewrite Ee.
  - intros [(a & w1 & H1 & H2)|(e & H1 & _)]%bind_inv.
    + unfold ret in H2. injection H2 as _ <-.
      eapply (ensure_dir_keeps _ _ ((cwd ++ ["data"]) ++ [dataDirName])); [|by eapply safe_dir_above|done].
      unfold accounts_root, data_dir. by rewrite Ee, Eg.
    + eapply (ensure_dir_keeps _ _ ((cwd ++ ["data"]) ++ [dataDirName])); [|by eapply safe_dir_above|done].
      unfold accounts_root, data_dir. by rewrite Ee, Eg.
  - intros [= <- <-]. apply keeps_refl.
Qed.

Lemma accountsRootDir_keeps (w w' : World) (r : Result path) :
  accountsRootDir w = (r, w') -> keeps w w'.
Proof.
  unfold accountsRootDir.
  intros [(base & w1 & H1 & H2)|(e & H1 & _)]%bind_inv;
    [|by eapply baseDataDir_keeps].
  pose proof (baseDataDir_keeps _ _ _ H1) as K1.
  apply baseDataDir_spec in H1 as (Hd & _ & _).
  eapply keeps_trans; [done|].
  assert (Hr : accounts_root w1 = Some (base ++ [dataDirName])).
  { rewrite (keeps_root _ _ K1). unfold accounts_root. by rewrite Hd. }
  apply bind_inv in H2 as [(a & w2 & H2 & H3)|(e & H2 & _)].
  - unfold ret in H3. injection H3 as _ <-.
    eapply ensure_dir_keeps; [done| |done]. by apply (safe_dir_above _ []), eq_sym, app_nil_r.
  - eapply ensure_dir_keeps; [done| |done]. by apply (safe_dir_above _ []), eq_sym, app_nil_r.
Qed.

Lemma accountDir_keeps (raw : string) (w w' : World) (r : Result path) :
  accountDir raw w = (r, w') -> keeps w w'.
Proof.
  unfold accountDir. destruct (sanitizeAccountID raw) as [id|e] eqn:Hs.
  - intros [(root & w1 & H1 & H2)|(e & H1 & _)]%bind_inv;
      [|by eapply accountsRootDir_keeps].
    pose proof (accountsRootDir_keeps _ _ _ H1) as K1.
    apply accountsRootDir_spec in H1 as (Hr & _ & _).
    eapply keeps_trans; [done|].
    rewrite <- (keeps_root _ _ K1) in Hr.
    apply sanitize_canonical in Hs.
    apply bind_inv in H2 as [(a & w2 & H2 & H3)|(e & H2 & _)].
    + unfold ret in H3. injection H3 as _ <-.
      eapply ensure_dir_keeps; [done| |done]. by apply safe_dir_below.
    + eapply ensure_dir_keeps; [done| |done]. by apply safe_dir_below.
  - intros [= <- <-]. apply keeps_refl.
Qed.

Lemma ret_keeps {A} (a : A) (w w' : World) (r : Result A) :
  ret a w = (r, w') -> keeps w w'.
Proof. intros [= <- <-]. apply keeps_refl. Qed.

Lemma bind_keeps {A B} (c : IO A) (k : A -> IO B) (w w' : World)
    (r : Result B) :
  bind c k w = (r, w') ->
  (forall r1 w1, c w = (r1, w1) -> keeps w w1) ->
  (forall a w1, c w = (Ok a, w1) -> keeps w w1 -> k a w1 = (r, w') ->
                keeps w1 w') ->
  keeps w w'.
Proof.
  intros [(a & w1 & H1 & H2)|(e & H1 & _)]%bind_inv Hc Hk.
  - eapply keeps_trans; [by eapply Hc|]. eapply Hk; [done| |done].
    by eapply Hc.
  - by eapply Hc.
Qed.

Lemma time_Now_keeps (w w' : World) (r : Result Z) :
  time_Now w = (r, w') -> keeps w w'.
Proof.
  unfold time_Now. intros [= <- <-]. split; [done|]. split; [done|].
  intros H root c n. exact (H root c n).
Qed.

Lemma metaPath_keeps (raw : string) (w w' : World) (r : Result path) :
  metaPath raw w = (r, w') -> keeps w w'.
Proof.
  unfold metaPath. intros H. eapply bind_keeps; [done| |].
  - intros. by eapply accountDir_keeps.
  - intros; cbv beta in *; by eapply ret_keeps.
Qed.

Lemma CookiesPath_keeps (raw : string) (w w' : World) (r : Result path) :
  CookiesPath raw w = (r, w') -> keeps w w'.
Proof.
  unfold CookiesPath. intros H. eapply bind_keeps; [done| |].
  - intros. by eapply accountDir_keeps.
  - intros; cbv beta in *; by eapply ret_keeps.
Qed.

Lemma ImagesDir_keeps (raw : string) (w w' : World) (r : Result path) :
  ImagesDir raw w = (r, w') -> keeps w w'.
Proof.
  unfold ImagesDir. intros H. eapply bind_keeps; [done| |].
  - intros. by eapply accountDir_keeps.
  - intros dir w1 Hd K1 H2. cbv beta in *.
    apply accountDir_spec in Hd as (id & root & Hs & Hr & -> & _ & _).
    rewrite <- (keeps_root _ _ K1) in Hr.
    eapply bind_keeps; [done| |].
    + intros r1 w2 H3. cbv beta in *. eapply ensure_dir_keeps; [done| |done].
      rewrite <- app_assoc. apply safe_dir_below.
      by eapply sanitize_canonical.
    + intros; cbv beta in *; by eapply ret_keeps.
Qed.

Lemma WriteFile_Ok_inv (p : path) (d : FileData) (m m' : filesys) :
  WriteFile p d m = Ok m' -> m' = <[p := File d]> m.
Proof.
  unfold WriteFile. intros H. repeat case_match; by simplify_eq.
Qed.

Lemma saveAccountMeta_keeps (root : path) (id name : string)
    (meta : AccountMeta) (w w' : World) (r : Result unit) :
  accounts_root w = Some root ->
  saveAccountMeta ((root ++ [id]) ++ [name]) meta w = (r, w') -> keeps w w'.
Proof.
  intros Hr. unfold saveAccountMeta, lift_fs.
  destruct (WriteFile _ _ (fs w)) as [m|e] eqn:E; intros [= <- <-];
    [|apply keeps_refl].
  apply (set_fs_keeps _ _ root); [done|]. intros Hwf c n Hn.
  apply WriteFile_Ok_inv in E as ->.
  rewrite lookup_insert_ne in Hn; [by apply Hwf|].
  intros Hq. length_contra Hq.
Qed.

Lemma defaultAccountMeta_keeps (w w' : World) (r : Result AccountMeta) :
  defaultAccountMeta w = (r, w') -> keeps w w'.
Proof.
  unfold defaultAccountMeta. intros H. eapply bind_keeps; [done| |].
  - intros. by eapply time_Now_keeps.
  - intros; cbv beta in *; by eapply ret_keeps.
Qed.

Lemma normalizeAccountMeta_keeps (meta : AccountMeta) (w w' : World)
    (r : Result AccountMeta) :
  normalizeAccountMeta meta w = (r, w') -> keeps w w'.
Proof.
  unfold normalizeAccountMeta. intros H. eapply bind_keeps; [done| |].
  - intros r1 w1 H1. cbv beta in *. destruct (IsZero (CreatedAt meta)).
    + eapply bind_keeps; [done| |].
      * intros. by eapply time_Now_keeps.
      * intros; cbv beta in *; by eapply ret_keeps.
    + by eapply ret_keeps.
  - intros; cbv beta in *; by eapply ret_keeps.
Qed.

Lemma save_ret_keeps (root : path) (id name : string) (meta : AccountMeta)
    (w w' : World) (r : Result AccountMeta) :
  accounts_root w = Some root ->
  (saveAccountMeta ((root ++ [id]) ++ [name]) meta ;;; ret meta) w = (r, w') ->
  keeps w w'.
Proof.
  intros Hr H. eapply bind_keeps; [done| |].
  - intros. by eapply saveAccountMeta_keeps.
  - intros; cbv beta in *; by eapply ret_keeps.
Qed.

Lemma ensureMeta_keeps (raw : string) (w w' : World) (r : Result AccountMeta) :
  ensureMeta raw w = (r, w') -> keeps w w'.
Proof.
  unfold ensureMeta. intros H. eapply bind_keeps; [done| |].
  - intros. by eapply metaPath_keeps.
  - intros p w1 Hp K1 H2. cbv beta in *.
    apply metaPath_spec in Hp as (id & root & Hs & Hr & -> & _ & _).
    rewrite <- (keeps_root _ _ K1) in Hr.
    destruct (ReadFile _ (fs w1)) as [data|e].
    + destruct (json_Unmarshal data) as [meta0|e];
        [|injection H2 as _ <-; apply keeps_refl].
      eapply bind_keeps; [done| |].
      * intros. by eapply normalizeAccountMeta_keeps.
      * intros meta w2 _ K2 H3. cbv beta in *. eapply save_ret_keeps; [|done].
        by rewrite (keeps_root _ _ K2).
    + destruct (IsNotExist e); [|injection H2 as _ <-; apply keeps_refl].
      eapply bind_keeps; [done| |].
      * intros. by eapply defaultAccountMeta_keeps.
      * intros meta w2 _ K2 H3. cbv beta in *. eapply save_ret_keeps; [|done].
        by rewrite (keeps_root _ _ K2).
Qed.

Lemma EnsureAccount_keeps (raw : string) (w w' : World) (r : Result unit) :
  EnsureAccount raw w = (r, w') -> keeps w w'.
Proof.
  unfold EnsureAccount. intros H. eapply bind_keeps; [done| |].
  - intros. by eapply CookiesPath_keeps.
  - intros ? w1 _ _ H1. cbv beta in *. eapply bind_keeps; [done| |].
    + intros. by eapply ImagesDir_keeps.
    + intros ? w2 _ _ H2. cbv beta in *. eapply bind_keeps; [done| |].
      * intros. by eapply ensureMeta_keeps.
      * intros; cbv beta in *; by eapply ret_keeps.
Qed.

Lemma list_entries_keeps (entries : list DirEntry) (infos : list AccountInfo)
    (w w' : World) (r : Result (list AccountInfo)) :
  list_entries entries infos w = (r, w') -> keeps w w'.
Proof.
  revert infos w. induction entries as [|entry rest IH]; intros infos w; simpl.
  - apply ret_keeps.
  - destruct (negb (EntryIsDir entry)); [apply IH|].
    intros H. eapply bind_keeps; [done| |].
    + intros. by eapply ensureMeta_keeps.
    + intros meta w1 _ _ H1. cbv beta in *. by eapply IH.
Qed.

Lemma ListAccounts_keeps (w w' : World) (r : Result (list AccountInfo)) :
  ListAccounts w = (r, w') -> keeps w w'.
Proof.
  unfold ListAccounts. intros H. eapply bind_keeps; [done| |].
  - intros. by eapply accountsRootDir_keeps.
  - intros root w1 _ _ H1. cbv beta in *. eapply bind_keeps; [done| |].
    + unfold read_fs. intros r1 w2 [= _ <-]. apply keeps_refl.
    + intros entries w2 _ _ H2. cbv beta in *. eapply bind_keeps; [done| |].
      * intros. by eapply list_entries_keeps.
      * intros infos w3 _ _ H3. cbv beta in *. eapply bind_keeps; [done| |].
        -- intros r1 w4 H4. cbv beta in *.
           destruct (Stat _ (fs w3)) as [n|e];
             [injection H4 as _ <-; apply keeps_refl|].
           destruct (IsNotExist e);
             [|injection H4 as _ <-; apply keeps_refl].
           eapply bind_keeps; [done| |].
           ++ intros. by eapply EnsureAccount_keeps.
           ++ intros ? w5 _ _ H5. cbv beta in *. eapply bind_keeps; [done| |].
              ** intros. by eapply ensureMeta_keeps.
              ** intros; cbv beta in *; by eapply ret_keeps.
        -- intros; cbv beta in *; by eapply ret_keeps.
Qed.

Lemma SetAccountRemark_keeps (raw remark : string) (w w' : World)
    (r : Result AccountInfo) :
  SetAccountRemark raw remark w = (r, w') -> keeps w w'.
Proof.
  unfold SetAccountRemark.
  destruct (ResolveAccountID raw) as [id|e];
    [|intros [= <- <-]; apply keeps_refl].
  intros H. eapply bind_keeps; [done| |].
  - intros. by eapply EnsureAccount_keeps.
  - intros ? w1 _ _ H1. cbv beta in *. eapply bind_keeps; [done| |].
    + intros. by eapply metaPath_keeps.
    + intros p w2 Hp K2 H2. cbv beta in *.
      apply metaPath_spec in Hp as (id' & root & Hs & Hr & -> & _ & _).
      rewrite <- (keeps_root _ _ K2) in Hr.
      eapply bind_keeps; [done| |].
      * intros. by eapply ensureMeta_keeps.
      * intros meta w3 _ K3 H3. cbv beta in *. eapply bind_keeps; [done| |].
        -- intros. by eapply time_Now_keeps.
        -- intros now w4 _ K4 H4. cbv beta in *. eapply bind_keeps; [done| |].
           ++ intros r1 w5 H5. cbv beta in *. eapply saveAccountMeta_keeps; [|done].
              by rewrite (keeps_root _ _ K4), (keeps_root _ _ K3).
           ++ intros; cbv beta in *; by eapply ret_keeps.
Qed.

Lemma store_wf_empty (w : World) : fs w = ∅ -> store_wf w.
Proof. intros E root c n _. rewrite E. by rewrite lookup_empty. Qed.

(** X1.  The store keeps its accounts root well formed: whatever the outcome
    of a store operation, success or failure, the root still holds account
    directories only. *)
Theorem store_wf_preserved (w : World) :
  store_wf w ->
  (forall raw r w', EnsureAccount raw w = (r, w') -> store_wf w')
  /\ (forall r w', ListAccounts w = (r, w') -> store_wf w')
  /\ (forall raw remark r w',
        SetAccountRemark raw remark w = (r, w') -> store_wf w')
  /\ (forall raw r w', CookiesPath raw w = (r, w') -> store_wf w')
  /\ (forall raw r w', ImagesDir raw w = (r, w') -> store_wf w').
Proof.
  intros Hwf. splits.
  - intros raw r w' H. by apply (EnsureAccount_keeps _ _ _ _ H).
  - intros r w' H. by apply (ListAccounts_keeps _ _ _ H).
  - intros raw remark r w' H. by apply (SetAccountRemark_keeps _ _ _ _ _ H).
  - intros raw r w' H. by apply (CookiesPath_keeps _ _ _ _ H).
  - intros raw r w' H. by apply (ImagesDir_keeps _ _ _ _ H).
Qed.

End StoreInvariantFacts.

(** ** The state-sync primitive (claim C5) *)

Section WaitFacts.
Import xiaohongshu.

Lemma poll_Some_inv (o : EvalOutcome) (r : Outcome unit) :
  poll o = Some r ->
  (o = EvalValue (JSBool true) /\ r = Done tt)
  \/ (o = EvalError ContextCanceled /\ r = Failed ContextCanceled).
Proof.
  destruct o as [e| |[|[]|s]]; simpl; try done.
  - destruct e; simpl; try done. intros [= <-]. by right.
  - intros [= <-]. by left.
Qed.

Lemma wait_loop_timeout (n : nat) (expr : string) (pg : Page)
    (h : list Event) :
  Forall (fun o => poll o = None) (answers pg expr h n) ->
  wait_loop n expr pg h
  = (Failed ContextDeadlineExceeded,
     EvDeadline :: polled expr (answers pg expr h n) h).
Proof.
  revert h. induction n as [|n IH]; intros h; simpl; [done|].
  intros [Ho Hrest]%Forall_cons. unfold Evaluate. rewrite Ho.
  rewrite IH by done. unfold polled. simpl. by rewrite <- app_assoc.
Qed.

Lemma wait_loop_decides (n : nat) (expr : string) (pg : Page)
    (h : list Event) (before after : list EvalOutcome) (o : EvalOutcome)
    (r : Outcome unit) :
  answers pg expr h n = before ++ o :: after ->
  Forall (fun o => poll o = None) before ->
  poll o = Some r ->
  wait_loop n expr pg h = (r, polled expr (before ++ [o]) h).
Proof.
  revert h before. induction n as [|n IH]; intros h before; simpl.
  - by destruct before.
  - destruct before as [|b before]; simpl.
    + intros [= <- _] _ Ho. unfold Evaluate. by rewrite Ho.
    + intros [= <- Hrest] [Hb Hbefore]%Forall_cons Ho.
      unfold Evaluate. rewrite Hb. erewrite IH by done.
      unfold polled. simpl. by rewrite <- !app_assoc.
Qed.

(** C5.  [waitForInitialState] polls the predicate at the ticks that
    occur before its deadline.  If none of these evaluations is truthy
    (and none is cancelled) it returns the deadline error, after all of
    them.  If the first evaluation that is truthy comes after evaluations
    that were errors, nil results or falsy values only, it returns
    success right after that evaluation, without the remaining ones.  An
    evaluation error other than cancellation is not a failure of the
    wait; cancellation ends the wait at once with the cancellation
    error. *)
Theorem waitForInitialState_polls (expr : string) (timeout : Z) (pg : Page)
    (h : list Event) :
  let window := answers pg expr h (on_ticks pg h timeout) in
  (Forall (fun o => poll o = None) window ->
   waitForInitialState expr timeout pg h
   = (Failed ContextDeadlineExceeded, EvDeadline :: polled expr window h))
  /\ (forall before after v,
        window = before ++ EvalValue v :: after ->
        Forall (fun o => poll o = None) before ->
        JSValue_Bool v = true ->
        waitForInitialState expr timeout pg h
        = (Done tt, polled expr (before ++ [EvalValue v]) h))
  /\ (forall before after,
        window = before ++ EvalError ContextCanceled :: after ->
        Forall (fun o => poll o = None) before ->
        waitForInitialState expr timeout pg h
        = (Failed ContextCanceled,
           polled expr (before ++ [EvalError ContextCanceled]) h))
  /\ (forall e, e <> ContextCanceled -> poll (EvalError e) = None)
  /\ poll EvalNoResult = None
  /\ (forall v, JSValue_Bool v = false -> poll (EvalValue v) = None).
Proof.
  cbn zeta. unfold waitForInitialState. splits.
  - apply wait_loop_timeout.
  - intros before after v Hw Hb Hv. eapply wait_loop_decides; [done..|].
    destruct v as [|[]|]; done.
  - intros before after Hw Hb. by eapply wait_loop_decides.
  - intros e He. by destruct e.
  - done.
  - intros v Hv. destruct v as [|[]|]; done.
Qed.

End WaitFacts.

(** C5 on three pages: one that is never ready during the three ticks of
    its window, one that is ready at the third of five ticks, after an
    evaluation error and a falsy value, and one whose second evaluation is
    cancelled. *)
Lemma waitForInitialState_polls_witness :
  let never := demo_page [] "" 3 [] in
  let ready := demo_page [] "" 5
                 [EvalError (ErrorString "not yet"); EvalValue (JSBool false);
                  EvalValue (JSBool true)] in
  let cancelled := demo_page [] "" 5
                     [EvalNoResult; EvalError ContextCanceled] in
  xiaohongshu.waitForInitialState "ready" 30000 never []
  = (Failed ContextDeadlineExceeded,
     EvDeadline
     :: polled "ready" [EvalNoResult; EvalNoResult; EvalNoResult] [])
  /\ xiaohongshu.waitForInitialState "ready" 30000 ready []
     = (Done tt,
        polled "ready"
          ([EvalError (ErrorString "not yet"); EvalValue (JSBool false)]
           ++ [EvalValue (JSBool true)]) [])
  /\ xiaohongshu.waitForInitialState "ready" 30000 cancelled []
     = (Failed ContextCanceled,
        polled "ready" ([EvalNoResult] ++ [EvalError ContextCanceled]) []).
Proof.
  cbn zeta. split; [|split].
  - apply (proj1 (waitForInitialState_polls "ready" 30000
                    (demo_page [] "" 3 []) [])).
    vm_compute. repeat constructor.
  - apply (proj1 (proj2 (waitForInitialState_polls "ready" 30000
                           (demo_page [] "" 5
                              [EvalError (ErrorString "not yet");
                               EvalValue (JSBool false);
                               EvalValue (JSBool true)]) []))
             _ [EvalNoResult; EvalNoResult]).
    + vm_compute. reflexivity.
    + repeat constructor.
    + reflexivity.
  - apply (proj1 (proj2 (proj2 (waitForInitialState_polls "ready" 30000
                                   (demo_page [] "" 5
                                      [EvalNoResult;
                                       EvalError ContextCanceled]) [])))
             _ [EvalNoResult; EvalNoResult; EvalNoResult]).
    + vm_compute. reflexivity.
    + repeat constructor.
Defined.

(** ** The interact protocol (claims C2, C3 and C6) *)

(** Unfolds a run of the interact protocol down to the oracle. *)
Ltac run_act :=
  unfold xiaohongshu.LikeAction_perform, xiaohongshu.FavoriteAction_perform,
    xiaohongshu.toggleLike, xiaohongshu.toggleFavorite,
    xiaohongshu.performClick, xiaohongshu.try_getInteractState,
    xiaohongshu.getInteractState, xiaohongshu.preparePage,
    act_bind, Element, Click, Sleep, MustEval, MustWaitDOMStable, Navigate,
    log, act_ret, act_fail in *.


Section InteractFacts.
Import xiaohongshu.
Variable makeFeedDetailURL : string -> string -> string.
Variable json_noteDetailMap : string -> Result (gmap string (bool * bool)).

Local Abbreviation LikeAction_perform :=
  (LikeAction_perform makeFeedDetailURL json_noteDetailMap).
Local Abbreviation FavoriteAction_perform :=
  (FavoriteAction_perform makeFeedDetailURL json_noteDetailMap).
Local Abbreviation preparePage := (preparePage makeFeedDetailURL).
Local Abbreviation getInteractState := (getInteractState json_noteDetailMap).
Local Abbreviation toggleLike := (toggleLike json_noteDetailMap).
Local Abbreviation toggleFavorite := (toggleFavorite json_noteDetailMap).








Lemma preparePage_failure (sel act feed tok : string) (pg : Page)
    (h h' : list Event) (e : error) :
  preparePage act feed tok pg h = (Failed e, h') -> failure_origin sel e h'.
Proof.
  run_act. unfold failure_origin.
  repeat (case_match; simplify_eq); intros; by simplify_eq.
Qed.

Lemma try_getInteractState_not_Failed (feed : string) (pg : Page)
    (h h' : list Event) (e : error) :
  try_getInteractState json_noteDetailMap feed pg h <> (Failed e, h').
Proof.
  unfold try_getInteractState.
  by destruct (getInteractState feed pg h) as [[?|?|] ?].
Qed.

Lemma toggleLike_failure (feed act : string) (target : bool) (pg : Page)
    (h h' : list Event) (e : error) :
  toggleLike feed target act pg h = (Failed e, h') ->
  failure_origin selectorLikeButton e h'.
Proof.
  run_act. unfold failure_origin.
  repeat (case_match; simplify_eq; cbn [snd fst]); try done;
    intros; simplify_eq; try done.
Qed.

Lemma toggleFavorite_failure (feed act : string) (target : bool) (pg : Page)
    (h h' : list Event) (e : error) :
  toggleFavorite feed target act pg h = (Failed e, h') ->
  failure_origin selectorCollectButton e h'.
Proof.
  run_act. unfold failure_origin.
  repeat (case_match; simplify_eq; cbn [snd fst]); try done;
    intros; simplify_eq; try done.
Qed.

Lemma LikeAction_perform_failure (feed tok : string) (target : bool)
    (pg : Page) (h0 h : list Event) (e : error) :
  LikeAction_perform feed tok target pg h0 = (Failed e, h) ->
  failure_origin selectorLikeButton e h.
Proof.
  unfold xiaohongshu.LikeAction_perform, act_bind.
  destruct (preparePage _ feed tok pg h0) as [[[]|e'|] h1] eqn:Hp;
    [| intros [= <- <-]; by eapply preparePage_failure | done].
  destruct (try_getInteractState _ feed pg h1) as [[[[liked c]|e1]|e'|] h2]
    eqn:Hr; [| | by apply try_getInteractState_not_Failed in Hr | done].
  - unfold log, act_ret.
    destruct (target && liked); [done|].
    destruct (negb target && negb liked); [done|].
    apply toggleLike_failure.
  - unfold log. apply toggleLike_failure.
Qed.

Lemma FavoriteAction_perform_failure (feed tok : string) (target : bool)
    (pg : Page) (h0 h : list Event) (e : error) :
  FavoriteAction_perform feed tok target pg h0 = (Failed e, h) ->
  failure_origin selectorCollectButton e h.
Proof.
  unfold xiaohongshu.FavoriteAction_perform, act_bind.
  destruct (preparePage _ feed tok pg h0) as [[[]|e'|] h1] eqn:Hp;
    [| intros [= <- <-]; by eapply preparePage_failure | done].
  destruct (try_getInteractState _ feed pg h1)
    as [[[[l collected]|e1]|e'|] h2] eqn:Hr;
    [| | by apply try_getInteractState_not_Failed in Hr | done].
  - unfold log, act_ret.
    destruct (target && collected); [done|].
    destruct (negb target && negb collected); [done|].
    apply toggleFavorite_failure.
  - unfold log. apply toggleFavorite_failure.
Qed.


(** The toggle tolerates a state that is still not the target after the
    second click: it returns without error. *)
Lemma toggleLike_unconfirmed (feed act : string) (target : bool) (pg : Page)
    (h h1 h2 h3 h4 : list Event) (liked c liked2 c2 : bool) :
  performClick selectorLikeButton pg h = (Done tt, h1) ->
  getInteractState feed pg (EvSleep 3000 :: h1) = (Done (liked, c), h2) ->
  liked <> target ->
  performClick selectorLikeButton pg
    (EvLog WarnLevel ("feed " +:+ feed +:+ " " +:+ act
                      +:+ "可能未成功，状态未变化，尝试再次点击") :: h2)
  = (Done tt, h3) ->
  getInteractState feed pg (EvSleep 2000 :: h3) = (Done (liked2, c2), h4) ->
  liked2 <> target ->
  toggleLike feed target act pg h = (Done tt, h4).
Proof.
  intros Hclick Hread Hne Hclick2 Hread2 Hne2.
  unfold xiaohongshu.toggleLike, act_bind, try_getInteractState.
  rewrite Hclick. unfold Sleep at 1. rewrite Hread.
  destruct (Bool.eqb_spec liked target) as [|_]; [done|].
  unfold log at 1. rewrite Hclick2. unfold Sleep at 1. rewrite Hread2.
  by destruct (Bool.eqb_spec liked2 target).
Qed.

Lemma toggleFavorite_unconfirmed (feed act : string) (target : bool)
    (pg : Page) (h h1 h2 h3 h4 : list Event) (l collected l2 collected2 : bool) :
  performClick selectorCollectButton pg h = (Done tt, h1) ->
  getInteractState feed pg (EvSleep 3000 :: h1) = (Done (l, collected), h2) ->
  collected <> target ->
  performClick selectorCollectButton pg
    (EvLog WarnLevel ("feed " +:+ feed +:+ " " +:+ act
                      +:+ "可能未成功，状态未变化，尝试再次点击") :: h2)
  = (Done tt, h3) ->
  getInteractState feed pg (EvSleep 2000 :: h3)
  = (Done (l2, collected2), h4) ->
  collected2 <> target ->
  toggleFavorite feed target act pg h = (Done tt, h4).
Proof.
  intros Hclick Hread Hne Hclick2 Hread2 Hne2.
  unfold xiaohongshu.toggleFavorite, act_bind, try_getInteractState.
  rewrite Hclick. unfold Sleep at 1. rewrite Hread.
  destruct (Bool.eqb_spec collected target) as [|_]; [done|].
  unfold log at 1. rewrite Hclick2. unfold Sleep at 1. rewrite Hread2.
  by destruct (Bool.eqb_spec collected2 target).
Qed.

End InteractFacts.



(** ** The service layer (claims C3 and C4) *)

Section ServiceFacts.
Import xiaohongshu service.
Variable makeFeedDetailURL : string -> string -> string.
Variable json_noteDetailMap : string -> Result (gmap string (bool * bool)).

Local Abbreviation Like := (Like makeFeedDetailURL json_noteDetailMap).
Local Abbreviation Favorite :=
  (Favorite makeFeedDetailURL json_noteDetailMap).
Local Abbreviation LikeFeed :=
  (LikeFeed makeFeedDetailURL json_noteDetailMap).
Local Abbreviation FavoriteFeed :=
  (FavoriteFeed makeFeedDetailURL json_noteDetailMap).

Lemma with_page_Done {A} (acc : string) (body : Act A) (pg : Page)
    (w w' : World) (h h' : list Event) (a : A) :
  with_page acc body pg w h = (Done a, w', h') ->
  exists h1 h2, body pg h1 = (Done a, h2)
                /\ h' = EvBrowserClose :: EvPageClose :: h2.
Proof.
  unfold with_page, newBrowser, svc_bind, lift_io, NewBrowser, emit.
  repeat (case_match; simplify_eq); intros; simplify_eq; eauto.
Qed.

Lemma with_page_Failed {A} (acc : string) (body : Act A) (pg : Page)
    (w w' : World) (h h' : list Event) (e : error) :
  with_page acc body pg w h = (Failed e, w', h') ->
  fst (accounts.CookiesPath acc w) = Err e
  \/ exists h1 h2, body pg h1 = (Failed e, h2)
                   /\ h' = EvBrowserClose :: EvPageClose :: h2.
Proof.
  unfold with_page, newBrowser, svc_bind, lift_io, NewBrowser, emit.
  destruct (accounts.CookiesPath acc w) as [[p|e'] w1]; cbn [fst].
  - repeat (case_match; simplify_eq); intros; simplify_eq; right; eauto.
  - intros [= <- _ _]. by left.
Qed.

(** C3, as the sources have it.  The outcome of a like or favorite call
    is decided by account resolution, navigation and the click attempts
    alone.  If after the second click the re-read succeeds and shows a
    state that still differs from the target, the toggle returns without
    error, and the call returns a result with [Success = true]; there is
    no failure result at all: every result that the call returns has
    [Success = true].  The call fails only with the error of the account
    store, of the navigation, of the lookup of the control or of the
    click. *)
Theorem interact_unconfirmed_reports_success (acc feed tok : string)
    (pg : Page) :
  (forall act target h h1 h2 h3 h4 liked c liked2 c2,
     performClick selectorLikeButton pg h = (Done tt, h1) ->
     getInteractState json_noteDetailMap feed pg (EvSleep 3000 :: h1)
     = (Done (liked, c), h2) ->
     liked <> target ->
     performClick selectorLikeButton pg
       (EvLog WarnLevel ("feed " +:+ feed +:+ " " +:+ act
                         +:+ "可能未成功，状态未变化，尝试再次点击") :: h2)
     = (Done tt, h3) ->
     getInteractState json_noteDetailMap feed pg (EvSleep 2000 :: h3)
     = (Done (liked2, c2), h4) ->
     liked2 <> target ->
     toggleLike json_noteDetailMap feed target act pg h = (Done tt, h4))
  /\ (forall act target h h1 h2 h3 h4 l collected l2 collected2,
        performClick selectorCollectButton pg h = (Done tt, h1) ->
        getInteractState json_noteDetailMap feed pg (EvSleep 3000 :: h1)
        = (Done (l, collected), h2) ->
        collected <> target ->
        performClick selectorCollectButton pg
          (EvLog WarnLevel ("feed " +:+ feed +:+ " " +:+ act
                            +:+ "可能未成功，状态未变化，尝试再次点击") :: h2)
        = (Done tt, h3) ->
        getInteractState json_noteDetailMap feed pg (EvSleep 2000 :: h3)
        = (Done (l2, collected2), h4) ->
        collected2 <> target ->
        toggleFavorite json_noteDetailMap feed target act pg h
        = (Done tt, h4))
  /\ (forall w h w' h',
        with_page acc (Like feed tok) pg w h = (Done tt, w', h') ->
        LikeFeed acc feed tok pg w h
        = (Done (mkActionResult feed true "点赞成功或已点赞"), w', h'))
  /\ (forall w h w' h',
        with_page acc (Favorite feed tok) pg w h = (Done tt, w', h') ->
        FavoriteFeed acc feed tok pg w h
        = (Done (mkActionResult feed true "收藏成功或已收藏"), w', h'))
  /\ (forall w h w' h' res,
        LikeFeed acc feed tok pg w h = (Done res, w', h')
        \/ FavoriteFeed acc feed tok pg w h = (Done res, w', h') ->
        Success res = true)
  /\ (forall w h w' h' e,
        LikeFeed acc feed tok pg w h = (Failed e, w', h') ->
        fst (accounts.CookiesPath acc w) = Err e
        \/ exists h2, h' = EvBrowserClose :: EvPageClose :: h2
                      /\ failure_origin selectorLikeButton e h2)
  /\ (forall w h w' h' e,
        FavoriteFeed acc feed tok pg w h = (Failed e, w', h') ->
        fst (accounts.CookiesPath acc w) = Err e
        \/ exists h2, h' = EvBrowserClose :: EvPageClose :: h2
                      /\ failure_origin selectorCollectButton e h2).
Proof.
  splits.
  - intros. by eapply toggleLike_unconfirmed.
  - intros. by eapply toggleFavorite_unconfirmed.
  - intros w h w' h' H. unfold service.LikeFeed, svc_bind. by rewrite H.
  - intros w h w' h' H. unfold service.FavoriteFeed, svc_bind. by rewrite H.
  - intros w h w' h' res [H|H];
      unfold service.LikeFeed, service.FavoriteFeed, svc_bind, svc_ret in H;
      repeat (case_match; simplify_eq); done.
  - intros w h w' h' e H. unfold service.LikeFeed, svc_bind, svc_ret in H.
    destruct (with_page acc (Like feed tok) pg w h) as [[[[]|e'|] w1] h1]
      eqn:Hw; simplify_eq.
    apply with_page_Failed in Hw as [Hc|(h2 & h3 & Hb & ->)]; [by left|].
    right. exists h3. split; [done|].
    by apply LikeAction_perform_failure in Hb.
  - intros w h w' h' e H. unfold service.FavoriteFeed, svc_bind, svc_ret in H.
    destruct (with_page acc (Favorite feed tok) pg w h) as [[[[]|e'|] w1] h1]
      eqn:Hw; simplify_eq.
    apply with_page_Failed in Hw as [Hc|(h2 & h3 & Hb & ->)]; [by left|].
    right. exists h3. split; [done|].
    by apply FavoriteAction_perform_failure in Hb.
Qed.

End ServiceFacts.

(** C3 (amended) on a page whose embedded state keeps reporting
    [liked = false]: the toggle returns without error after the second
    re-read. *)
Lemma interact_unconfirmed_reports_success_witness :
  exists h4,
    xiaohongshu.toggleLike demo_json "f1" true "点赞"
      (demo_page [] "unliked" 0 []) []
    = (Done tt, h4).
Proof.
  eexists.
  refine (proj1 (interact_unconfirmed_reports_success demo_url demo_json
                   "alice" "f1" "tok" (demo_page [] "unliked" 0 []))
            "点赞" true [] _ _ _ _ false false false false _ _ _ _ _ _);
    try (vm_compute; reflexivity); discriminate.
Defined.

(** C3 as stated fails.  On a page whose embedded state keeps reporting
    [liked = false], [LikeFeed] clicks twice, re-reads the state after the
    second click -- the read succeeds and shows [liked = false], not the
    target -- and returns a result with [Success = true]. *)
Lemma LikeFeed_unconfirmed_counterexample :
  let pg := demo_page [] "unliked" 0 [] in
  let run := service.LikeFeed demo_url demo_json "alice" "f1" "tok" pg
               fresh_world [] in
  fst (fst run) = Done (xiaohongshu.mkActionResult "f1" true "点赞成功或已点赞")
  /\ clicks xiaohongshu.selectorLikeButton (snd run) = 2%nat
  /\ exists h3,
       snd run
       = EvBrowserClose :: EvPageClose
         :: EvMustEval xiaohongshu.noteDetailMapJS (Some "unliked")
         :: EvSleep 2000 :: h3
       /\ xiaohongshu.getInteractState demo_json "f1" pg (EvSleep 2000 :: h3)
          = (Done (false, false),
             EvMustEval xiaohongshu.noteDetailMapJS (Some "unliked")
             :: EvSleep 2000 :: h3).
Proof.
  cbn zeta. split; [vm_compute; reflexivity|].
  split; [vm_compute; reflexivity|].
  eexists. split; [vm_compute; reflexivity|]. vm_compute. reflexivity.
Qed.

Section PublishFacts.
Import service.

Lemma latin_narrow (r : Z) : latin r = true -> east_asian_wide r = false.
Proof.
  unfold latin, east_asian_wide. intros H. bool_lia.
  repeat (apply orb_false_iff; split); apply andb_false_iff; lia.
Qed.

Lemma cjk_wide (r : Z) : cjk r = true -> east_asian_wide r = true.
Proof.
  unfold cjk, east_asian_wide. intros H. bool_lia.
  assert (E : (19968 <=? r) && (r <=? 40959) = true)
    by (apply andb_true_iff; lia).
  rewrite E. by rewrite !orb_true_r.
Qed.

Lemma StringWidth_latin (title : string) :
  forallb latin (utf8.runes title) = true ->
  StringWidth title = Z.of_nat (length (utf8.runes title)).
Proof.
  unfold StringWidth. induction (utf8.runes title) as [|r rs IH]; [done|].
  cbn [forallb fold_right length]. intros [Hr Hrs]%andb_true_iff.
  unfold RuneWidth at 1. rewrite (latin_narrow r Hr), IH by done. lia.
Qed.

Lemma StringWidth_cjk (title : string) :
  forallb cjk (utf8.runes title) = true ->
  StringWidth title = 2 * Z.of_nat (length (utf8.runes title)).
Proof.
  unfold StringWidth. induction (utf8.runes title) as [|r rs IH]; [done|].
  cbn [forallb fold_right length]. intros [Hr Hrs]%andb_true_iff.
  unfold RuneWidth at 1. rewrite (cjk_wide r Hr), IH by done. lia.
Qed.

(** C4.  [PublishContent] checks the display width of the title before
    anything else: whatever the width function, a title wider than 40
    units makes the call fail with [TitleTooLong], with the world and the
    history untouched -- no account directory, browser or page was asked
    for -- and a title of at most 40 units passes the check.  With the
    width rule of the specification (East-Asian-wide characters count 2,
    others 1) a title of Latin letters is as wide as it is long and a
    title of CJK ideographs twice as wide: 40 Latin letters and 20 CJK
    ideographs pass, 21 CJK ideographs (width 42) fail. *)
Theorem PublishContent_title_width :
  (forall width acc req pg w h,
     40 < width (Title req) ->
     PublishContent width acc req pg w h = (Failed TitleTooLong, w, h))
  /\ (forall width acc req,
        width (Title req) <= 40 ->
        PublishContent width acc req = publish_checked acc req)
  /\ (forall title,
        forallb latin (utf8.runes title) = true ->
        StringWidth title = Z.of_nat (length (utf8.runes title)))
  /\ (forall title,
        forallb cjk (utf8.runes title) = true ->
        StringWidth title = 2 * Z.of_nat (length (utf8.runes title)))
  /\ (forall acc req,
        forallb latin (utf8.runes (Title req)) = true ->
        length (utf8.runes (Title req)) = 40%nat ->
        PublishContent StringWidth acc req = publish_checked acc req)
  /\ (forall acc req,
        forallb cjk (utf8.runes (Title req)) = true ->
        length (utf8.runes (Title req)) = 20%nat ->
        PublishContent StringWidth acc req = publish_checked acc req)
  /\ (forall acc req pg w h,
        forallb cjk (utf8.runes (Title req)) = true ->
        length (utf8.runes (Title req)) = 21%nat ->
        PublishContent StringWidth acc req pg w h
        = (Failed TitleTooLong, w, h)).
Proof.
  assert (Hfail : forall width acc req pg w h,
            40 < width (Title req) ->
            PublishContent width acc req pg w h = (Failed TitleTooLong, w, h)).
  { intros width acc req pg w h Hw. unfold PublishContent.
    by rewrite (proj2 (Z.ltb_lt _ _) Hw). }
  assert (Hpass : forall width acc req,
            width (Title req) <= 40 ->
            PublishContent width acc req = publish_checked acc req).
  { intros width acc req Hw. unfold PublishContent.
    by rewrite (proj2 (Z.ltb_ge _ _) Hw). }
  splits; try done.
  - apply StringWidth_latin.
  - apply StringWidth_cjk.
  - intros acc req Hl Hn. apply Hpass. rewrite StringWidth_latin by done. lia.
  - intros acc req Hc Hn. apply Hpass. rewrite StringWidth_cjk by done. lia.
  - intros acc req pg w h Hc Hn. apply Hfail.
    rewrite StringWidth_cjk by done. lia.
Qed.

(** C4 at concrete titles: 41 letters fail whatever the account (here
    one that does not even resolve); 40 letters and 20 ideographs pass;
    21 ideographs fail. *)
Lemma PublishContent_title_width_witness :
  let req t := mkPublishRequest t "body" ["a.png"] [] in
  let pg := demo_page [] "" 0 [] in
  PublishContent StringWidth "not valid!"
    (req "aaaaaaaaaaaaaaaaaaaaaaaaaaaaaaaaaaaaaaaaa") pg fresh_world []
  = (Failed TitleTooLong, fresh_world, [])
  /\ PublishContent StringWidth "alice"
       (req "aaaaaaaaaaaaaaaaaaaaaaaaaaaaaaaaaaaaaaaa")
     = publish_checked "alice" (req "aaaaaaaaaaaaaaaaaaaaaaaaaaaaaaaaaaaaaaaa")
  /\ PublishContent StringWidth "alice"
       (req "中中中中中中中中中中中中中中中中中中中中")
     = publish_checked "alice" (req "中中中中中中中中中中中中中中中中中中中中")
  /\ PublishContent StringWidth "alice"
       (req "中中中中中中中中中中中中中中中中中中中中中") pg fresh_world []
     = (Failed TitleTooLong, fresh_world, []).
Proof.
  cbn zeta.
  destruct PublishContent_title_width as (H1 & _ & _ & _ & H5 & H6 & H7).
  split; [apply H1; vm_compute; reflexivity|].
  split; [apply H5; vm_compute; reflexivity|].
  split; [apply H6; vm_compute; reflexivity|].
  apply H7; vm_compute; reflexivity.
Defined.

End PublishFacts.

(** ** Search filters and search (claims C7 and C10) *)

Section SearchFiltersFacts.
Import search.

Lemma has_key_sort (k : string) :
  has_key sortOptionLabels k = bool_decide (k ∈ sort_values).
Proof.
  unfold has_key, sort_values. case_bool_decide as Hk.
  - repeat (apply elem_of_cons in Hk as [->|Hk]; [done|]).
    by apply elem_of_nil in Hk.
  - destruct (sortOptionLabels !! k) as [l|] eqn:E; [|done].
    apply elem_of_list_to_map_2 in E. exfalso. apply Hk.
    repeat (apply elem_of_cons in E as [[= -> _]|E];
            [repeat constructor|]).
    by apply elem_of_nil in E.
Qed.

Lemma has_key_note_type (k : string) :
  has_key noteTypeLabels k = bool_decide (k ∈ note_type_values).
Proof.
  unfold has_key, note_type_values. case_bool_decide as Hk.
  - repeat (apply elem_of_cons in Hk as [->|Hk]; [done|]).
    by apply elem_of_nil in Hk.
  - destruct (noteTypeLabels !! k) as [l|] eqn:E; [|done].
    apply elem_of_list_to_map_2 in E. exfalso. apply Hk.
    repeat (apply elem_of_cons in E as [[= -> _]|E];
            [repeat constructor|]).
    by apply elem_of_nil in E.
Qed.

Lemma has_key_publish_time (k : string) :
  has_key publishTimeLabels k = bool_decide (k ∈ publish_time_values).
Proof.
  unfold has_key, publish_time_values. case_bool_decide as Hk.
  - repeat (apply elem_of_cons in Hk as [->|Hk]; [done|]).
    by apply elem_of_nil in Hk.
  - destruct (publishTimeLabels !! k) as [l|] eqn:E; [|done].
    apply elem_of_list_to_map_2 in E. exfalso. apply Hk.
    repeat (apply elem_of_cons in E as [[= -> _]|E];
            [repeat constructor|]).
    by apply elem_of_nil in E.
Qed.

Lemma has_key_search_scope (k : string) :
  has_key searchScopeLabels k = bool_decide (k ∈ search_scope_values).
Proof.
  unfold has_key, search_scope_values. case_bool_decide as Hk.
  - repeat (apply elem_of_cons in Hk as [->|Hk]; [done|]).
    by apply elem_of_nil in Hk.
  - destruct (searchScopeLabels !! k) as [l|] eqn:E; [|done].
    apply elem_of_list_to_map_2 in E. exfalso. apply Hk.
    repeat (apply elem_of_cons in E as [[= -> _]|E];
            [repeat constructor|]).
    by apply elem_of_nil in E.
Qed.

Lemma has_key_distance (k : string) :
  has_key distanceLabels k = bool_decide (k ∈ distance_values).
Proof.
  unfold has_key, distance_values. case_bool_decide as Hk.
  - repeat (apply elem_of_cons in Hk as [->|Hk]; [done|]).
    by apply elem_of_nil in Hk.
  - destruct (distanceLabels !! k) as [l|] eqn:E; [|done].
    apply elem_of_list_to_map_2 in E. exfalso. apply Hk.
    repeat (apply elem_of_cons in E as [[= -> _]|E];
            [repeat constructor|]).
    by apply elem_of_nil in E.
Qed.

Lemma NewSearchFilters_unfold (sort noteType publishTime searchScope
    distance : string) :
  NewSearchFilters sort noteType publishTime searchScope distance =
  let s := or_default "comprehensive" sort in
  let n := or_default "all" noteType in
  let p := or_default "all" publishTime in
  let c := or_default "all" searchScope in
  let d := or_default "all" distance in
  if negb (bool_decide (s ∈ sort_values)) then
    Err (ErrorString ("invalid sort option: " +:+ s))
  else if negb (bool_decide (n ∈ note_type_values)) then
    Err (ErrorString ("invalid note_type option: " +:+ n))
  else if negb (bool_decide (p ∈ publish_time_values)) then
    Err (ErrorString ("invalid publish_time option: " +:+ p))
  else if negb (bool_decide (c ∈ search_scope_values)) then
    Err (ErrorString ("invalid search_scope option: " +:+ c))
  else if negb (bool_decide (d ∈ distance_values)) then
    Err (ErrorString ("invalid distance option: " +:+ d))
  else Ok (mkSearchFilters s n p c d).
Proof.
  unfold NewSearchFilters. cbn zeta.
  by rewrite has_key_sort, has_key_note_type, has_key_publish_time,
    has_key_search_scope, has_key_distance.
Qed.

(** C7.  [NewSearchFilters] resolves every omitted (empty) field to its
    default -- [comprehensive] sort, [all] note type, publish time, scope
    and distance -- and succeeds, with the resolved values, exactly when
    each of them lies in the enumeration of its field.  Otherwise it fails
    with an error that names the first field, in the order sort,
    note_type, publish_time, search_scope, distance, whose value is not
    recognized, and that value. *)
Theorem NewSearchFilters_validates (sort noteType publishTime searchScope
    distance : string) :
  let s := or_default "comprehensive" sort in
  let n := or_default "all" noteType in
  let p := or_default "all" publishTime in
  let c := or_default "all" searchScope in
  let d := or_default "all" distance in
  let result :=
    NewSearchFilters sort noteType publishTime searchScope distance in
  NewSearchFilters "" "" "" "" ""
  = Ok (mkSearchFilters "comprehensive" "all" "all" "all" "all")
  /\ (s ∈ sort_values /\ n ∈ note_type_values /\ p ∈ publish_time_values
      /\ c ∈ search_scope_values /\ d ∈ distance_values
      <-> result = Ok (mkSearchFilters s n p c d))
  /\ (forall f, result = Ok f -> f = mkSearchFilters s n p c d)
  /\ (s ∉ sort_values ->
      result = Err (ErrorString ("invalid sort option: " +:+ s)))
  /\ (s ∈ sort_values -> n ∉ note_type_values ->
      result = Err (ErrorString ("invalid note_type option: " +:+ n)))
  /\ (s ∈ sort_values -> n ∈ note_type_values -> p ∉ publish_time_values ->
      result = Err (ErrorString ("invalid publish_time option: " +:+ p)))
  /\ (s ∈ sort_values -> n ∈ note_type_values -> p ∈ publish_time_values ->
      c ∉ search_scope_values ->
      result = Err (ErrorString ("invalid search_scope option: " +:+ c)))
  /\ (s ∈ sort_values -> n ∈ note_type_values -> p ∈ publish_time_values ->
      c ∈ search_scope_values -> d ∉ distance_values ->
      result = Err (ErrorString ("invalid distance option: " +:+ d))).
Proof.
  cbn zeta. split; [vm_compute; reflexivity|].
  rewrite NewSearchFilters_unfold. cbn zeta.
  repeat case_bool_decide; cbn [negb]; splits; try done;
    try (split; [by intros (? & ? & ? & ? & ?) | done]);
    intros; by simplify_eq.
Qed.

(** C7 at concrete arguments: a request that names only the sort order,
    and requests with an unrecognized value. *)
Lemma NewSearchFilters_validates_witness :
  NewSearchFilters "latest" "" "" "" ""
  = Ok (mkSearchFilters "latest" "all" "all" "all" "all")
  /\ NewSearchFilters "newest" "" "" "" ""
     = Err (ErrorString "invalid sort option: newest")
  /\ NewSearchFilters "latest" "audio" "" "" "far"
     = Err (ErrorString "invalid note_type option: audio")
  /\ NewSearchFilters "" "video" "day" "seen" "far"
     = Err (ErrorString "invalid distance option: far").
Proof.
  split.
  { apply (proj1 (proj1 (proj2
      (NewSearchFilters_validates "latest" "" "" "" "")))).
    repeat split; apply (bool_decide_unpack _); vm_compute; exact I. }
  split.
  { apply (proj1 (proj2 (proj2 (proj2
      (NewSearchFilters_validates "newest" "" "" "" ""))))).
    apply (bool_decide_eq_false_1 _). vm_compute. reflexivity. }
  split.
  { apply (proj1 (proj2 (proj2 (proj2 (proj2
      (NewSearchFilters_validates "latest" "audio" "" "" "far")))))).
    - apply (bool_decide_unpack _); vm_compute; exact I.
    - apply (bool_decide_eq_false_1 _). vm_compute. reflexivity. }
  apply (proj2 (proj2 (proj2 (proj2 (proj2 (proj2 (proj2
    (NewSearchFilters_validates "" "video" "day" "seen" "far")))))))).
  1-4: apply (bool_decide_unpack _); vm_compute; exact I.
  apply (bool_decide_eq_false_1 _). vm_compute. reflexivity.
Defined.

End SearchFiltersFacts.

Section SearchFacts.
Import xiaohongshu search.
Variable Feed : Type.
Variable json_searchFeeds : string -> Result (list Feed).
Variable url_QueryEscape : string -> string.

Local Abbreviation Search := (Search Feed json_searchFeeds url_QueryEscape).




End SearchFacts.


(** ** Account identifiers as directory names *)

Section ByteFacts.
Import utf8 strings accounts.

Lemma byte_of_range (a : ascii) : 0 <= byte_of a < 256.
Proof.
  unfold byte_of. pose proof (N_ascii_bounded a). lia.
Qed.

Lemma lor_lower (x y : Z) : 0 <= x -> 0 <= y -> x <= Z.lor x y.
Proof.
  intros Hx Hy. pose proof (Zbitwise.Z.add_lor_land x y) as E.
  pose proof (Zbitwise.Z.sub_land_same_l y x) as E2.
  assert (0 <= Z.land y (Z.lnot x)) by (apply Z.land_nonneg; lia).
  rewrite (Z.land_comm y x) in E2. lia.
Qed.

Lemma lor_lower_r (x y : Z) : 0 <= x -> 0 <= y -> y <= Z.lor x y.
Proof. intros. rewrite Z.lor_comm. by apply lor_lower. Qed.

Ltac lor_bounds :=
  repeat match goal with
  | H : context [Z.lor ?x ?y] |- _ =>
    let v := fresh "v" in
    let E := fresh "E" in
    assert (0 <= x) by (try apply Z.lor_nonneg; try split; try apply Z.mul_nonneg_nonneg;
                        try apply Z.mod_pos_bound; lia);
    assert (0 <= y) by (try apply Z.lor_nonneg; try split; try apply Z.mul_nonneg_nonneg;
                        try apply Z.mod_pos_bound; lia);
    pose proof (lor_lower x y ltac:(assumption) ltac:(assumption));
    pose proof (lor_lower_r x y ltac:(assumption) ltac:(assumption));
    remember (Z.lor x y) as v eqn:E; clear E
  end.

Lemma land_mask_low (x : Z) (n : Z) :
  0 <= n -> Z.land x (Z.ones n) = x mod 2 ^ n.
Proof. intros. by apply Z.land_ones. Qed.

(** A rune below [RuneSelf] is decoded from a single byte, itself. *)
Lemma decode_ascii (a : ascii) (t : string) :
  fst (DecodeRuneInString (String a t)) < 0x80 ->
  DecodeRuneInString (String a t) = (byte_of a, 1%nat).
Proof.
  unfold DecodeRuneInString, first, acceptRanges, mask2, mask3, mask4, maskx,
    locb, hicb, RuneError.
  pose proof (byte_of_range a) as Ha. revert Ha.
  generalize (byte_of a). intros s0 Hs0.
  change 0x1F with (Z.ones 5). change 0x0F with (Z.ones 4).
  change 0x07 with (Z.ones 3). change 0x3F with (Z.ones 6).
  repeat (case_match; simplify_eq; try done); cbn [fst]; try lia;
    intros Hlt; exfalso; bool_lia.
  all: repeat match goal with
       | H : context [byte_of ?b] |- _ =>
         pose proof (byte_of_range b); revert H; generalize dependent (byte_of b);
         intros
       end.
  all: rewrite ?Z.land_ones in Hlt by lia.
  all: rewrite ?Z.shiftl_mul_pow2 in Hlt by lia.
  all: try (lor_bounds; Z.div_mod_to_equations; lia).
Qed.

Lemma idClass_ascii (r : Z) : idClass r = true -> r < 0x80.
Proof. unfold idClass. intros H. bool_lia. intuition lia. Qed.

(** An identifier that matches the pattern consists of bytes of the class:
    each of its runes is one byte. *)
Lemma matching_bytes (s : string) :
  forallb idClass (runes s) = true ->
  Forall (fun a => idClass (byte_of a) = true) (bytes s).
Proof.
  unfold runes, bytes. induction s as [|a t IH]; [constructor|].
  rewrite chunks_cons. cbn [map forallb fst list_ascii_of_string].
  intros [Hr Hl]%andb_true_iff.
  pose proof (decode_ascii a t (idClass_ascii _ Hr)) as E.
  rewrite E in Hr, Hl. cbn [fst snd] in Hr, Hl.
  change (1 - 1)%nat with 0%nat in Hl. cbn [string_drop] in Hl.
  constructor; auto.
Qed.

(** X2.  The identifier that [sanitizeAccountID] returns is safe as the name of
    a directory: it is not empty, each of its bytes is a letter, a digit,
    [_] or [-] (so none is a path separator or a dot), and it is canonical:
    sanitizing it again returns it unchanged. *)
Theorem sanitizeAccountID_safe (raw id : string) :
  sanitizeAccountID raw = Ok id ->
  id <> ""
  /\ Forall (fun a => idClass (byte_of a) = true) (bytes id)
  /\ (forall a, a ∈ bytes id ->
        a <> "/"%char /\ a <> "092"%char /\ a <> "."%char /\ a <> " "%char)
  /\ sanitizeAccountID id = Ok id.
Proof.
  intros H.
  assert (Hm : accountIDPattern_MatchString id = true).
  { unfold sanitizeAccountID in H.
    destruct (String.eqb_spec (TrimSpace raw) "").
    - injection H as <-. reflexivity.
    - destruct (accountIDPattern_MatchString (TrimSpace raw)) eqn:Hm; [|done].
      by injection H as <-. }
  pose proof (MatchString_runes _ Hm) as [_ Hr].
  apply matching_bytes in Hr.
  splits.
  - by apply MatchString_nonempty.
  - done.
  - intros a Ha. rewrite Forall_forall in Hr. specialize (Hr a Ha).
    splits; intros ->; by vm_compute in Hr.
  - rewrite <- (TrimSpace_matching _ Hm) at 2.
    apply sanitize_trimmed. by rewrite TrimSpace_matching.
Qed.

Lemma sanitizeAccountID_safe_witness :
  "shop_01" <> ""
  /\ Forall (fun a => idClass (byte_of a) = true) (bytes "shop_01")
  /\ (forall a, a ∈ bytes "shop_01" ->
        a <> "/"%char /\ a <> "092"%char /\ a <> "."%char /\ a <> " "%char)
  /\ sanitizeAccountID "shop_01" = Ok "shop_01".
Proof. apply (sanitizeAccountID_safe "  shop_01 "). vm_compute. reflexivity. Defined.

End ByteFacts.

(** ** Steps of the store under a preorder on worlds *)

Section Steps.
Variable R : World -> World -> Prop.
Hypothesis R_refl : forall w, R w w.
Hypothesis R_trans : forall w1 w2 w3, R w1 w2 -> R w2 w3 -> R w1 w3.

Lemma ret_step {A} (a : A) (w w' : World) (r : Result A) :
  ret a w = (r, w') -> R w w'.
Proof using R_refl. by intros [= <- <-]. Qed.

Lemma fail_step {A} (e : error) (w w' : World) (r : Result A) :
  fail e w = (r, w') -> R w w'.
Proof using R_refl. by intros [= <- <-]. Qed.

Lemma bind_step {A B} (c : IO A) (k : A -> IO B) (w w' : World)
    (r : Result B) :
  bind c k w = (r, w') ->
  (forall r1 w1, c w = (r1, w1) -> R w w1) ->
  (forall a w1, c w = (Ok a, w1) -> R w w1 -> k a w1 = (r, w') -> R w1 w') ->
  R w w'.
Proof using R_trans.
  intros [(a & w1 & H1 & H2)|(e & H1 & _)]%bind_inv Hc Hk.
  - eapply R_trans; [by eapply Hc|]. eapply Hk; [done| |done].
    by eapply Hc.
  - by eapply Hc.
Qed.

End Steps.

(** One step of a run: a sequence splits into its two parts, and a part
    that changes nothing is done. *)
Ltac step R_refl R_trans :=
  match goal with
  | H : bind _ _ _ = (_, _) |- _ =>
    eapply (bind_step _ R_trans); [exact H | clear H | clear H]
  | H : ret _ _ = (_, _) |- _ => exact (ret_step _ R_refl _ _ _ _ H)
  | H : fail _ _ = (_, _) |- _ => exact (fail_step _ R_refl _ _ _ _ H)
  end.

(** ** The store never destroys anything *)

Section PersistFacts.
Import os accounts.

Lemma persists_refl (w : World) : persists w w.
Proof. intros q n H. by left. Qed.

Lemma persists_trans (w1 w2 w3 : World) :
  persists w1 w2 -> persists w2 w3 -> persists w1 w3.
Proof.
  intros H12 H23 q n Hq.
  destruct (H12 q n Hq) as [H|(dir & d & m & -> & -> & H)].
  - apply (H23 q n H).
  - destruct (H23 _ _ H) as [H'|(dir' & d' & m' & _ & _ & H')];
      right; by eauto 10.
Qed.

Lemma mkdir_walk_mono (full pre : path) (rest : list string)
    (m m' : filesys) (q : path) (n : node) :
  mkdir_walk full pre rest m = Ok m' -> m !! q = Some n -> m' !! q = Some n.
Proof.
  revert pre m. induction rest as [|c rest IH]; intros pre m; simpl.
  - by intros [= ->].
  - destruct (m !! (pre ++ [c])) as [[|d]|] eqn:E; [| done |].
    + apply IH.
    + intros H Hq. eapply IH; [done|].
      rewrite lookup_insert_ne; [done|]. intros <-. congruence.
Qed.

Lemma extends_refl (w : World) : extends w w.
Proof. by intros q n H. Qed.

Lemma extends_trans (w1 w2 w3 : World) :
  extends w1 w2 -> extends w2 w3 -> extends w1 w3.
Proof. intros H12 H23 q n Hq. by apply H23, H12. Qed.

Lemma extends_persists (w w' : World) : extends w w' -> persists w w'.
Proof. intros H q n Hq. left. by apply H. Qed.

Ltac pstep := step persists_refl persists_trans.
Ltac estep := step extends_refl extends_trans.

Lemma ensure_dir_extends (what : string) (d : path) (w w' : World)
    (r : Result unit) :
  ensure_dir what d w = (r, w') -> extends w w'.
Proof.
  unfold ensure_dir.
  destruct (MkdirAll d (fs w)) as [m|e] eqn:E; intros [= <- <-];
    [|apply extends_refl].
  intros q n. by eapply mkdir_walk_mono.
Qed.

Lemma baseDataDir_extends (w w' : World) (r : Result path) :
  baseDataDir w = (r, w') -> extends w w'.
Proof.
  unfold baseDataDir.
  destruct (env_data_dir w) as [dir|]; [|destruct (getwd w) as [cwd|]].
  - intros H. estep; intros; cbv beta in *; [by eapply ensure_dir_extends|estep].
  - intros H. estep; intros; cbv beta in *; [by eapply ensure_dir_extends|estep].
  - intros [= <- <-]. apply extends_refl.
Qed.

Lemma accountsRootDir_extends (w w' : World) (r : Result path) :
  accountsRootDir w = (r, w') -> extends w w'.
Proof.
  unfold accountsRootDir. intros H.
  estep; intros; cbv beta in *; [by eapply baseDataDir_extends|].
  estep; intros; cbv beta in *; [by eapply ensure_dir_extends|estep].
Qed.

Lemma accountDir_extends (raw : string) (w w' : World) (r : Result path) :
  accountDir raw w = (r, w') -> extends w w'.
Proof.
  unfold accountDir. destruct (sanitizeAccountID raw) as [id|e]; intros H;
    [|estep].
  estep; intros; cbv beta in *; [by eapply accountsRootDir_extends|].
  estep; intros; cbv beta in *; [by eapply ensure_dir_extends|estep].
Qed.

Lemma metaPath_extends (raw : string) (w w' : World) (r : Result path) :
  metaPath raw w = (r, w') -> extends w w'.
Proof.
  unfold metaPath. intros H.
  estep; intros; cbv beta in *; [by eapply accountDir_extends|estep].
Qed.

Lemma CookiesPath_extends (raw : string) (w w' : World) (r : Result path) :
  CookiesPath raw w = (r, w') -> extends w w'.
Proof.
  unfold CookiesPath. intros H.
  estep; intros; cbv beta in *; [by eapply accountDir_extends|estep].
Qed.

Lemma ImagesDir_extends (raw : string) (w w' : World) (r : Result path) :
  ImagesDir raw w = (r, w') -> extends w w'.
Proof.
  unfold ImagesDir. intros H.
  estep; intros; cbv beta in *; [by eapply accountDir_extends|].
  estep; intros; cbv beta in *; [by eapply ensure_dir_extends|estep].
Qed.

Lemma time_Now_extends (w w' : World) (r : Result Z) :
  time_Now w = (r, w') -> extends w w'.
Proof. unfold time_Now. intros [= <- <-]. by intros q n H. Qed.

Lemma accountsRootDir_persists (w w' : World) (r : Result path) :
  accountsRootDir w = (r, w') -> persists w w'.
Proof. intros H. by eapply extends_persists, accountsRootDir_extends. Qed.

Lemma metaPath_persists (raw : string) (w w' : World) (r : Result path) :
  metaPath raw w = (r, w') -> persists w w'.
Proof. intros H. by eapply extends_persists, metaPath_extends. Qed.

Lemma CookiesPath_persists (raw : string) (w w' : World) (r : Result path) :
  CookiesPath raw w = (r, w') -> persists w w'.
Proof. intros H. by eapply extends_persists, CookiesPath_extends. Qed.

Lemma ImagesDir_persists (raw : string) (w w' : World) (r : Result path) :
  ImagesDir raw w = (r, w') -> persists w w'.
Proof. intros H. by eapply extends_persists, ImagesDir_extends. Qed.

Lemma time_Now_persists (w w' : World) (r : Result Z) :
  time_Now w = (r, w') -> persists w w'.
Proof. intros H. by eapply extends_persists, time_Now_extends. Qed.

Lemma defaultAccountMeta_persists (w w' : World) (r : Result AccountMeta) :
  defaultAccountMeta w = (r, w') -> persists w w'.
Proof.
  unfold defaultAccountMeta. intros H.
  pstep; intros; cbv beta in *; [by eapply time_Now_persists|pstep].
Qed.

Lemma normalizeAccountMeta_persists (meta : AccountMeta) (w w' : World)
    (r : Result AccountMeta) :
  normalizeAccountMeta meta w = (r, w') -> persists w w'.
Proof.
  unfold normalizeAccountMeta. intros H.
  pstep; intros; cbv beta in *; [|pstep].
  destruct (IsZero (CreatedAt meta)); [|pstep].
  pstep; intros; cbv beta in *; [by eapply time_Now_persists|pstep].
Qed.

Lemma saveAccountMeta_persists (dir : path) (meta : AccountMeta)
    (w w' : World) (r : Result unit) :
  saveAccountMeta (dir ++ [metaFileName]) meta w = (r, w') -> persists w w'.
Proof.
  unfold saveAccountMeta, lift_fs.
  destruct (WriteFile _ _ (fs w)) as [m|e] eqn:E; intros [= <- <-];
    [|apply persists_refl].
  intros q n Hq. cbn [fs set_fs].
  pose proof E as ->%WriteFile_Ok_inv.
  destruct (decide (q = dir ++ [metaFileName])) as [->|Hne].
  - right. unfold WriteFile in E. rewrite Hq in E.
    destruct n as [|d]; [repeat case_match; by simplify_eq|].
    eexists dir, d, _. split; [done|]. split; [done|].
    by rewrite lookup_insert_eq.
  - left. by rewrite lookup_insert_ne.
Qed.

Lemma ensureMeta_persists (raw : string) (w w' : World)
    (r : Result AccountMeta) :
  ensureMeta raw w = (r, w') -> persists w w'.
Proof.
  unfold ensureMeta. intros H.
  pstep; [intros; by eapply metaPath_persists|].
  intros p w1 Hp _ H. cbv beta in H.
  apply metaPath_spec in Hp as (id & root & _ & _ & -> & _ & _).
  destruct (ReadFile _ (fs w1)) as [data|e].
  - destruct (json_Unmarshal data) as [meta0|e];
      [|injection H as _ <-; apply persists_refl].
    pstep; intros; cbv beta in *; [by eapply normalizeAccountMeta_persists|].
    pstep; intros; cbv beta in *; [by eapply saveAccountMeta_persists|pstep].
  - destruct (IsNotExist e); [|injection H as _ <-; apply persists_refl].
    pstep; intros; cbv beta in *; [by eapply defaultAccountMeta_persists|].
    pstep; intros; cbv beta in *; [by eapply saveAccountMeta_persists|pstep].
Qed.

Lemma EnsureAccount_persists (raw : string) (w w' : World) (r : Result unit) :
  EnsureAccount raw w = (r, w') -> persists w w'.
Proof.
  unfold EnsureAccount. intros H.
  pstep; intros; cbv beta in *; [by eapply CookiesPath_persists|].
  pstep; intros; cbv beta in *; [by eapply ImagesDir_persists|].
  pstep; intros; cbv beta in *; [by eapply ensureMeta_persists|pstep].
Qed.

Lemma list_entries_persists (entries : list DirEntry)
    (infos : list AccountInfo) (w w' : World)
    (r : Result (list AccountInfo)) :
  list_entries entries infos w = (r, w') -> persists w w'.
Proof.
  revert infos w. induction entries as [|entry rest IH]; intros infos w; simpl.
  - intros H. pstep.
  - destruct (negb (EntryIsDir entry)); [apply IH|]. intros H.
    pstep; intros; cbv beta in *; [by eapply ensureMeta_persists|by eapply IH].
Qed.

Lemma ListAccounts_persists (w w' : World) (r : Result (list AccountInfo)) :
  ListAccounts w = (r, w') -> persists w w'.
Proof.
  unfold ListAccounts. intros H.
  pstep; intros; cbv beta in *; [by eapply accountsRootDir_persists|].
  pstep; intros; cbv beta in *.
  { unfold read_fs in *. simplify_eq. apply persists_refl. }
  pstep; intros; cbv beta in *; [by eapply list_entries_persists|].
  pstep; intros; cbv beta in *; [|pstep].
  destruct (Stat _ (fs _)) as [n|e];
    [simplify_eq; apply persists_refl|].
  destruct (IsNotExist e); [|simplify_eq; apply persists_refl].
  pstep; intros; cbv beta in *; [by eapply EnsureAccount_persists|].
  pstep; intros; cbv beta in *; [by eapply ensureMeta_persists|pstep].
Qed.

Lemma SetAccountRemark_persists (raw remark : string) (w w' : World)
    (r : Result AccountInfo) :
  SetAccountRemark raw remark w = (r, w') -> persists w w'.
Proof.
  unfold SetAccountRemark.
  destruct (ResolveAccountID raw) as [id|e]; intros H; [|pstep].
  pstep; intros; cbv beta in *; [by eapply EnsureAccount_persists|].
  pstep; [intros; by eapply metaPath_persists|].
  intros p w2 Hp _ Hk. cbv beta in Hk.
  apply metaPath_spec in Hp as (id' & root & _ & _ & -> & _ & _).
  pstep; intros; cbv beta in *; [by eapply ensureMeta_persists|].
  pstep; intros; cbv beta in *; [by eapply time_Now_persists|].
  pstep; intros; cbv beta in *; [by eapply saveAccountMeta_persists|pstep].
Qed.

Lemma persists_nothing_lost (w w' : World) :
  persists w w' -> nothing_lost w w'.
Proof.
  intros H. unfold nothing_lost. splits.
  - intros q Hq. by destruct (H q _ Hq) as [?|(? & ? & ? & _ & ? & _)].
  - intros q n Hq.
    destruct (H q _ Hq) as [->|(? & ? & ? & _ & _ & ->)]; by eexists.
  - intros q d Hq Hl.
    destruct (H q _ Hq) as [?|(dir & ? & ? & -> & _ & _)]; [done|].
    by rewrite last_snoc in Hl.
Qed.

(** X3.  The account store never deletes an entry of the file system, never
    replaces a directory, and writes to no existing file other than a
    [meta.json]: whatever the outcome of [EnsureAccount], [ListAccounts],
    [SetAccountRemark], [CookiesPath] or [ImagesDir], every entry that was
    there is still there, and every file that is not named [meta.json] (a
    cookie bundle, an image) has the content it had. *)
Theorem store_never_destroys :
  (forall raw w r w', EnsureAccount raw w = (r, w') -> nothing_lost w w')
  /\ (forall w r w', ListAccounts w = (r, w') -> nothing_lost w w')
  /\ (forall raw remark w r w',
        SetAccountRemark raw remark w = (r, w') -> nothing_lost w w')
  /\ (forall raw w r w', CookiesPath raw w = (r, w') -> nothing_lost w w')
  /\ (forall raw w r w', ImagesDir raw w = (r, w') -> nothing_lost w w').
Proof.
  splits; intros; apply persists_nothing_lost.
  - by eapply EnsureAccount_persists.
  - by eapply ListAccounts_persists.
  - by eapply SetAccountRemark_persists.
  - by eapply CookiesPath_persists.
  - by eapply ImagesDir_persists.
Qed.

End PersistFacts.

(** ** Remarks *)

Section RemarkFacts.
Import os accounts.

Lemma normalizeAccountMeta_times (meta meta' : AccountMeta) (w w' : World) :
  normalizeAccountMeta meta w = (Ok meta', w') ->
  Remark meta' = Remark meta
  /\ (CreatedAt meta <> 0 -> CreatedAt meta' = CreatedAt meta)
  /\ (UpdatedAt meta <> 0 -> UpdatedAt meta' = UpdatedAt meta).
Proof.
  unfold normalizeAccountMeta, IsZero. intros H. io_inv H.
  destruct (CreatedAt meta =? 0) eqn:Ec.
  - io_inv Hstep. cbn [Remark CreatedAt UpdatedAt].
    destruct (UpdatedAt meta =? 0) eqn:Eu; cbn [Remark CreatedAt UpdatedAt];
      splits; try done; intros; by bool_lia.
  - io_inv Hstep.
    destruct (UpdatedAt a =? 0) eqn:Eu; cbn [Remark CreatedAt UpdatedAt];
      splits; try done; intros; by bool_lia.
Qed.

Lemma stored_meta_lookup (w : World) (id : string) (root : path)
    (meta : AccountMeta) :
  accounts_root w = Some root ->
  stored_meta w id = Some meta <->
  fs w !! (root ++ [id; metaFileName]) = Some (File (MetaJSON meta)).
Proof.
  intros Hr. unfold stored_meta. rewrite Hr.
  destruct (fs w !! _) as [[|[m|b]]|]; split; intros H; by simplify_eq.
Qed.

(** [ensureMeta] on an account with stored metadata returns what is
    stored, with the time stamps that are set left as they are. *)
Lemma ensureMeta_stored (raw id : string) (w w' : World)
    (old meta : AccountMeta) :
  sanitizeAccountID raw = Ok id -> stored_meta w id = Some old ->
  ensureMeta raw w = (Ok meta, w') ->
  Remark meta = Remark old
  /\ (CreatedAt old <> 0 -> CreatedAt meta = CreatedAt old)
  /\ (UpdatedAt old <> 0 -> UpdatedAt meta = UpdatedAt old).
Proof.
  intros Hs Hold H. unfold ensureMeta in H. io_inv H.
  pose proof (metaPath_extends _ _ _ _ Hstep) as Hext.
  apply metaPath_spec in Hstep as (id' & root & Hs' & Hr & -> & G & A).
  rewrite Hs in Hs'. injection Hs' as <-.
  apply (stored_meta_lookup _ _ root) in Hold; [|done].
  apply Hext in Hold. rewrite <- app_snoc2 in Hold.
  rewrite ReadFile_entry, Hold in H by done. cbn [json_Unmarshal] in H.
  io_inv H. by apply normalizeAccountMeta_times in Hstep.
Qed.

Lemma ensureMeta_stores (raw : string) (w w' : World) (meta : AccountMeta) :
  ensureMeta raw w = (Ok meta, w') ->
  exists id, sanitizeAccountID raw = Ok id
             /\ stored_meta w' id = Some (trimmed_meta meta)
             /\ CreatedAt meta <> 0 /\ UpdatedAt meta <> 0.
Proof.
  intros H. apply ensureMeta_spec in H
    as (id & root & Hs & Hr & G & A & Hf & Hc & Hu).
  exists id. splits; try done.
  apply (stored_meta_lookup _ _ root); [|done].
  by rewrite (grows_accounts_root _ _ G).
Qed.

Lemma grows_clock (w w' : World) : grows w w' -> clock w' = clock w.
Proof. by intros (_ & _ & ? & _). Qed.

Lemma saveAccountMeta_reads (p : path) (meta : AccountMeta) (w w' : World)
    (r : Result unit) :
  saveAccountMeta p meta w = (r, w') -> clock_reads w' = clock_reads w.
Proof.
  unfold saveAccountMeta, lift_fs.
  destruct (WriteFile _ _ _); by intros [= <- <-].
Qed.

Lemma later_refl (w : World) : later w w.
Proof. unfold later. lia. Qed.

Lemma later_trans (w1 w2 w3 : World) : later w1 w2 -> later w2 w3 -> later w1 w3.
Proof. unfold later. lia. Qed.

Ltac lstep := step later_refl later_trans.

Lemma ensure_dir_later (what : string) (d : path) (w w' : World)
    (r : Result unit) :
  ensure_dir what d w = (r, w') -> later w w'.
Proof.
  unfold ensure_dir, later.
  destruct (MkdirAll d (fs w)); by intros [= <- <-].
Qed.

Lemma accountDir_later (raw : string) (w w' : World) (r : Result path) :
  accountDir raw w = (r, w') -> later w w'.
Proof.
  unfold accountDir. destruct (sanitizeAccountID raw) as [id|e]; intros H;
    [|lstep].
  lstep; intros; cbv beta in *; [|lstep; intros; cbv beta in *;
                                   [by eapply ensure_dir_later|lstep]].
  unfold accountsRootDir in *.
  lstep; intros; cbv beta in *;
    [|lstep; intros; cbv beta in *; [by eapply ensure_dir_later|lstep]].
  unfold baseDataDir in *.
  destruct (env_data_dir w) as [dir|]; [|destruct (getwd w) as [cwd|]].
  - lstep; intros; cbv beta in *; [by eapply ensure_dir_later|lstep].
  - lstep; intros; cbv beta in *; [by eapply ensure_dir_later|lstep].
  - simplify_eq. apply later_refl.
Qed.

Lemma metaPath_later (raw : string) (w w' : World) (r : Result path) :
  metaPath raw w = (r, w') -> later w w'.
Proof.
  unfold metaPath. intros H.
  lstep; intros; cbv beta in *; [by eapply accountDir_later|lstep].
Qed.

Lemma time_Now_later (w w' : World) (r : Result Z) :
  time_Now w = (r, w') -> later w w'.
Proof. unfold time_Now, later. intros [= <- <-]. cbn. lia. Qed.

Lemma saveAccountMeta_later (p : path) (meta : AccountMeta) (w w' : World)
    (r : Result unit) :
  saveAccountMeta p meta w = (r, w') -> later w w'.
Proof.
  intros H. unfold later. by rewrite (saveAccountMeta_reads _ _ _ _ _ H).
Qed.

Lemma ensureMeta_later (raw : string) (w w' : World) (r : Result AccountMeta) :
  ensureMeta raw w = (r, w') -> later w w'.
Proof.
  unfold ensureMeta. intros H.
  lstep; intros; cbv beta in *; [by eapply metaPath_later|].
  destruct (ReadFile _ (fs _)) as [data|e].
  - destruct (json_Unmarshal data) as [meta0|e];
      [|simplify_eq; apply later_refl].
    lstep; intros; cbv beta in *.
    + unfold normalizeAccountMeta in *.
      lstep; intros; cbv beta in *; [|lstep].
      destruct (IsZero (CreatedAt meta0)); [|lstep].
      lstep; intros; cbv beta in *; [by eapply time_Now_later|lstep].
    + lstep; intros; cbv beta in *; [by eapply saveAccountMeta_later|lstep].
  - destruct (IsNotExist e); [|simplify_eq; apply later_refl].
    lstep; intros; cbv beta in *.
    + unfold defaultAccountMeta in *.
      lstep; intros; cbv beta in *; [by eapply time_Now_later|lstep].
    + lstep; intros; cbv beta in *; [by eapply saveAccountMeta_later|lstep].
Qed.

Lemma EnsureAccount_later (raw : string) (w w' : World) (r : Result unit) :
  EnsureAccount raw w = (r, w') -> later w w'.
Proof.
  unfold EnsureAccount, CookiesPath, ImagesDir. intros H.
  lstep; intros; cbv beta in *.
  { lstep; intros; cbv beta in *; [by eapply accountDir_later|lstep]. }
  lstep; intros; cbv beta in *.
  { lstep; intros; cbv beta in *; [by eapply accountDir_later|].
    lstep; intros; cbv beta in *; [by eapply ensure_dir_later|lstep]. }
  lstep; intros; cbv beta in *; [by eapply ensureMeta_later|lstep].
Qed.

Lemma extends_stored (w w' : World) (id : string) (meta : AccountMeta) :
  extends w w' -> accounts_root w' = accounts_root w ->
  stored_meta w id = Some meta -> stored_meta w' id = Some meta.
Proof.
  intros He Hr. unfold stored_meta. rewrite Hr.
  destruct (accounts_root w) as [root|]; [|done].
  destruct (fs w !! _) as [[|[m|b]]|] eqn:E; try done.
  intros [= ->]. by rewrite (He _ _ E).
Qed.

(** [EnsureAccount] on an account with stored metadata keeps the time
    stamps that are set. *)
Lemma EnsureAccount_stored (raw id : string) (w w' : World)
    (old : AccountMeta) :
  sanitizeAccountID raw = Ok id -> stored_meta w id = Some old ->
  EnsureAccount raw w = (Ok tt, w') ->
  exists m, stored_meta w' id = Some m
            /\ (CreatedAt old <> 0 -> CreatedAt m = CreatedAt old)
            /\ (UpdatedAt old <> 0 -> UpdatedAt m = UpdatedAt old).
Proof.
  intros Hs Hold H. unfold EnsureAccount in H. io_inv H.
  pose proof (CookiesPath_extends _ _ _ _ Hstep) as E1.
  pose proof (ImagesDir_extends _ _ _ _ Hstep0) as E2.
  apply CookiesPath_spec in Hstep as (_ & _ & _ & _ & _ & G1 & _).
  apply ImagesDir_spec in Hstep0 as (_ & _ & _ & _ & _ & G2 & _).
  assert (Hold2 : stored_meta w1 id = Some old).
  { eapply extends_stored; [exact (extends_trans _ _ _ E1 E2)| |done].
    by rewrite (grows_accounts_root _ _ G2), (grows_accounts_root _ _ G1). }
  pose proof (ensureMeta_stored _ _ _ _ _ _ Hs Hold2 Hstep1) as (_ & Hc & Hu).
  apply ensureMeta_stores in Hstep1 as (id' & Hs' & Hst & _).
  rewrite Hs in Hs'. injection Hs' as <-.
  by exists (trimmed_meta a1).
Qed.

(** The run of a successful [SetAccountRemark]. *)
Lemma SetAccountRemark_inv (raw remark : string) (w w' : World)
    (info : AccountInfo) :
  SetAccountRemark raw remark w = (Ok info, w') ->
  exists id,
    ResolveAccountID raw = Ok id
    /\ ID info = id
    /\ InfoRemark info = strings.TrimSpace remark
    /\ InfoCreatedAt info <> 0
    /\ InfoUpdatedAt info = Z.pos (clock w (Nat.pred (clock_reads w')))
    /\ (clock_reads w < clock_reads w')%nat
    /\ stored_meta w' id
       = Some (mkAccountMeta (InfoRemark info) (InfoCreatedAt info)
                             (InfoUpdatedAt info))
    /\ (forall old, stored_meta w id = Some old -> CreatedAt old <> 0 ->
          InfoCreatedAt info = CreatedAt old)
    /\ materialized w' id
         (mkAccountMeta (InfoRemark info) (InfoCreatedAt info)
                        (InfoUpdatedAt info)).
Proof.
  unfold SetAccountRemark. rewrite Resolve_sanitize.
  destruct (sanitizeAccountID raw) as [id|e] eqn:Hs; [|done].
  intros H. io_inv H.
  pose proof (sanitize_canonical _ _ Hs) as Hcan.
  pose proof Hstep as Hens.
  apply EnsureAccount_spec in Hens as (id1 & meta1 & Hs1 & Hm1 & G1).
  rewrite Hcan in Hs1. injection Hs1 as <-.
  pose proof (metaPath_extends _ _ _ _ Hstep0) as Hext2.
  pose proof Hstep0 as Hstep0'.
  apply metaPath_spec in Hstep0 as (id2 & root & Hs2 & Hr2 & -> & G2 & A2).
  rewrite Hcan in Hs2. injection Hs2 as <-.
  pose proof (ensureMeta_spec _ _ _ _ Hstep1)
    as (id3 & root3 & Hs3 & Hr3 & G3 & A3 & Hf3 & Hc3 & Hu3).
  rewrite Hcan in Hs3. injection Hs3 as <-.
  rewrite (grows_accounts_root _ _ G2) in Hr3.
  rewrite Hr2 in Hr3. injection Hr3 as <-.
  pose proof Hstep2 as Hnow. unfold time_Now in Hnow.
  injection Hnow as Hnow Hw2.
  pose proof (time_Now_spec _ _ _ Hstep2) as (Hnz & G4 & F4).
  pose proof (saveAccountMeta_reads _ _ _ _ _ Hstep3) as Hreads.
  apply saveAccountMeta_spec in Hstep3 as (G5 & _ & Hf5);
    [|by eapply grows_all_dirs].
  assert (Hcr : (if IsZero (CreatedAt a1) then a2 else CreatedAt a1)
                = CreatedAt a1).
  { unfold IsZero. by destruct (Z.eqb_spec (CreatedAt a1) 0). }
  exists id. cbn [ID InfoRemark InfoCreatedAt InfoUpdatedAt info_of
                  Remark CreatedAt UpdatedAt].
  rewrite Hcr.
  assert (Hroot : accounts_root w = Some root).
  { by rewrite <- (grows_accounts_root _ _ G1). }
  assert (Hclock : clock w2 = clock w).
  { by rewrite (grows_clock _ _ G3), (grows_clock _ _ G2),
      (grows_clock _ _ G1). }
  assert (Hle : (clock_reads w <= clock_reads w2)%nat).
  { pose proof (EnsureAccount_later _ _ _ _ Hstep).
    pose proof (metaPath_later _ _ _ _ Hstep0').
    pose proof (ensureMeta_later _ _ _ _ Hstep1).
    unfold later in *. lia. }
  splits; try done.
  - rewrite Hreads, <- Hw2. cbn [clock_reads Nat.pred].
    by rewrite <- Hnow, Hclock.
  - rewrite Hreads, <- Hw2. cbn [clock_reads]. lia.
  - apply (stored_meta_lookup _ _ root).
    + by rewrite (grows_accounts_root _ _ G5), (grows_accounts_root _ _ G4),
        (grows_accounts_root _ _ G3), (grows_accounts_root _ _ G2).
    + rewrite <- app_snoc2, Hf5. unfold trimmed_meta.
      cbn [Remark CreatedAt UpdatedAt]. by rewrite TrimSpace_idem, Hcr.
  - intros old Hold Hoc. destruct a.
    destruct (EnsureAccount_stored _ _ _ _ _ Hcan Hold Hstep)
      as (m & Hm & Hc & _).
    assert (Hm2 : stored_meta w1 id = Some m).
    { eapply extends_stored; [done| |done].
      by rewrite (grows_accounts_root _ _ G2). }
    destruct (ensureMeta_stored _ _ _ _ _ _ Hcan Hm2 Hstep1) as (_ & Hc2 & _).
    rewrite Hc2; [by apply Hc|]. rewrite Hc; done.
  - destruct Hm1 as (root1 & Hr1 & Ha1 & _).
    rewrite Hr2 in Hr1. injection Hr1 as <-.
    exists root. splits.
    + by rewrite (grows_accounts_root _ _ G5), (grows_accounts_root _ _ G4),
        (grows_accounts_root _ _ G3), (grows_accounts_root _ _ G2).
    + eapply grows_all_dirs; [|exact Ha1].
      eauto using grows_trans.
    + rewrite <- app_snoc2, Hf5. unfold trimmed_meta.
      cbn [Remark CreatedAt UpdatedAt]. by rewrite TrimSpace_idem, Hcr.
    + cbn [Remark]. apply TrimSpace_idem.
    + done.
    + cbn [UpdatedAt]. lia.
Qed.

(** X4.  What a successful [SetAccountRemark] returns and leaves behind.  The
    identifier of the result is the resolved one (the default account for
    a blank argument), its remark is the trimmed remark, its update time
    is the last reading of the clock that the call made, and both times
    are set.  The account's metadata file holds exactly what is returned.
    The creation time of an account that had one is not changed. *)
Theorem SetAccountRemark_spec (raw remark : string) (w w' : World)
    (info : AccountInfo) :
  SetAccountRemark raw remark w = (Ok info, w') ->
  exists id,
    ResolveAccountID raw = Ok id
    /\ ID info = id
    /\ InfoRemark info = strings.TrimSpace remark
    /\ InfoCreatedAt info <> 0
    /\ InfoUpdatedAt info = Z.pos (clock w (Nat.pred (clock_reads w')))
    /\ (clock_reads w < clock_reads w')%nat
    /\ stored_meta w' id
       = Some (mkAccountMeta (InfoRemark info) (InfoCreatedAt info)
                             (InfoUpdatedAt info))
    /\ (forall old, stored_meta w id = Some old -> CreatedAt old <> 0 ->
          InfoCreatedAt info = CreatedAt old).
Proof.
  intros H. apply SetAccountRemark_inv in H as (id & H).
  exists id. tauto.
Qed.

Lemma SetAccountRemark_spec_witness :
  exists id,
    ResolveAccountID " alice " = Ok id
    /\ ID (mkAccountInfo "alice" "hello" 1 2) = id
    /\ InfoRemark (mkAccountInfo "alice" "hello" 1 2)
       = strings.TrimSpace " hello "
    /\ InfoCreatedAt (mkAccountInfo "alice" "hello" 1 2) <> 0
    /\ InfoUpdatedAt (mkAccountInfo "alice" "hello" 1 2)
       = Z.pos (clock fresh_world
                  (Nat.pred (clock_reads
                     (snd (SetAccountRemark " alice " " hello " fresh_world)))))
    /\ (clock_reads fresh_world
        < clock_reads (snd (SetAccountRemark " alice " " hello " fresh_world)))%nat
    /\ stored_meta (snd (SetAccountRemark " alice " " hello " fresh_world)) id
       = Some (mkAccountMeta
                 (InfoRemark (mkAccountInfo "alice" "hello" 1 2))
                 (InfoCreatedAt (mkAccountInfo "alice" "hello" 1 2))
                 (InfoUpdatedAt (mkAccountInfo "alice" "hello" 1 2)))
    /\ (forall old, stored_meta fresh_world id = Some old ->
          CreatedAt old <> 0 ->
          InfoCreatedAt (mkAccountInfo "alice" "hello" 1 2) = CreatedAt old).
Proof.
  apply (SetAccountRemark_spec " alice " " hello " fresh_world).
  vm_compute. reflexivity.
Defined.



End RemarkFacts.

(** ** Listing, once more *)

Section ListingFacts.
Import os accounts.

Lemma extends_but_refl (p : path) (w : World) : extends_but p w w.
Proof. by intros q n H _. Qed.

Lemma extends_but_trans (p : path) (w1 w2 w3 : World) :
  extends_but p w1 w2 -> extends_but p w2 w3 -> extends_but p w1 w3.
Proof. intros H12 H23 q n Hq Hne. apply H23; [|done]. by apply H12. Qed.

Lemma extends_extends_but (p : path) (w w' : World) :
  extends w w' -> extends_but p w w'.
Proof. intros H q n Hq _. by apply H. Qed.

Lemma saveAccountMeta_but (p : path) (meta : AccountMeta) (w w' : World)
    (r : Result unit) :
  saveAccountMeta p meta w = (r, w') -> extends_but p w w'.
Proof.
  unfold saveAccountMeta, lift_fs.
  destruct (WriteFile _ _ (fs w)) as [m|e] eqn:E; intros [= <- <-];
    [|apply extends_but_refl].
  apply WriteFile_Ok_inv in E as ->. intros q n Hq Hne. cbn [fs set_fs].
  by rewrite lookup_insert_ne.
Qed.

(** [ensureMeta] writes to the metadata file of its account and to no
    other entry that exists. *)
Lemma ensureMeta_but (raw id : string) (root : path) (w w' : World)
    (r : Result AccountMeta) :
  sanitizeAccountID raw = Ok id -> accounts_root w = Some root ->
  ensureMeta raw w = (r, w') ->
  extends_but (root ++ [id; metaFileName]) w w'.
Proof.
  intros Hs Hr H. unfold ensureMeta in H.
  pose (p := root ++ [id; metaFileName]).
  assert (Hstep : forall r1 w1, time_Now w1 = (r1, w') -> True) by done.
  clear Hstep.
  eapply (bind_step _ (extends_but_trans p)); [exact H| |]; clear H.
  - intros r1 w1 H. by eapply extends_extends_but, metaPath_extends.
  - intros p' w1 Hp _ H. cbv beta in H.
    apply metaPath_spec in Hp as (id' & root' & Hs' & Hr' & -> & _ & _).
    rewrite Hs in Hs'. injection Hs' as <-.
    rewrite Hr in Hr'. injection Hr' as <-.
    rewrite app_snoc2 in H. fold p in H.
    destruct (ReadFile p (fs w1)) as [data|e].
    + destruct (json_Unmarshal data) as [meta0|e];
        [|simplify_eq; apply extends_but_refl].
      eapply (bind_step _ (extends_but_trans p)); [exact H| |]; clear H.
      * intros r1 w2 H. unfold normalizeAccountMeta in H.
        eapply (bind_step _ (extends_but_trans p)); [exact H| |]; clear H.
        -- intros r2 w3 H. destruct (IsZero (CreatedAt meta0)).
           ++ eapply (bind_step _ (extends_but_trans p)); [exact H| |]; clear H.
              ** intros. by eapply extends_extends_but, time_Now_extends.
              ** intros ? ? _ _ H. exact (ret_step _ (extends_but_refl p) _ _ _ _ H).
           ++ exact (ret_step _ (extends_but_refl p) _ _ _ _ H).
        -- intros ? ? _ _ H. exact (ret_step _ (extends_but_refl p) _ _ _ _ H).
      * intros meta w2 _ _ H.
        eapply (bind_step _ (extends_but_trans p)); [exact H| |]; clear H.
        -- intros. by eapply saveAccountMeta_but.
        -- intros ? ? _ _ H. exact (ret_step _ (extends_but_refl p) _ _ _ _ H).
    + destruct (IsNotExist e); [|simplify_eq; apply extends_but_refl].
      eapply (bind_step _ (extends_but_trans p)); [exact H| |]; clear H.
      * intros r1 w2 H. unfold defaultAccountMeta in H.
        eapply (bind_step _ (extends_but_trans p)); [exact H| |]; clear H.
        -- intros. by eapply extends_extends_but, time_Now_extends.
        -- intros ? ? _ _ H. exact (ret_step _ (extends_but_refl p) _ _ _ _ H).
      * intros meta w2 _ _ H.
        eapply (bind_step _ (extends_but_trans p)); [exact H| |]; clear H.
        -- intros. by eapply saveAccountMeta_but.
        -- intros ? ? _ _ H. exact (ret_step _ (extends_but_refl p) _ _ _ _ H).
Qed.

Lemma persists_keeps_dirs (w w' : World) :
  persists w w' -> keeps_dirs (fs w) (fs w').
Proof. intros H. by apply persists_nothing_lost in H as (? & _). Qed.

(** A materialized account stays materialized, with the metadata it has,
    when [ensureMeta] runs on any account. *)
Lemma materialized_ensureMeta (id raw : string) (meta m : AccountMeta)
    (w w' : World) :
  materialized w id meta ->
  ensureMeta raw w = (Ok m, w') ->
  materialized w' id meta
  /\ (sanitizeAccountID raw = Ok id -> m = meta).
Proof.
  intros Hm H.
  destruct (sanitizeAccountID raw) as [idc|e] eqn:Hs.
  2:{ apply ensureMeta_spec in H as (? & ? & ? & _). congruence. }
  destruct (decide (idc = id)) as [->|Hne].
  - rewrite (ensureMeta_noop _ _ _ _ Hs Hm) in H. injection H as <- <-.
    by split.
  - split; [|congruence].
    pose proof Hm as (root & Hr & Ha & Hf & Ht & Hc & Hu).
    pose proof (ensureMeta_but _ _ _ _ _ _ Hs Hr H) as Hb.
    pose proof (persists_keeps_dirs _ _ (ensureMeta_persists _ _ _ _ H)) as Hk.
    apply ensureMeta_spec in H as (_ & _ & _ & _ & G & _).
    exists root. splits; try done.
    + by rewrite (grows_accounts_root _ _ G).
    + by eapply all_dirs_mono.
    + apply Hb; [done|]. intros E. apply app_inv_head in E. congruence.
Qed.

(** The loop of [ListAccounts] lists a materialized account with the
    metadata that is stored for it. *)
Lemma list_entries_materialized (id : string) (meta : AccountMeta)
    (entries : list DirEntry) :
  sanitizeAccountID id = Ok id ->
  forall (acc infos : list AccountInfo) (w w' : World),
    materialized w id meta ->
    list_entries entries acc w = (Ok infos, w') ->
    materialized w' id meta
    /\ (forall info, info ∈ acc -> info ∈ infos)
    /\ (mkDirEntry id true ∈ entries -> info_of id meta ∈ infos).
Proof.
  intros Hcan. induction entries as [|e entries IH]; intros acc infos w w' Hm H.
  - simpl in H. unfold ret in H. simplify_eq.
    splits; try done. by intros ?%elem_of_nil.
  - simpl in H. destruct (EntryIsDir e) eqn:Hd; simpl in H.
    + io_inv H.
      destruct (materialized_ensureMeta _ _ _ _ _ _ Hm Hstep) as [Hm' Heq].
      destruct (IH _ _ _ _ Hm' H) as (Hm'' & Hacc & Hin).
      splits; [done| |].
      * intros info Hi. apply Hacc, elem_of_app. by left.
      * intros [E|Hin']%elem_of_cons; [|by apply Hin].
        subst e. cbn [Name] in *. specialize (Heq Hcan). subst a.
        apply Hacc, elem_of_app. right. by left.
    + destruct (IH _ _ _ _ Hm H) as (Hm'' & Hacc & Hin).
      splits; try done.
      intros [E|Hin']%elem_of_cons; [|by apply Hin].
      subst e. by cbn in Hd.
Qed.

Lemma materialized_dir (w : World) (id : string) (meta : AccountMeta)
    (root : path) :
  accounts_root w = Some root -> materialized w id meta ->
  all_dirs [] root (fs w) /\ fs w !! (root ++ [id]) = Some Dir.
Proof.
  intros Hr (root' & Hr' & Ha & _). rewrite Hr in Hr'. injection Hr' as <-.
  change [id; imagesDirName] with ([id] ++ [imagesDirName]) in Ha.
  rewrite app_assoc in Ha. apply all_dirs_parent in Ha.
  apply all_dirs_app in Ha as [Ha1 Ha2]. split; [done|].
  simpl in Ha2. by destruct Ha2.
Qed.

(** [ListAccounts] lists a materialized account with the metadata that
    is stored for it. *)
Lemma ListAccounts_materialized (w w' : World) (id : string)
    (meta : AccountMeta) (infos : list AccountInfo) :
  sanitizeAccountID id = Ok id -> materialized w id meta ->
  ListAccounts w = (Ok infos, w') ->
  info_of id meta ∈ infos.
Proof.
  intros Hcan Hm H.
  apply ListAccounts_inv in H
    as (root & w0 & entries & infos0 & w1 & infos1 & Hroot & Hrd & Hloop
        & -> & Hstat).
  pose proof (accountsRootDir_extends _ _ _ Hroot) as Hext.
  pose proof (accountsRootDir_spec _ _ _ Hroot) as (Hr & G0 & A0).
  assert (Hm0 : materialized w0 id meta).
  { destruct Hm as (root' & Hr' & Ha & Hf & Ht & Hc & Hu).
    exists root'. splits; try done.
    - by rewrite (grows_accounts_root _ _ G0).
    - by eapply grows_all_dirs.
    - by apply Hext. }
  assert (Hr0 : accounts_root w0 = Some root)
    by by rewrite (grows_accounts_root _ _ G0).
  destruct (materialized_dir _ _ _ _ Hr0 Hm0) as [_ Hdir].
  destruct (list_entries_materialized _ _ _ Hcan _ _ _ _ Hm0 Hloop)
    as (_ & _ & Hin).
  assert (He : mkDirEntry id true ∈ entries).
  { eapply ReadDir_elem; [done|]. by exists Dir. }
  specialize (Hin He).
  rewrite (sort_Slice_perm id_less infos1).
  destruct (Stat _ _) as [n|e]; [by subst|].
  destruct (IsNotExist e); [|by subst].
  destruct Hstat as [meta' ->]. apply elem_of_app. by left.
Qed.

(** X5.  A remark that was set is listed.  After a successful
    [SetAccountRemark], a successful [ListAccounts] returns the very
    account information that [SetAccountRemark] returned: identifier,
    trimmed remark and both time stamps. *)
Theorem SetAccountRemark_listed (raw remark : string) (w w1 w2 : World)
    (info : AccountInfo) (infos : list AccountInfo) :
  SetAccountRemark raw remark w = (Ok info, w1) ->
  ListAccounts w1 = (Ok infos, w2) ->
  info ∈ infos.
Proof.
  intros Hset Hlist.
  pose proof Hset as Hid. unfold SetAccountRemark in Hid.
  rewrite Resolve_sanitize in Hid.
  destruct (sanitizeAccountID raw) as [id0|e] eqn:Hs; [|done]. clear Hid.
  apply SetAccountRemark_inv in Hset
    as (id & Hres & Hid & _ & _ & _ & _ & _ & _ & Hm).
  rewrite Resolve_sanitize, Hs in Hres. injection Hres as ->.
  pose proof (sanitize_canonical _ _ Hs) as Hcan.
  pose proof (ListAccounts_materialized _ _ _ _ _ Hcan Hm Hlist) as Hin.
  destruct info as [i r c u]. cbn in *. by subst.
Qed.

Lemma SetAccountRemark_listed_witness :
  mkAccountInfo "alice" "hello" 1 2
  ∈ [mkAccountInfo "alice" "hello" 1 2; mkAccountInfo "default" "" 3 3].
Proof.
  apply (SetAccountRemark_listed " alice " " hello " fresh_world
           (snd (SetAccountRemark " alice " " hello " fresh_world))
           (snd (ListAccounts
                   (snd (SetAccountRemark " alice " " hello " fresh_world)))));
    vm_compute; reflexivity.
Defined.

End ListingFacts.

(** ** A metadata file that does not decode *)

Section DamagedFacts.
Import os accounts.

(** [ensureMeta] on an account whose metadata file does not decode
    fails and leaves the file as it is. *)
Lemma ensureMeta_damaged (raw id b : string) (root : path) (w w' : World)
    (r : Result AccountMeta) :
  sanitizeAccountID raw = Ok id -> accounts_root w = Some root ->
  fs w !! (root ++ [id; metaFileName]) = Some (File (Opaque b)) ->
  ensureMeta raw w = (r, w') ->
  isOk r = false
  /\ fs w' !! (root ++ [id; metaFileName]) = Some (File (Opaque b)).
Proof.
  intros Hs Hr Hf H. unfold ensureMeta in H.
  apply bind_inv in H as [(p & w1 & Hp & H)|(e & Hp & ->)].
  - pose proof (metaPath_extends _ _ _ _ Hp) as Hext.
    apply metaPath_spec in Hp as (id' & root' & Hs' & Hr' & -> & _ & A).
    rewrite Hs in Hs'. injection Hs' as <-.
    rewrite Hr in Hr'. injection Hr' as <-.
    apply Hext in Hf. rewrite <- app_snoc2 in Hf.
    rewrite ReadFile_entry, Hf in H by done. cbn [json_Unmarshal] in H.
    injection H as <- <-. by rewrite <- app_snoc2.
  - split; [done|]. by apply (metaPath_extends _ _ _ _ Hp).
Qed.

Lemma EnsureAccount_damaged (raw id b : string) (root : path) (w w' : World)
    (r : Result unit) :
  sanitizeAccountID raw = Ok id -> accounts_root w = Some root ->
  fs w !! (root ++ [id; metaFileName]) = Some (File (Opaque b)) ->
  EnsureAccount raw w = (r, w') ->
  isOk r = false
  /\ fs w' !! (root ++ [id; metaFileName]) = Some (File (Opaque b)).
Proof.
  intros Hs Hr Hf H. unfold EnsureAccount in H.
  apply bind_inv in H as [(p & w1 & H1 & H)|(e & H1 & ->)].
  2:{ split; [done|]. by apply (CookiesPath_extends _ _ _ _ H1). }
  apply bind_inv in H as [(p2 & w2 & H2 & H)|(e & H2 & ->)].
  2:{ split; [done|]. apply (ImagesDir_extends _ _ _ _ H2).
      by apply (CookiesPath_extends _ _ _ _ H1). }
  assert (Hf2 : fs w2 !! (root ++ [id; metaFileName]) = Some (File (Opaque b))).
  { apply (ImagesDir_extends _ _ _ _ H2).
    by apply (CookiesPath_extends _ _ _ _ H1). }
  assert (Hr2 : accounts_root w2 = Some root).
  { rewrite (keeps_root _ _ (ImagesDir_keeps _ _ _ _ H2)).
    by rewrite (keeps_root _ _ (CookiesPath_keeps _ _ _ _ H1)). }
  apply bind_inv in H as [(m & w3 & H3 & H)|(e & H3 & ->)].
  - by destruct (ensureMeta_damaged _ _ _ _ _ _ _ Hs Hr2 Hf2 H3) as [? _].
  - by destruct (ensureMeta_damaged _ _ _ _ _ _ _ Hs Hr2 Hf2 H3) as [_ ?].
Qed.

Lemma list_entries_damaged (id b : string) (root : path)
    (entries : list DirEntry) :
  forall (acc : list AccountInfo) (w w' : World)
         (r : Result (list AccountInfo)),
    accounts_root w = Some root ->
    fs w !! (root ++ [id; metaFileName]) = Some (File (Opaque b)) ->
    list_entries entries acc w = (r, w') ->
    fs w' !! (root ++ [id; metaFileName]) = Some (File (Opaque b))
    /\ accounts_root w' = Some root
    /\ (mkDirEntry id true ∈ entries -> sanitizeAccountID id = Ok id ->
        isOk r = false).
Proof.
  induction entries as [|e entries IH]; intros acc w w' r Hr Hf H.
  - simpl in H. injection H as <- <-. splits; try done.
    by intros ?%elem_of_nil.
  - simpl in H. destruct (EntryIsDir e) eqn:Hd; simpl in H.
    + apply bind_inv in H as [(m & w1 & H1 & H)|(err & H1 & ->)].
      * assert (Hr1 : accounts_root w1 = Some root)
          by by rewrite (keeps_root _ _ (ensureMeta_keeps _ _ _ _ H1)).
        assert (Hne : sanitizeAccountID (Name e) <> Ok id).
        { intros Hs.
          by destruct (ensureMeta_damaged _ _ _ _ _ _ _ Hs Hr Hf H1). }
        assert (Hf1 : fs w1 !! (root ++ [id; metaFileName])
                      = Some (File (Opaque b))).
        { destruct (sanitizeAccountID (Name e)) as [idc|err] eqn:Hs.
          - apply (ensureMeta_but _ _ _ _ _ _ Hs Hr H1); [done|].
            intros E. apply app_inv_head in E. congruence.
          - apply ensureMeta_spec in H1 as (? & ? & ? & _). congruence. }
        destruct (IH _ _ _ _ Hr1 Hf1 H) as (Hf' & Hr' & Hfail).
        splits; try done.
        intros [E|Hin]%elem_of_cons Hcan; [|by apply Hfail].
        subst e. by cbn in Hne.
      * splits; try done.
        -- destruct (sanitizeAccountID (Name e)) as [idc|err'] eqn:Hs.
           ++ destruct (decide (idc = id)) as [->|Hne].
              ** by destruct (ensureMeta_damaged _ _ _ _ _ _ _ Hs Hr Hf H1).
              ** apply (ensureMeta_but _ _ _ _ _ _ Hs Hr H1); [done|].
                 intros E. apply app_inv_head in E. congruence.
           ++ unfold ensureMeta in H1.
              apply bind_inv in H1 as [(p & w1 & Hp & _)|(e' & Hp & _)].
              ** apply metaPath_spec in Hp as (? & ? & ? & _). congruence.
              ** by apply (metaPath_extends _ _ _ _ Hp).
        -- by rewrite (keeps_root _ _ (ensureMeta_keeps _ _ _ _ H1)).
    + destruct (IH _ _ _ _ Hr Hf H) as (Hf' & Hr' & Hfail).
      splits; try done.
      intros [E|Hin]%elem_of_cons Hcan; [|by apply Hfail].
      subst e. by cbn in Hd.
Qed.

(** X6.  A metadata file that does not decode is never overwritten, and the
    failure is reported.  When [meta.json] of an account holds something
    that [json.Unmarshal] rejects, [ensureMeta], [EnsureAccount] and
    [SetAccountRemark] for that account fail, [ListAccounts] fails as soon
    as the account has a directory, and after each of them the file has the
    content it had.  When the account directory is there, the error of
    [ensureMeta] is the error of the decoder and nothing at all is
    changed. *)
Theorem damaged_meta_is_kept (raw id b : string) (root : path) (w : World) :
  sanitizeAccountID raw = Ok id -> accounts_root w = Some root ->
  fs w !! (root ++ [id; metaFileName]) = Some (File (Opaque b)) ->
  (forall r w', ensureMeta raw w = (r, w') ->
     isOk r = false
     /\ fs w' !! (root ++ [id; metaFileName]) = Some (File (Opaque b)))
  /\ (forall r w', EnsureAccount raw w = (r, w') ->
        isOk r = false
        /\ fs w' !! (root ++ [id; metaFileName]) = Some (File (Opaque b)))
  /\ (forall remark r w', SetAccountRemark raw remark w = (r, w') ->
        isOk r = false
        /\ fs w' !! (root ++ [id; metaFileName]) = Some (File (Opaque b)))
  /\ (forall r w', fs w !! (root ++ [id]) = Some Dir ->
        ListAccounts w = (r, w') ->
        isOk r = false
        /\ fs w' !! (root ++ [id; metaFileName]) = Some (File (Opaque b)))
  /\ (all_dirs [] (root ++ [id]) (fs w) ->
      ensureMeta raw w = (Err JSONSyntaxError, w)).
Proof.
  intros Hs Hr Hf. pose proof (sanitize_canonical _ _ Hs) as Hcan. splits.
  - intros r w'. by apply ensureMeta_damaged.
  - intros r w'. by apply EnsureAccount_damaged.
  - intros remark r w' H. unfold SetAccountRemark in H.
    rewrite Resolve_sanitize, Hs in H.
    apply bind_inv in H as [(u & w1 & H1 & H)|(e & H1 & ->)].
    + by destruct (EnsureAccount_damaged _ _ _ _ _ _ _ Hcan Hr Hf H1).
    + by destruct (EnsureAccount_damaged _ _ _ _ _ _ _ Hcan Hr Hf H1).
  - intros r w' Hdir H. unfold ListAccounts in H.
    apply bind_inv in H as [(root' & w0 & H0 & H)|(e & H0 & ->)].
    2:{ split; [done|]. by apply (accountsRootDir_extends _ _ _ H0). }
    pose proof (accountsRootDir_extends _ _ _ H0) as Hext.
    pose proof (accountsRootDir_spec _ _ _ H0) as (Hr' & G0 & A0).
    rewrite Hr in Hr'. injection Hr' as <-.
    apply bind_inv in H as [(entries & w0' & Hrd & H)|(e & Hrd & ->)];
      unfold read_fs in Hrd; injection Hrd as Hrd <-.
    2:{ split; [done|]. by apply Hext. }
    assert (He : mkDirEntry id true ∈ entries).
    { eapply ReadDir_elem; [done|]. exists Dir. split; [|done].
      by apply Hext. }
    assert (Hr0 : accounts_root w0 = Some root)
      by by rewrite (grows_accounts_root _ _ G0).
    apply bind_inv in H as [(infos & w1 & Hl & H)|(e & Hl & ->)].
    + destruct (list_entries_damaged _ _ _ _ _ _ _ _ Hr0 (Hext _ _ Hf) Hl)
        as (_ & _ & Hfail).
      by specialize (Hfail He Hcan).
    + destruct (list_entries_damaged _ _ _ _ _ _ _ _ Hr0 (Hext _ _ Hf) Hl)
        as (Hf' & _ & _).
      by split.
  - intros Ha. unfold ensureMeta.
    erewrite bind_Ok by by eapply metaPath_noop.
    rewrite <- app_snoc2 in Hf. by rewrite ReadFile_entry, Hf.
Qed.

Lemma damaged_meta_is_kept_witness :
  (forall r w', ensureMeta " bob" damaged_world = (r, w') ->
     isOk r = false
     /\ fs w' !! (["srv"; "xhs"; "accounts"] ++ ["bob"; metaFileName])
        = Some (File (Opaque "{")))
  /\ (forall r w', EnsureAccount " bob" damaged_world = (r, w') ->
        isOk r = false
        /\ fs w' !! (["srv"; "xhs"; "accounts"] ++ ["bob"; metaFileName])
           = Some (File (Opaque "{")))
  /\ (forall remark r w',
        SetAccountRemark " bob" remark damaged_world = (r, w') ->
        isOk r = false
        /\ fs w' !! (["srv"; "xhs"; "accounts"] ++ ["bob"; metaFileName])
           = Some (File (Opaque "{")))
  /\ (forall r w',
        fs damaged_world !! (["srv"; "xhs"; "accounts"] ++ ["bob"]) = Some Dir ->
        ListAccounts damaged_world = (r, w') ->
        isOk r = false
        /\ fs w' !! (["srv"; "xhs"; "accounts"] ++ ["bob"; metaFileName])
           = Some (File (Opaque "{")))
  /\ (all_dirs [] (["srv"; "xhs"; "accounts"] ++ ["bob"]) (fs damaged_world) ->
      ensureMeta " bob" damaged_world = (Err JSONSyntaxError, damaged_world)).
Proof.
  apply (damaged_meta_is_kept " bob" "bob" "{" ["srv"; "xhs"; "accounts"]
           damaged_world); vm_compute; reflexivity.
Defined.

End DamagedFacts.

(** ** The identifiers that are listed *)

Section ListedIDsFacts.
Import os accounts.

Lemma list_entries_ids (entries : list DirEntry) :
  forall (acc infos : list AccountInfo) (w w' : World),
    list_entries entries acc w = (Ok infos, w') ->
    map ID infos = map ID acc ++ map Name (filter (fun e => EntryIsDir e = true) entries).
Proof.
  induction entries as [|e entries IH]; intros acc infos w w' H.
  - simpl in H. unfold ret in H. simplify_eq. by rewrite app_nil_r.
  - simpl in H. rewrite filter_cons.
    destruct (EntryIsDir e) eqn:Hd; simpl in H.
    + io_inv H. apply IH in H. rewrite H, map_app. cbn [map ID info_of].
      rewrite decide_True by done. by rewrite <- app_assoc.
    + apply IH in H. by rewrite decide_False by done.
Qed.

Lemma omap_names_NoDup (p : path) (l : list (path * node)) :
  NoDup (map fst l) ->
  NoDup (map Name
           (omap (fun kn => match entry_name p (fst kn) with
                            | Some c => Some (mkDirEntry c (is_Dir (snd kn)))
                            | None => None
                            end) l)).
Proof.
  induction l as [|[k n] l IH]; [constructor|].
  cbn [map fst]. intros [Hk Hl]%NoDup_cons.
  cbn [omap list_omap fst snd].
  destruct (entry_name p k) as [c|] eqn:Ec; [|by apply IH].
  cbn [map Name]. apply NoDup_cons. split; [|by apply IH].
  intros Hin. apply Hk.
  apply list_elem_of_fmap in Hin as (e & He & Hin).
  apply list_elem_of_omap in Hin as ([k' n'] & Hin' & Hg).
  cbn [fst snd] in Hg.
  destruct (entry_name p k') as [c'|] eqn:Ec'; [|done].
  injection Hg as <-. cbn [Name] in He. subst c'.
  apply entry_name_spec in Ec, Ec'. subst k k'.
  apply list_elem_of_fmap. by exists (p ++ [c], n').
Qed.

Lemma ReadDir_NoDup (p : path) (m : filesys) (entries : list DirEntry) :
  ReadDir p m = Ok entries -> NoDup (map Name entries).
Proof.
  unfold ReadDir. destruct (Stat p m) as [[|d]|[]]; try done.
  intros [= <-].
  match goal with
  | |- NoDup (map Name (foldr insert_entry [] ?l)) =>
    assert (Hp : map Name (foldr insert_entry [] l) ≡ₚ map Name l)
      by apply Permutation_map, sort_entries_perm
  end.
  rewrite Hp. apply omap_names_NoDup, NoDup_fst_map_to_list.
Qed.

Lemma NoDup_map_filter {A B} (f : A -> B) (P : A -> Prop)
    `{forall x, Decision (P x)} (l : list A) :
  NoDup (map f l) -> NoDup (map f (filter P l)).
Proof.
  induction l as [|x l IH]; [done|].
  cbn [map]. intros [Hx Hl]%NoDup_cons. rewrite filter_cons.
  destruct (decide (P x)); [|by apply IH].
  cbn [map]. apply NoDup_cons. split; [|by apply IH].
  intros Hin. apply Hx.
  apply list_elem_of_fmap in Hin as (y & -> & Hy).
  apply list_elem_of_filter in Hy as [_ Hy].
  apply list_elem_of_fmap. by exists y.
Qed.



End ListedIDsFacts.

(** ** The default account *)

Section DefaultFacts.
Import strings accounts.

(** X8.  [IsDefaultAccount] holds of the arguments that are blank (empty or
    white space only) and of those that are the default identifier with
    white space around it, and of no other: in particular of no invalid
    identifier.  [ValidateAccountID] accepts what [ResolveAccountID]
    resolves. *)
Theorem IsDefaultAccount_spec (raw : string) :
  (IsDefaultAccount raw = true <->
   whitespace_only raw = true \/ TrimSpace raw = defaultAccountID)
  /\ (IsDefaultAccount raw = true <->
      ResolveAccountID raw = Ok defaultAccountID)
  /\ (ValidateAccountID raw = None <->
      whitespace_only raw = true
      \/ accountIDPattern_MatchString (TrimSpace raw) = true).
Proof.
  unfold IsDefaultAccount, ValidateAccountID. rewrite Resolve_sanitize.
  destruct (whitespace_only raw) eqn:Hws.
  - rewrite sanitize_default by done. splits; split; auto.
  - destruct (accountIDPattern_MatchString (TrimSpace raw)) eqn:Hm.
    + rewrite sanitize_trimmed by done. splits.
      * rewrite String.eqb_eq. split; [auto|]. by intros [|].
      * rewrite String.eqb_eq. split; [by intros ->|]. by intros [= ->].
      * split; auto.
    + rewrite sanitize_invalid by done. splits.
      * split; [done|]. intros [|E]; [done|]. by rewrite E in Hm.
      * done.
      * split; [done|]. by intros [|].
Qed.

End DefaultFacts.

Section InvariantWitness.
Import accounts.

(** The store keeps its accounts root well formed: on the world where
    nothing was created. *)
Lemma store_wf_preserved_witness :
  (forall raw r w', EnsureAccount raw fresh_world = (r, w') -> store_wf w')
  /\ (forall r w', ListAccounts fresh_world = (r, w') -> store_wf w')
  /\ (forall raw remark r w',
        SetAccountRemark raw remark fresh_world = (r, w') -> store_wf w')
  /\ (forall raw r w', CookiesPath raw fresh_world = (r, w') -> store_wf w')
  /\ (forall raw r w', ImagesDir raw fresh_world = (r, w') -> store_wf w').
Proof. apply (store_wf_preserved fresh_world). apply fresh_world_wf. Defined.

End InvariantWitness.

(** ** The two versions of the store *)

Section VersionFacts.
Import os accounts.

Lemma mkdir_walk_full (full full' pre : path) (rest : list string)
    (m : filesys) :
  isOk (mkdir_walk full pre rest m) = isOk (mkdir_walk full' pre rest m)
  /\ forall m', mkdir_walk full pre rest m = Ok m' ->
                mkdir_walk full' pre rest m = Ok m'.
Proof.
  revert pre m. induction rest as [|c rest IH]; intros pre m; simpl; [done|].
  destruct (m !! (pre ++ [c])) as [[|d]|]; [apply IH|done|apply IH].
Qed.

Lemma mkdir_walk_app (full pre : path) (a b : list string) (m : filesys) :
  mkdir_walk full pre (a ++ b) m
  = match mkdir_walk full pre a m with
    | Ok m1 => mkdir_walk full (pre ++ a) b m1
    | Err e => Err e
    end.
Proof.
  revert pre m. induction a as [|c a IH]; intros pre m; simpl.
  - by rewrite app_nil_r.
  - replace (pre ++ c :: a) with ((pre ++ [c]) ++ a)
      by by rewrite <- app_assoc.
    destruct (m !! (pre ++ [c])) as [[|d]|]; [|done|]; by rewrite IH.
Qed.

Lemma mkdir_walk_skip (full pre : path) (a b : list string) (m : filesys) :
  all_dirs pre a m ->
  mkdir_walk full pre (a ++ b) m = mkdir_walk full (pre ++ a) b m.
Proof.
  intros Ha. rewrite mkdir_walk_app.
  by rewrite (mkdir_walk_noop full pre a m Ha).
Qed.

(** Making a directory in one step, or its parent first. *)
Lemma MkdirAll_snoc (p : path) (c : string) (m m' : filesys) :
  MkdirAll (p ++ [c]) m = Ok m' <->
  exists m1, MkdirAll p m = Ok m1 /\ MkdirAll (p ++ [c]) m1 = Ok m'.
Proof.
  unfold MkdirAll. rewrite mkdir_walk_app. split.
  - destruct (mkdir_walk (p ++ [c]) [] p m) as [m1|e] eqn:E; [|done].
    intros H. exists m1.
    split; [by apply (mkdir_walk_full (p ++ [c]) p)|].
    apply (mkdir_walk_full (p ++ [c]) p) in E.
    apply mkdir_walk_ok in E as [Ha _].
    by rewrite mkdir_walk_skip.
  - intros (m1 & H1 & H2).
    apply (mkdir_walk_full p (p ++ [c])) in H1. rewrite H1.
    apply (mkdir_walk_full (p ++ [c]) p) in H1.
    apply mkdir_walk_ok in H1 as [Ha _].
    by rewrite mkdir_walk_skip in H2.
Qed.

Lemma ensure_dir_Ok (what : string) (d : path) (w w' : World) (u : unit) :
  ensure_dir what d w = (Ok u, w') <->
  exists m, MkdirAll d (fs w) = Ok m /\ w' = set_fs m w.
Proof.
  unfold ensure_dir. destruct (MkdirAll d (fs w)) as [m|e]; split.
  - intros [= <-]. by exists m.
  - intros (m' & [= <-] & ->). by destruct u.
  - done.
  - by intros (? & ? & _).
Qed.

Lemma bind_Ok_iff {A B} (c : IO A) (k : A -> IO B) (w w' : World) (b : B) :
  bind c k w = (Ok b, w') <->
  exists a w1, c w = (Ok a, w1) /\ k a w1 = (Ok b, w').
Proof.
  split; [apply bind_Ok_inv|]. intros (a & w1 & H1 & H2).
  by rewrite (bind_Ok _ _ _ _ _ H1).
Qed.

(** X9.  The two versions of the store agree on the directories.  A call of
    [accountDir] of the version without metadata succeeds exactly when the
    call of the version with metadata does, with the same path and the same
    file system after it, and so do [CookiesPath] and [ImagesDir]: the
    cookie bundle and the images of an account are in the same place in
    both.  [EnsureAccount] of the version with metadata is that of the
    other version, followed by [ensureMeta]. *)
Theorem accountDir_versions (raw : string) (w : World) :
  (forall dir w', accounts_v0.accountDir raw w = (Ok dir, w') <->
                  accountDir raw w = (Ok dir, w'))
  /\ (forall p w', accounts_v0.CookiesPath raw w = (Ok p, w') <->
                   CookiesPath raw w = (Ok p, w'))
  /\ (forall p w', accounts_v0.ImagesDir raw w = (Ok p, w') <->
                   ImagesDir raw w = (Ok p, w'))
  /\ (forall w' w'' meta,
        accounts_v0.EnsureAccount raw w = (Ok tt, w') ->
        ensureMeta raw w' = (Ok meta, w'') ->
        EnsureAccount raw w = (Ok tt, w'')).
Proof.
  assert (Hdir : forall raw w dir w',
             accounts_v0.accountDir raw w = (Ok dir, w') <->
             accountDir raw w = (Ok dir, w')).
  { clear raw w. intros raw w dir w'.
    unfold accounts_v0.accountDir, accountDir, accountsRootDir.
    destruct (sanitizeAccountID raw) as [id|e]; [|done].
    rewrite !bind_Ok_iff. split.
    - intros (base & w0 & Hb & H). apply bind_Ok_iff in H as ([] & w1 & He & H).
      unfold ret in H. injection H as <- <-.
      rewrite <- app_snoc2 in He.
      apply ensure_dir_Ok in He as (m' & Hm' & ->).
      apply MkdirAll_snoc in Hm' as (m1 & Hm1 & Hm').
      exists (base ++ [dataDirName]), (set_fs m1 w0). split.
      + apply bind_Ok_iff. exists base, w0. split; [done|].
        apply bind_Ok_iff. exists tt, (set_fs m1 w0). split; [|done].
        apply ensure_dir_Ok. by exists m1.
      + apply bind_Ok_iff. exists tt, (set_fs m' w0). split.
        * apply ensure_dir_Ok. by exists m'.
        * by rewrite app_snoc2.
    - intros (root & w1 & Hroot & H).
      apply bind_Ok_iff in Hroot as (base & w0 & Hb & Hroot).
      apply bind_Ok_iff in Hroot as ([] & w1' & He1 & Hroot).
      unfold ret in Hroot. injection Hroot as <- <-.
      apply bind_Ok_iff in H as ([] & w2 & He2 & H).
      unfold ret in H. injection H as <- <-.
      apply ensure_dir_Ok in He1 as (m1 & Hm1 & ->).
      apply ensure_dir_Ok in He2 as (m' & Hm' & ->). cbn [fs set_fs] in Hm'.
      exists base, w0. split; [done|].
      apply bind_Ok_iff. exists tt, (set_fs m' w0). split.
      + apply ensure_dir_Ok. exists m'. split; [|done].
        rewrite <- app_snoc2. apply MkdirAll_snoc. by exists m1.
      + by rewrite app_snoc2. }
  assert (Hck : forall raw w p w',
             accounts_v0.CookiesPath raw w = (Ok p, w') <->
             CookiesPath raw w = (Ok p, w')).
  { clear raw w. intros raw w p w'.
    unfold accounts_v0.CookiesPath, CookiesPath. rewrite !bind_Ok_iff.
    by setoid_rewrite Hdir. }
  assert (Himg : forall raw w p w',
             accounts_v0.ImagesDir raw w = (Ok p, w') <->
             ImagesDir raw w = (Ok p, w')).
  { clear raw w. intros raw w p w'.
    unfold accounts_v0.ImagesDir, ImagesDir. rewrite !bind_Ok_iff.
    by setoid_rewrite Hdir. }
  splits; [apply Hdir | apply Hck | apply Himg |].
  intros w1 w2 meta H Hmeta.
  unfold accounts_v0.EnsureAccount in H. unfold EnsureAccount.
  apply bind_Ok_iff in H as (p & wa & Hc & H).
  apply bind_Ok_iff in H as (q & wb & Hi & H).
  unfold ret in H. injection H as <-.
  apply Hck in Hc. apply Himg in Hi.
  erewrite bind_Ok by done. erewrite bind_Ok by done.
  by erewrite bind_Ok by done.
Qed.

End VersionFacts.

(** ** The arguments of a tool call *)

Section ArgsFacts.
Import strings accounts main.

Lemma Resolve_trimmed (raw : string) :
  TrimSpace raw <> "" ->
  ResolveAccountID (TrimSpace raw)
  = if accountIDPattern_MatchString (TrimSpace raw) then Ok (TrimSpace raw)
    else Err (InvalidAccountID (TrimSpace raw)).
Proof.
  intros Hne. rewrite Resolve_sanitize. unfold sanitizeAccountID.
  rewrite TrimSpace_idem.
  destruct (String.eqb_spec (TrimSpace raw) ""); [done|].
  by destruct (accountIDPattern_MatchString (TrimSpace raw)).
Qed.

Lemma ResolveAccountID_matching (s : string) :
  accountIDPattern_MatchString s = true -> ResolveAccountID s = Ok s.
Proof.
  intros H. rewrite Resolve_sanitize.
  rewrite <- (TrimSpace_matching s H) at 2.
  apply sanitize_trimmed. by rewrite TrimSpace_matching.
Qed.

Lemma accountIDFromArgs_Ok (args : Args) (id : string) :
  accountIDFromArgs args = Ok id ->
  exists raw, index args "account_id" = Some (VString raw)
              /\ accountIDPattern_MatchString (TrimSpace raw) = true
              /\ id = TrimSpace raw.
Proof.
  unfold accountIDFromArgs, index. destruct args as [m|]; [|done].
  destruct (m !! "account_id") as [[raw|b|l|l|]|]; try done.
  destruct (String.eqb_spec (TrimSpace raw) "") as [Hb|Hb]; [done|].
  rewrite Resolve_trimmed by done.
  destruct (accountIDPattern_MatchString (TrimSpace raw)) eqn:Hm; [|done].
  intros [= <-]. by exists raw.
Qed.

Lemma stringFromArgs_trimmed (args : Args) (key : string) :
  TrimSpace (stringFromArgs args key) = stringFromArgs args key.
Proof.
  unfold stringFromArgs. destruct args as [m|]; [|done].
  destruct (m !! key) as [[s|b|l|l|]|]; try done. apply TrimSpace_idem.
Qed.

(** X10.  [accountIDFromArgs] asks for an explicit account.  It succeeds
    exactly when [account_id] is a string whose trimmed form matches the
    pattern of identifiers, and returns that form; a blank identifier is
    an error here and never the default account.  Its error is
    [ErrMissingAccountID] when the argument is absent, not a string or
    blank, and otherwise the error of [ResolveAccountID], which carries
    the trimmed identifier. *)
Theorem accountIDFromArgs_spec (args : Args) :
  (forall id, accountIDFromArgs args = Ok id <->
     exists raw, index args "account_id" = Some (VString raw)
                 /\ accountIDPattern_MatchString (TrimSpace raw) = true
                 /\ id = TrimSpace raw)
  /\ (accountIDFromArgs args = Err ErrMissingAccountID <->
      forall raw, index args "account_id" = Some (VString raw) ->
                  whitespace_only raw = true)
  /\ (forall e, accountIDFromArgs args = Err e ->
        e = ErrMissingAccountID
        \/ exists raw, index args "account_id" = Some (VString raw)
                       /\ whitespace_only raw = false
                       /\ e = InvalidAccountID (TrimSpace raw)).
Proof.
  unfold accountIDFromArgs, index. destruct args as [m|].
  2:{ splits; [|done|by intros e [= <-]; left]. intros id. split; [done|].
      by intros (? & ? & _). }
  destruct (m !! "account_id") as [[raw|b|l|l|]|] eqn:E;
    try (splits; [intros id; split; [done|by intros (? & ? & _)]
                 | done | by intros e [= <-]; left]).
  destruct (String.eqb_spec (TrimSpace raw) "") as [Hb|Hb].
  - pose proof (TrimSpace_empty_inv _ Hb) as Hws. splits.
    + intros id. split; [done|]. intros (raw' & [= <-] & Hm & _).
      rewrite Hb in Hm. done.
    + split; [|done]. by intros _ raw' [= <-].
    + intros e [= <-]. by left.
  - assert (Hws : whitespace_only raw = false).
    { destruct (whitespace_only raw) eqn:Hws; [|done].
      by rewrite TrimSpace_whitespace in Hb. }
    rewrite Resolve_trimmed by done.
    destruct (accountIDPattern_MatchString (TrimSpace raw)) eqn:Hm; splits.
    + intros id. split.
      * intros [= <-]. by exists raw.
      * by intros (raw' & [= <-] & _ & ->).
    + split; [done|]. intros H. specialize (H raw eq_refl). congruence.
    + done.
    + intros id. split; [done|]. intros (raw' & [= <-] & Hm' & _). congruence.
    + split; [done|]. intros H. specialize (H raw eq_refl). congruence.
    + intros e [= <-]. right. by exists raw.
Qed.

Lemma collect_values_spec (items : list (option string))
    (result : list string) :
  collect_values items result
  = result ++ filter (fun s => s <> "")
                     (map TrimSpace (omap (fun x => x) items)).
Proof.
  revert result. induction items as [|[s|] items IH]; intros result; simpl.
  - by rewrite app_nil_r.
  - rewrite filter_cons.
    destruct (String.eqb_spec (TrimSpace s) "") as [E|E]; simpl.
    + rewrite IH. by rewrite decide_False by (by intros ?).
    + rewrite IH, decide_True by done. by rewrite <- app_assoc.
  - apply IH.
Qed.

Lemma collect_strings_spec (items : list string) (result : list string) :
  collect_strings items result
  = result ++ filter (fun s => s <> "") (map TrimSpace items).
Proof.
  revert result. induction items as [|s items IH]; intros result; simpl.
  - by rewrite app_nil_r.
  - rewrite filter_cons.
    destruct (String.eqb_spec (TrimSpace s) "") as [E|E]; simpl.
    + rewrite IH. by rewrite decide_False by (by intros ?).
    + rewrite IH, decide_True by done. by rewrite <- app_assoc.
Qed.

Lemma trimmed_nonempty (l : list string) :
  Forall (fun s => s <> "" /\ TrimSpace s = s)
         (filter (fun s => s <> "") (map TrimSpace l)).
Proof.
  apply Forall_forall. intros s [Hne Hin]%list_elem_of_filter.
  split; [done|]. apply list_elem_of_fmap in Hin as (s0 & -> & _).
  apply TrimSpace_idem.
Qed.

(** X11.  What the handlers read from the arguments is normalised.  A string
    argument is returned trimmed, and is empty when the key is absent or
    the value is not a string.  A list argument is returned as the trimmed
    strings of the list that are not blank, in their order; items that are
    not strings are dropped; a [[]string] and a [[]interface{}] with the
    same strings give the same list; and the list is empty when the key is
    absent or the value is not a list. *)
Theorem arguments_are_normalised (args : Args) (key : string) :
  TrimSpace (stringFromArgs args key) = stringFromArgs args key
  /\ ((forall s, index args key <> Some (VString s)) ->
      stringFromArgs args key = "")
  /\ Forall (fun s => s <> "" /\ TrimSpace s = s)
            (stringSliceFromArgs args key)
  /\ (forall l, index args key = Some (VStrings l) ->
        stringSliceFromArgs args key
        = filter (fun s => s <> "") (map TrimSpace l))
  /\ (forall l, index args key = Some (VList l) ->
        stringSliceFromArgs args key
        = filter (fun s => s <> "") (map TrimSpace (omap (fun x => x) l)))
  /\ ((forall l, index args key <> Some (VStrings l)) ->
      (forall l, index args key <> Some (VList l)) ->
      stringSliceFromArgs args key = []).
Proof.
  unfold stringFromArgs, stringSliceFromArgs, index.
  destruct args as [m|]; [|by splits].
  destruct (m !! key) as [[s|b|l|l|]|]; splits; try done;
    try apply TrimSpace_idem;
    try (intros H; by (specialize (H s) || specialize (H l)));
    try (intros H1 H2; by (specialize (H1 l) || specialize (H2 l)));
    rewrite ?collect_values_spec, ?collect_strings_spec; cbn [app];
    try apply trimmed_nonempty; try by intros ? [= <-].
Qed.

End ArgsFacts.

(** ** The like and favorite tools *)

Section InteractHandlerFacts.
Import strings accounts service main.

Variable makeFeedDetailURL : string -> string -> string.
Variable json_noteDetailMap : string -> Result (gmap string (bool * bool)).
Variable json_ActionResult : xiaohongshu.ActionResult -> Result string.

Local Abbreviation handleLikeFeed :=
  (main.handleLikeFeed makeFeedDetailURL json_noteDetailMap json_ActionResult).
Local Abbreviation handleFavoriteFeed :=
  (main.handleFavoriteFeed makeFeedDetailURL json_noteDetailMap
     json_ActionResult).

Lemma try_inv {A} (c : Svc A) (pg : Page) (w w' : World) (h h' : list Event)
    (out : Outcome (Result A)) :
  try c pg w h = (out, w', h') ->
  (exists a, c pg w h = (Done a, w', h') /\ out = Done (Ok a))
  \/ (exists e, c pg w h = (Failed e, w', h') /\ out = Done (Err e))
  \/ (c pg w h = (Panicked, w', h') /\ out = Panicked).
Proof.
  unfold try. destruct (c pg w h) as [[[a|e|] w1] h1]; intros [= <- <- <-];
    eauto 10.
Qed.

Lemma interact_result_Success (c : Svc xiaohongshu.ActionResult)
    (feedID msg : string) (body : Svc unit) (pg : Page) (w w' : World)
    (h h' : list Event) (result : xiaohongshu.ActionResult) :
  c = (body ;;= svc_ret (xiaohongshu.mkActionResult feedID true msg)) ->
  c pg w h = (Done result, w', h') ->
  xiaohongshu.Success result = true /\ xiaohongshu.FeedID result = feedID.
Proof.
  intros -> H. unfold svc_bind, svc_ret in H.
  destruct (body pg w h) as [[[[]|e|] w1] h1]; by simplify_eq.
Qed.

(** X12.  The like and favorite tools check their arguments before they do
    anything, and turn every error into a result.  With no valid explicit
    account, a blank [feed_id] or a blank [xsec_token] the tool returns an
    error result and neither the account store nor a browser is touched.
    The tool itself never fails: an error of the service becomes an error
    result.  A result that is not an error result carries the JSON text of
    an action result with [Success] set, for the feed that was asked
    for. *)
Theorem interact_handlers_validate (args : Args) (pg : Page) (w : World)
    (h : list Event) :
  ((isOk (accountIDFromArgs args) = false
    \/ stringFromArgs args "feed_id" = ""
    \/ stringFromArgs args "xsec_token" = "") ->
   exists res res',
     handleLikeFeed args pg w h = (Done res, w, h) /\ IsError res = true
     /\ handleFavoriteFeed args pg w h = (Done res', w, h)
     /\ IsError res' = true)
  /\ (forall e, fst (fst (handleLikeFeed args pg w h)) <> Failed e)
  /\ (forall e, fst (fst (handleFavoriteFeed args pg w h)) <> Failed e)
  /\ (forall res w' h',
        (handleLikeFeed args pg w h = (Done res, w', h')
         \/ handleFavoriteFeed args pg w h = (Done res, w', h')) ->
        IsError res = false ->
        exists result text,
          json_ActionResult result = Ok text
          /\ res = text_result text false
          /\ xiaohongshu.Success result = true
          /\ xiaohongshu.FeedID result = stringFromArgs args "feed_id"
          /\ stringFromArgs args "feed_id" <> ""
          /\ stringFromArgs args "xsec_token" <> ""
          /\ isOk (accountIDFromArgs args) = true).
Proof.
  unfold main.handleLikeFeed, main.handleFavoriteFeed.
  destruct (accountIDFromArgs args) as [accountID|err] eqn:Hacc.
  2:{ splits; [intros _; by eexists _, _ | by intros e | by intros e |].
      intros res w' h' [H|H] He; unfold svc_ret in H; by simplify_eq. }
  destruct (String.eqb_spec (stringFromArgs args "feed_id") "") as [Hf|Hf].
  { splits; [intros _; by eexists _, _ | by intros e | by intros e |].
    intros res w' h' [H|H] He; unfold svc_ret in H; by simplify_eq. }
  destruct (String.eqb_spec (stringFromArgs args "xsec_token") "") as [Hx|Hx].
  { splits; [intros _; by eexists _, _ | by intros e | by intros e |].
    intros res w' h' [H|H] He; unfold svc_ret in H; by simplify_eq. }
  splits.
  - by intros [|[|]].
  - intros e. unfold svc_bind, log_account, emit.
    destruct (try _ pg w _) as [[out w1] h1] eqn:Ht.
    apply try_inv in Ht as [(a & _ & ->)|[(e' & _ & ->)|[_ ->]]]; cbn;
      [|done|done].
    by destruct (json_ActionResult a).
  - intros e. unfold svc_bind, log_account, emit.
    destruct (try _ pg w _) as [[out w1] h1] eqn:Ht.
    apply try_inv in Ht as [(a & _ & ->)|[(e' & _ & ->)|[_ ->]]]; cbn;
      [|done|done].
    by destruct (json_ActionResult a).
  - intros res w' h' H He.
    assert (exists (c : Svc xiaohongshu.ActionResult) (body : Svc unit) msg
                   result w1 h1 h0,
               c = (body ;;= svc_ret (xiaohongshu.mkActionResult
                                        (stringFromArgs args "feed_id") true msg))
               /\ c pg w h0 = (Done result, w1, h1)
               /\ match json_ActionResult result with
                  | Ok jsonData => res = text_result jsonData false
                  | Err _ => IsError res = true
                  end) as (c & body & msg & result & w1 & h1 & h0 & Hc & Hrun & Hres).
    { destruct H as [H|H]; unfold svc_bind at 1, log_account, emit in H;
        unfold svc_bind at 1 in H;
        destruct (try _ pg w _) as [[out w1] h1] eqn:Ht;
        apply try_inv in Ht as [(a & Ha & ->)|[(e' & _ & ->)|[_ ->]]];
        try (unfold svc_ret in H; by simplify_eq).
      - destruct (boolFromArgs args "unlike");
          (eexists _, _, _, a, w1, h1, _; split; [reflexivity|]; split; [exact Ha|]);
          destruct (json_ActionResult a); unfold svc_ret in H; by simplify_eq.
      - destruct (boolFromArgs args "unfavorite");
          (eexists _, _, _, a, w1, h1, _; split; [reflexivity|]; split; [exact Ha|]);
          destruct (json_ActionResult a); unfold svc_ret in H; by simplify_eq. }
    destruct (interact_result_Success _ _ _ _ _ _ _ _ _ _ Hc Hrun) as [Hs Hfid].
    exists result. destruct (json_ActionResult result) as [text|e]; [|congruence].
    by exists text.
Qed.

End InteractHandlerFacts.

Section FlagFacts.
Import strings accounts service main.

Variable makeFeedDetailURL : string -> string -> string.
Variable json_noteDetailMap : string -> Result (gmap string (bool * bool)).
Variable json_ActionResult : xiaohongshu.ActionResult -> Result string.


End FlagFacts.



(** ** One account at a time *)

Section IsolationFacts.
Import os accounts.

Lemma EnsureAccount_but (raw id : string) (root : path) (w w' : World)
    (r : Result unit) :
  sanitizeAccountID raw = Ok id -> accounts_root w = Some root ->
  EnsureAccount raw w = (r, w') ->
  extends_but (root ++ [id; metaFileName]) w w'.
Proof.
  intros Hs Hr H. unfold EnsureAccount in H.
  pose (p := root ++ [id; metaFileName]). fold p.
  eapply (bind_step _ (extends_but_trans p)); [exact H| |]; clear H.
  { intros. by eapply extends_extends_but, CookiesPath_extends. }
  intros a w1 H1 _ H. cbv beta in H.
  eapply (bind_step _ (extends_but_trans p)); [exact H| |]; clear H.
  { intros. by eapply extends_extends_but, ImagesDir_extends. }
  intros a2 w2 H2 _ H. cbv beta in H.
  eapply (bind_step _ (extends_but_trans p)); [exact H| |]; clear H.
  - intros r3 w3 H3. eapply ensureMeta_but; [done| |done].
    rewrite (keeps_root _ _ (ImagesDir_keeps _ _ _ _ H2)).
    by rewrite (keeps_root _ _ (CookiesPath_keeps _ _ _ _ H1)).
  - intros ? ? _ _ H. exact (ret_step _ (extends_but_refl p) _ _ _ _ H).
Qed.

Lemma SetAccountRemark_but (raw remark id : string) (root : path)
    (w w' : World) (r : Result AccountInfo) :
  sanitizeAccountID raw = Ok id -> accounts_root w = Some root ->
  SetAccountRemark raw remark w = (r, w') ->
  extends_but (root ++ [id; metaFileName]) w w'.
Proof.
  intros Hs Hr H. unfold SetAccountRemark in H.
  rewrite Resolve_sanitize, Hs in H.
  pose proof (sanitize_canonical _ _ Hs) as Hcan.
  pose (p := root ++ [id; metaFileName]). fold p.
  eapply (bind_step _ (extends_but_trans p)); [exact H| |]; clear H.
  { intros. by eapply EnsureAccount_but. }
  intros a w1 H1 _ H. cbv beta in H.
  pose proof (keeps_root _ _ (EnsureAccount_keeps _ _ _ _ H1)) as Hr1.
  eapply (bind_step _ (extends_but_trans p)); [exact H| |]; clear H.
  { intros. by eapply extends_extends_but, metaPath_extends. }
  intros p' w2 H2 _ H. cbv beta in H.
  pose proof (keeps_root _ _ (metaPath_keeps _ _ _ _ H2)) as Hr2.
  apply metaPath_spec in H2 as (id' & root' & Hs' & Hr' & -> & _ & _).
  rewrite Hcan in Hs'. injection Hs' as <-.
  rewrite Hr1, Hr in Hr'. injection Hr' as <-. rewrite app_snoc2 in H.
  fold p in H.
  eapply (bind_step _ (extends_but_trans p)); [exact H| |]; clear H.
  { intros r3 w3 H3. eapply ensureMeta_but; [done| |done].
    by rewrite Hr2, Hr1. }
  intros meta w3 _ _ H. cbv beta in H.
  eapply (bind_step _ (extends_but_trans p)); [exact H| |]; clear H.
  { intros. by eapply extends_extends_but, time_Now_extends. }
  intros now w4 _ _ H. cbv beta in H.
  eapply (bind_step _ (extends_but_trans p)); [exact H| |]; clear H.
  { intros. by eapply saveAccountMeta_but. }
  intros ? ? _ _ H. exact (ret_step _ (extends_but_refl p) _ _ _ _ H).
Qed.

(** X14.  One account at a time.  [EnsureAccount] and [SetAccountRemark] for
    an account change no entry of the file system that exists, the
    [meta.json] of that account apart, whatever their outcome: not the
    metadata, the cookie bundle or the images of any other account, and not
    the cookie bundle or the images of the account itself. *)
Theorem account_isolation (raw id : string) (root : path) (w : World) :
  sanitizeAccountID raw = Ok id -> accounts_root w = Some root ->
  (forall r w' q n,
     EnsureAccount raw w = (r, w') -> fs w !! q = Some n ->
     q <> root ++ [id; metaFileName] -> fs w' !! q = Some n)
  /\ (forall remark r w' q n,
        SetAccountRemark raw remark w = (r, w') -> fs w !! q = Some n ->
        q <> root ++ [id; metaFileName] -> fs w' !! q = Some n).
Proof.
  intros Hs Hr. split.
  - intros r w' q n H. by apply (EnsureAccount_but _ _ _ _ _ _ Hs Hr H).
  - intros remark r w' q n H.
    by apply (SetAccountRemark_but _ _ _ _ _ _ _ Hs Hr H).
Qed.

Lemma account_isolation_witness :
  (forall r w' q n,
     EnsureAccount "alice" damaged_world = (r, w') ->
     fs damaged_world !! q = Some n ->
     q <> ["srv"; "xhs"; "accounts"] ++ ["alice"; metaFileName] ->
     fs w' !! q = Some n)
  /\ (forall remark r w' q n,
        SetAccountRemark "alice" remark damaged_world = (r, w') ->
        fs damaged_world !! q = Some n ->
        q <> ["srv"; "xhs"; "accounts"] ++ ["alice"; metaFileName] ->
        fs w' !! q = Some n).
Proof.
  apply (account_isolation "alice" "alice" ["srv"; "xhs"; "accounts"]
           damaged_world); vm_compute; reflexivity.
Defined.

End IsolationFacts.

(** ** The two front ends *)

Section FrontEndFacts.
Import strings accounts main.

(** X15.  The HTTP handlers and the MCP tools accept the same account
    identifiers and resolve them to the same value.  [resolveAccountID]
    succeeds exactly when [accountIDFromArgs] does on the same string, with
    the same identifier, and then writes nothing.  When it does not
    succeed it returns the empty identifier and writes one response with
    status 400, whose code is [MISSING_ACCOUNT_ID] exactly when the string
    is blank and [INVALID_ACCOUNT_ID] otherwise.  A request without the
    query parameter [account_id] is answered in the first way. *)
Theorem front_ends_agree (raw : string) (c : GinContext) :
  (ReqQuery c !! "account_id" = None ->
   fst (accountIDFromQuery c) = ("", false)
   /\ exists message details,
        Written (snd (accountIDFromQuery c))
        = (400, ErrorBody message "MISSING_ACCOUNT_ID" details) :: Written c)
  /\ (forall id, fst (resolveAccountID raw c) = (id, true) <->
              accountIDFromArgs (Some {[ "account_id" := VString raw ]})
              = Ok id)
  /\ (snd (fst (resolveAccountID raw c)) = true ->
      snd (resolveAccountID raw c) = c)
  /\ (snd (fst (resolveAccountID raw c)) = false ->
      fst (fst (resolveAccountID raw c)) = ""
      /\ exists message code details,
           Written (snd (resolveAccountID raw c))
           = (400, ErrorBody message code details) :: Written c
           /\ (code = "MISSING_ACCOUNT_ID" \/ code = "INVALID_ACCOUNT_ID")
           /\ (code = "MISSING_ACCOUNT_ID" <-> whitespace_only raw = true)).
Proof.
  split.
  { intros Hq. unfold accountIDFromQuery, Query. rewrite Hq.
    split; [done|]. by eexists _, _. }
  unfold resolveAccountID, accountIDFromArgs.
  rewrite lookup_singleton_eq.
  destruct (String.eqb_spec (TrimSpace raw) "") as [Hb|Hb]; cbn [fst snd].
  - splits; try done.
    intros _. split; [done|]. eexists _, _, _. split; [reflexivity|].
    split; [by left|]. split; [|done]. intros _. by apply TrimSpace_empty_inv.
  - destruct (ResolveAccountID (TrimSpace raw)) as [id|e]; cbn [fst snd].
    + splits; try done. intros id'. split; by intros [= ->].
    + splits; try done.
      intros _. split; [done|]. eexists _, _, _. split; [reflexivity|].
      split; [by right|]. split; [done|].
      intros Hws. by rewrite TrimSpace_whitespace in Hb.
Qed.

End FrontEndFacts.

(** ** Setting a remark through the two front ends *)

Section RemarkHandlerFacts.
Import strings accounts main.

Variable json_AccountInfo : AccountInfo -> Result string.

(** X16.  Setting a remark through a tool call and through HTTP.  The MCP
    tool asks for an explicit account: without one it returns an error
    result and leaves the store alone; a result that is not an error
    carries the JSON text of the account information that
    [SetAccountRemark] returned for the trimmed identifier and the trimmed
    remark.  The HTTP handler passes the identifier of the payload to
    [SetAccountRemark] as it is: an identifier of white space only
    updates the default account, and an invalid identifier is answered
    with status 500 and
    code [SET_ACCOUNT_REMARK_FAILED] (not with 400), the store being left
    alone.  The handler answers 200 exactly when [SetAccountRemark]
    succeeds. *)
Theorem remark_front_ends :
  (forall args w e,
     accountIDFromArgs args = Err e ->
     handleSetAccountRemark json_AccountInfo args w
     = (Ok (accountErrorResult e), w))
  /\ (forall args w res w',
        handleSetAccountRemark json_AccountInfo args w = (Ok res, w') ->
        IsError res = false ->
        exists raw info text,
          index args "account_id" = Some (VString raw)
          /\ SetAccountRemark (TrimSpace raw) (stringFromArgs args "remark") w
             = (Ok info, w')
          /\ ID info = TrimSpace raw
          /\ InfoRemark info = stringFromArgs args "remark"
          /\ json_AccountInfo info = Ok text
          /\ res = text_result text false)
  /\ (forall payload w c,
        exists status body,
          Written (snd (setAccountRemarkHandler (Ok payload) w c))
          = (status, body) :: Written c
          /\ (status = 200 <->
              isOk (fst (SetAccountRemark (PayloadAccountID payload)
                           (PayloadRemark payload) w)) = true)
          /\ (forall e,
                ResolveAccountID (PayloadAccountID payload) = Err e ->
                status = 500
                /\ body = ErrorBody "更新账号备注失败"
                                    "SET_ACCOUNT_REMARK_FAILED" (Error e)
                /\ fst (setAccountRemarkHandler (Ok payload) w c) = w)
          /\ (whitespace_only (PayloadAccountID payload) = true ->
              status = 200 ->
              exists info message,
                body = SuccessBody (DataAccountInfo info) message
                /\ ID info = defaultAccountID)).
Proof.
  splits.
  - intros args w e H. unfold handleSetAccountRemark. by rewrite H.
  - intros args w res w' H He. unfold handleSetAccountRemark in H.
    destruct (accountIDFromArgs args) as [accountID|e] eqn:Hacc.
    2:{ unfold ret in H. by simplify_eq. }
    apply accountIDFromArgs_Ok in Hacc as (raw & Hidx & Hm & ->).
    destruct (SetAccountRemark _ _ w) as [[info|e] w1] eqn:Hset;
      [|by simplify_eq].
    destruct (json_AccountInfo info) as [text|e] eqn:Hj; [|by simplify_eq].
    injection H as <- <-.
    apply SetAccountRemark_inv in Hset as Hinv.
    destruct Hinv as (id & Hres & Hid & Hrem & _).
    exists raw, info, text. splits; try done.
    + rewrite Hid. apply ResolveAccountID_matching in Hm. congruence.
    + rewrite Hrem. by apply stringFromArgs_trimmed.
  - intros payload w c. unfold setAccountRemarkHandler.
    destruct (SetAccountRemark _ _ w) as [[info|e] w1] eqn:Hset; cbn [fst snd].
    + exists 200, (SuccessBody (DataAccountInfo info) "更新账号备注成功").
      splits; try done.
      * intros e He. unfold SetAccountRemark in Hset. by rewrite He in Hset.
      * intros Hws _. exists info, "更新账号备注成功". split; [done|].
        apply SetAccountRemark_inv in Hset as (id & Hres & Hid & _).
        rewrite Resolve_sanitize, sanitize_default in Hres by done.
        congruence.
    + exists 500, (ErrorBody "更新账号备注失败" "SET_ACCOUNT_REMARK_FAILED"
                             (Error e)).
      splits; try done.
      * intros e' He. unfold SetAccountRemark in Hset. rewrite He in Hset.
        unfold fail in Hset. by simplify_eq.
Qed.

End RemarkHandlerFacts.

(** ** The browser of a service call *)

Section BrowserFacts.
Import os accounts service.

Lemma NewBrowser_cookies (root : path) (id : string) (pg : Page) (w : World)
    (h : list Event) :
  all_dirs [] (root ++ [id]) (fs w) ->
  exists logs,
    NewBrowser (root ++ [id; cookiesFileName]) pg w h
    = (Done tt, w,
       EvNewBrowser (cookie_bundle w (root ++ [id; cookiesFileName]))
       :: logs ++ h)
    /\ Forall is_log logs
    /\ (logs = [] <-> fs w !! (root ++ [id; cookiesFileName]) <> Some Dir).
Proof.
  intros Ha. unfold NewBrowser, cookie_bundle. rewrite <- app_snoc2.
  rewrite parent_snoc, MkdirAll_noop, set_fs_same by done.
  rewrite Stat_entry, ReadFile_entry by done.
  destruct (fs w !! ((root ++ [id]) ++ [cookiesFileName])) as [[|d]|];
    cbn [IsNotExist].
  - eexists [_]. split; [reflexivity|]. split; [by repeat constructor|].
    split; [done|]. by intros [].
  - exists []. by splits.
  - exists []. by splits.
Qed.

Lemma newBrowser_run (acc : string) (pg : Page) (w w' : World)
    (h h' : list Event) (out : Outcome unit) :
  newBrowser acc pg w h = (out, w', h') ->
  match out with
  | Done _ =>
    exists p logs,
      CookiesPath acc w = (Ok p, w')
      /\ h' = EvNewBrowser (cookie_bundle w' p) :: logs ++ h
      /\ Forall is_log logs
  | Failed e => CookiesPath acc w = (Err e, w') /\ h' = h
  | Panicked => False
  end.
Proof.
  unfold newBrowser, svc_bind, lift_io.
  destruct (CookiesPath acc w) as [[p|e] w1] eqn:Hc.
  - pose proof Hc as (id & root & Hs & Hr & -> & G & Ha)%CookiesPath_spec.
    destruct (NewBrowser_cookies root id pg w1 h Ha) as (logs & -> & Hl & Hd).
    intros [= <- <- <-]. by exists (root ++ [id; cookiesFileName]), logs.
  - by intros [= <- <- <-].
Qed.



Lemma with_page_cases {A} (acc : string) (body : Act A) (pg : Page)
    (w w' : World) (h h' : list Event) (out : Outcome A) :
  with_page acc body pg w h = (out, w', h') ->
  (exists e, CookiesPath acc w = (Err e, w') /\ out = Failed e /\ h' = h)
  \/ (exists p logs h1,
        CookiesPath acc w = (Ok p, w')
        /\ Forall is_log logs
        /\ body pg (EvNewPage :: EvNewBrowser (cookie_bundle w' p)
                    :: logs ++ h) = (out, h1)
        /\ h' = EvBrowserClose :: EvPageClose :: h1).
Proof.
  unfold with_page. unfold svc_bind at 1.
  destruct (newBrowser acc pg w h) as [[o w1] h1] eqn:Hn.
  pose proof (newBrowser_run acc pg w w1 h h1 o Hn) as Hrun.
  destruct o as [[]|e|].
  - destruct Hrun as (p & logs & Hc & -> & Hl).
    unfold svc_bind, emit.
    destruct (body pg _) as [o2 h2] eqn:Hb.
    intros [= <- <- <-]. right. by exists p, logs, h2.
  - destruct Hrun as [Hc ->]. intros [= <- <- <-]. left. by exists e.
  - done.
Qed.

End BrowserFacts.

(** ** Service calls *)

Section ServiceCallFacts.
Import os accounts service main.

Variable makeFeedDetailURL : string -> string -> string.
Variable json_noteDetailMap : string -> Result (gmap string (bool * bool)).
Variable Feed : Type.
Variable json_searchFeeds : string -> Result (list Feed).
Variable url_QueryEscape : string -> string.



End ServiceCallFacts.

Section PublishOrderFacts.
Import os accounts service.

Variable StringWidth : string -> Z.

(** X19.  The order of a publish call.  The title is checked first, the images
    are processed next, and the browser is started last: when the
    processing of the images fails, the call fails with that error and no
    browser was started.  A response is returned only for a title of
    width 40 at most, after the images were processed and the publish
    action got the processed paths; it repeats the title and the content
    of the request and counts the processed images. *)
Theorem PublishContent_order (acc : string) (req : PublishRequest)
    (pg : Page) (w w' : World) (h h' : list Event)
    (out : Outcome PublishResponse) :
  PublishContent StringWidth acc req pg w h = (out, w', h') ->
  (forall resp, out = Done resp ->
     StringWidth (Title req) <= 40
     /\ RespTitle resp = Title req /\ RespContent resp = Content req
     /\ Status resp = "发布完成"
     /\ exists dir w1 paths h0,
          ImagesDir acc w = (Ok dir, w1)
          /\ on_ProcessImages pg h dir (Images req) = Ok paths
          /\ RespImages resp = length paths
          /\ on_PublishImage pg h0 (Title req) (Content req) (Tags req) paths
             = Done tt)
  /\ (forall dir w1 e,
        StringWidth (Title req) <= 40 ->
        ImagesDir acc w = (Ok dir, w1) ->
        on_ProcessImages pg h dir (Images req) = Err e ->
        out = Failed e /\ w' = w1
        /\ h' = EvProcessImages dir (Images req) (Err e) :: h).
Proof.
  unfold PublishContent.
  destruct (Z.ltb_spec 40 (StringWidth (Title req))) as [Hw|Hw].
  { unfold svc_fail. intros [= <- <- <-]. split; [done|]. lia. }
  unfold publish_checked, processImages, svc_bind, lift_io.
  destruct (ImagesDir acc w) as [[dir|e] w1] eqn:Hi.
  2:{ intros [= <- <- <-]. by split. }
  destruct (on_ProcessImages pg h dir (Images req)) as [paths|e] eqn:Hp.
  2:{ intros [= <- <- <-]. split; [done|].
      intros dir' w1' e' _ [= <- <-] He. rewrite Hp in He.
      by simplify_eq. }
  unfold publishContent.
  destruct (with_page acc _ pg w1 _) as [[o w2] h2] eqn:Hrun.
  apply with_page_cases in Hrun
    as [(e & _ & -> & ->)|(p & logs & h1 & _ & Hl & Hb & ->)].
  { intros [= <- <- <-]. split; [done|].
    intros dir' w1' e' _ [= <- <-] He. rewrite Hp in He.
      by simplify_eq. }
  injection Hb as Ho _.
  destruct o as [[]|e|]; intros [= <- <- <-];
    (split; [|intros dir' w1' e' _ [= <- <-] He; rewrite Hp in He;
             by simplify_eq]); try done.
  intros resp [= <-]. cbn. splits; try done.
  by eexists dir, w1, paths, _.
Qed.

End PublishOrderFacts.

Lemma PublishContent_order_witness :
  exists out w' h',
    service.PublishContent service.StringWidth "alice"
      (service.mkPublishRequest "hello" "world" ["a.png"] ["tag"])
      (demo_page [] "" 0 []) fresh_world [] = (out, w', h')
    /\ (forall resp, out = Done resp ->
          service.StringWidth "hello" <= 40
          /\ service.RespTitle resp = "hello"
          /\ service.RespContent resp = "world"
          /\ service.Status resp = "发布完成"
          /\ exists dir w1 paths h0,
               accounts.ImagesDir "alice" fresh_world = (Ok dir, w1)
               /\ on_ProcessImages (demo_page [] "" 0 []) [] dir ["a.png"]
                  = Ok paths
               /\ service.RespImages resp = length paths
               /\ on_PublishImage (demo_page [] "" 0 []) h0 "hello" "world"
                    ["tag"] paths = Done tt)
    /\ (forall dir w1 e,
          service.StringWidth "hello" <= 40 ->
          accounts.ImagesDir "alice" fresh_world = (Ok dir, w1) ->
          on_ProcessImages (demo_page [] "" 0 []) [] dir ["a.png"] = Err e ->
          out = Failed e /\ w' = w1
          /\ h' = EvProcessImages dir ["a.png"] (Err e) :: []).
Proof.
  eexists _, _, _. split; [vm_compute; reflexivity|].
  apply (PublishContent_order service.StringWidth "alice"
           (service.mkPublishRequest "hello" "world" ["a.png"] ["tag"])
           (demo_page [] "" 0 []) fresh_world).
  vm_compute; reflexivity.
Defined.

(** ** The search and publish tools *)

Ltac not_success :=
  let H := fresh in
  let Hf := fresh in
  intros ? ? ? H Hf; unfold service.svc_ret in H;
  solve [ simplify_eq; try (cbn in Hf; done) ].

Section SearchToolFacts.
Import strings accounts service main.

Variable Feed : Type.
Variable json_searchFeeds : string -> Result (list Feed).
Variable url_QueryEscape : string -> string.
Variable json_FeedsListResponse : FeedsListResponse Feed -> Result string.

Local Abbreviation handleSearchFeeds :=
  (main.handleSearchFeeds Feed json_searchFeeds url_QueryEscape
     json_FeedsListResponse).

Local Abbreviation filters_of args :=
  (search.NewSearchFilters
     (stringFromArgs args "sort") (stringFromArgs args "note_type")
     (stringFromArgs args "publish_time") (stringFromArgs args "search_scope")
     (stringFromArgs args "distance")).

(** X20.  The search tool checks its arguments before it starts a browser, and
    turns every error into a result.  Without a valid explicit account
    the tool does nothing at all; with a keyword that is absent, not a
    string or empty, or with a filter value that [NewSearchFilters]
    rejects, it returns an error result (with the message of
    [NewSearchFilters] in the second case), and all that happened is
    logging: the store is as it was and no browser was started.  The tool
    itself never fails.  A result that is not an error result carries the
    JSON text of a response whose count is the number of its feeds. *)
Theorem search_tool_validates (args : Args) (pg : Page) (w : World)
    (h : list Event) :
  (forall e, fst (fst (handleSearchFeeds args pg w h)) <> Failed e)
  /\ (forall err, accountIDFromArgs args = Err err ->
        handleSearchFeeds args pg w h = (Done (accountErrorResult err), w, h))
  /\ (forall acc,
        accountIDFromArgs args = Ok acc ->
        (forall k, index args "keyword" = Some (VString k) -> k = "") ->
        exists res logs,
          handleSearchFeeds args pg w h = (Done res, w, logs ++ h)
          /\ IsError res = true /\ Forall is_log logs)
  /\ (forall acc k err,
        accountIDFromArgs args = Ok acc ->
        index args "keyword" = Some (VString k) -> k <> "" ->
        filters_of args = Err err ->
        exists logs,
          handleSearchFeeds args pg w h
          = (Done (text_result ("搜索Feeds失败: " +:+ Error err) true), w,
             logs ++ h)
          /\ Forall is_log logs)
  /\ (forall res w' h',
        handleSearchFeeds args pg w h = (Done res, w', h') ->
        IsError res = false ->
        exists acc k filters result text,
          accountIDFromArgs args = Ok acc
          /\ index args "keyword" = Some (VString k) /\ k <> ""
          /\ filters_of args = Ok filters
          /\ json_FeedsListResponse result = Ok text
          /\ res = text_result text false
          /\ Count Feed result = length (Feeds Feed result)).
Proof.
  unfold main.handleSearchFeeds.
  destruct (accountIDFromArgs args) as [acc|err0] eqn:Hacc.
  2:{ splits; try done.
      - by intros err [= <-].
      - not_success. }
  unfold svc_bind, log_account, emit.
  destruct (index args "keyword") as [v|] eqn:Hk.
  2:{ cbn. splits; try done.
      - intros acc' _ _. eexists _, [_]. split; [reflexivity|].
        split; [done|]. by repeat constructor.
      - not_success. }
  destruct v as [k|b|l|l|];
    try (cbn; splits; try done;
         [ intros acc' _ _; eexists _, [_]; split; [reflexivity|];
           split; [done|]; by repeat constructor
         | not_success ]).
  destruct (String.eqb_spec k "") as [->|Hne].
  { cbn. splits; try done.
    - intros acc' _ _. eexists _, [_]. split; [reflexivity|].
      split; [done|]. by repeat constructor.
    - by intros acc' k' err _ [= <-].
    - not_success. }
  unfold svc_bind, log_account, emit.
  destruct (filters_of args) as [filters|err0] eqn:Hf.
  2:{ cbn. splits; try done.
      - intros acc' _ H. by specialize (H k eq_refl).
      - intros acc' k' err _ _ _ [= <-]. eexists [_; _].
        split; [reflexivity|]. by repeat constructor.
      - not_success. }
  destruct (try _ pg w _) as [[out w1] h1] eqn:Ht.
  apply try_inv in Ht as [(a & Ha & ->)|[(e' & _ & ->)|[_ ->]]].
  - destruct (json_FeedsListResponse a) as [text|e] eqn:Hj; cbn.
    + splits; try done.
      * intros acc' _ H. by specialize (H k eq_refl).
      * intros res w' h' [= <- <- <-] _.
        exists acc, k, filters, a, text. splits; try done.
        unfold SearchFeeds, svc_bind, svc_ret in Ha.
        destruct (with_page _ _ _ _ _) as [[[feeds|?|] ?] ?]; by simplify_eq.
    + splits; try done.
      * intros acc' _ H. by specialize (H k eq_refl).
      * not_success.
  - cbn. splits; try done.
    + intros acc' _ H. by specialize (H k eq_refl).
    + not_success.
  - cbn. splits; try done.
    intros acc' _ H. by specialize (H k eq_refl).
Qed.

End SearchToolFacts.

Section PublishToolFacts.
Import strings accounts service main.

Variable StringWidth : string -> Z.
Variable fmt_PublishResponse : PublishResponse -> string.

Local Abbreviation handlePublishContent :=
  (main.handlePublishContent StringWidth fmt_PublishResponse).

(** X21.  The publish tool checks its arguments before it does anything, and
    turns every error into a result.  Without a valid explicit account it
    does nothing at all.  With a blank title, a blank content, or no image
    that is not blank, it returns an error result, and so it does for a
    title wider than 40, with the message of the title check; in these
    cases all that happened is logging: the store is as it was, no image
    was processed and no browser was started.  The tool itself never
    fails, and a result that is not an error result reports a publish call
    that returned a response for a title of width 40 at most. *)
Theorem publish_tool_validates (args : Args) (pg : Page) (w : World)
    (h : list Event) :
  (forall e, fst (fst (handlePublishContent args pg w h)) <> Failed e)
  /\ (forall err, accountIDFromArgs args = Err err ->
        handlePublishContent args pg w h
        = (Done (accountErrorResult err), w, h))
  /\ (forall acc,
        accountIDFromArgs args = Ok acc ->
        stringFromArgs args "title" = ""
        \/ stringFromArgs args "content" = ""
        \/ stringSliceFromArgs args "images" = [] ->
        exists res logs,
          handlePublishContent args pg w h = (Done res, w, logs ++ h)
          /\ IsError res = true /\ Forall is_log logs)
  /\ (forall acc,
        accountIDFromArgs args = Ok acc ->
        stringFromArgs args "title" <> "" ->
        stringFromArgs args "content" <> "" ->
        stringSliceFromArgs args "images" <> [] ->
        40 < StringWidth (stringFromArgs args "title") ->
        exists logs,
          handlePublishContent args pg w h
          = (Done (text_result ("发布失败: " +:+ Error TitleTooLong) true), w,
             logs ++ h)
          /\ Forall is_log logs)
  /\ (forall res w' h',
        handlePublishContent args pg w h = (Done res, w', h') ->
        IsError res = false ->
        StringWidth (stringFromArgs args "title") <= 40
        /\ stringFromArgs args "title" <> ""
        /\ stringFromArgs args "content" <> ""
        /\ stringSliceFromArgs args "images" <> []
        /\ exists acc resp,
             accountIDFromArgs args = Ok acc
             /\ RespTitle resp = stringFromArgs args "title"
             /\ res = text_result ("内容发布成功: " +:+ fmt_PublishResponse resp)
                                  false).
Proof.
  unfold main.handlePublishContent.
  destruct (accountIDFromArgs args) as [acc|err0] eqn:Hacc.
  2:{ splits; try done.
      - by intros err [= <-].
      - not_success. }
  unfold svc_bind, log_account, emit.
  destruct (String.eqb_spec (stringFromArgs args "title") "") as [Ht|Ht].
  { cbn. splits; try done.
    - intros acc' _ _. eexists _, [_]. split; [reflexivity|].
      split; [done|]. by repeat constructor.
    - not_success. }
  destruct (String.eqb_spec (stringFromArgs args "content") "") as [Hc|Hc].
  { cbn. splits; try done.
    - intros acc' _ _. eexists _, [_]. split; [reflexivity|].
      split; [done|]. by repeat constructor.
    - not_success. }
  destruct (stringSliceFromArgs args "images") as [|img imgs] eqn:Hi.
  { cbn. splits; try done.
    - intros acc' _ _. eexists _, [_]. split; [reflexivity|].
      split; [done|]. by repeat constructor.
    - not_success. }
  cbn [length Nat.eqb].
  unfold svc_bind, log_account, emit.
  destruct (try _ pg w _) as [[out w1] h1] eqn:Htry.
  apply try_inv in Htry as [(a & Ha & ->)|[(e' & He & ->)|[Hp ->]]].
  - cbn. splits; try done.
    + by intros acc' _ [|[|]].
    + intros acc' _ _ _ _ Hw. unfold PublishContent in Ha.
      cbn [Title] in Ha. apply Z.ltb_lt in Hw. rewrite Hw in Ha. done.
    + intros res w' h' [= <- <- <-] _.
      unfold PublishContent in Ha. cbn [Title] in Ha.
      destruct (Z.ltb_spec 40 (StringWidth (stringFromArgs args "title")))
        as [Hw|Hw]; [done|].
      splits; try done. exists acc, a. splits; try done.
      unfold publish_checked, svc_bind, svc_ret in Ha.
      destruct (processImages _ _ _ _ _) as [[[paths|?|] ?] ?]; [|done|done].
      destruct (publishContent _ _ _ _ _ _ _ _) as [[[[]|?|] ?] ?];
        by simplify_eq.
  - cbn. splits; try done.
    + by intros acc' _ [|[|]].
    + intros acc' _ _ _ _ Hw. unfold PublishContent in He.
      cbn [Title] in He. apply Z.ltb_lt in Hw. rewrite Hw in He.
      unfold svc_fail in He. injection He as <- <- <-.
      eexists [_; _]. split; [reflexivity|]. by repeat constructor.
    + not_success.
  - cbn. splits; try done.
    + by intros acc' _ [|[|]].
    + intros acc' _ _ _ _ Hw. unfold PublishContent in Hp.
      cbn [Title] in Hp. apply Z.ltb_lt in Hw. by rewrite Hw in Hp.
Qed.

End PublishToolFacts.

(** ** The filter panel *)

Section FilterPanelFacts.
Import strings search.



(** X23.  The labels of validated filters.  For filters that [NewSearchFilters]
    returned, every field is a key of the table of its group, so the label
    that [applySearchFilters] looks for in the panel is the entry of the
    table, never the empty string of a missing key; and the filters are
    the default ones exactly when every given value was empty or the
    default of its field. *)
Theorem validated_filters_have_labels (sort noteType publishTime searchScope
    distance : string) (f : SearchFilters) :
  NewSearchFilters sort noteType publishTime searchScope distance = Ok f ->
  (sortOptionLabels !! Sort f = Some (label_of sortOptionLabels (Sort f))
   /\ label_of sortOptionLabels (Sort f) <> "")
  /\ (noteTypeLabels !! NoteType f
      = Some (label_of noteTypeLabels (NoteType f))
      /\ label_of noteTypeLabels (NoteType f) <> "")
  /\ (publishTimeLabels !! PublishTime f
      = Some (label_of publishTimeLabels (PublishTime f))
      /\ label_of publishTimeLabels (PublishTime f) <> "")
  /\ (searchScopeLabels !! SearchScope f
      = Some (label_of searchScopeLabels (SearchScope f))
      /\ label_of searchScopeLabels (SearchScope f) <> "")
  /\ (distanceLabels !! Distance f
      = Some (label_of distanceLabels (Distance f))
      /\ label_of distanceLabels (Distance f) <> "")
  /\ (isDefault (Some f) = true <->
      or_default SortDefault sort = SortDefault
      /\ or_default NoteTypeAll noteType = NoteTypeAll
      /\ or_default PublishAll publishTime = PublishAll
      /\ or_default ScopeAll searchScope = ScopeAll
      /\ or_default DistanceAll distance = DistanceAll).
Proof.
  rewrite NewSearchFilters_unfold. cbn zeta.
  repeat (case_bool_decide; [|done]). cbn [negb]. intros [= <-].
  cbn [Sort NoteType PublishTime SearchScope Distance isDefault].
  splits.
  all: try match goal with
       | H : ?k ∈ _ |- context [label_of _ ?k] =>
         repeat (apply elem_of_cons in H as [->|H]; [by vm_compute|]);
         by apply elem_of_nil in H
       end.
  rewrite !andb_true_iff, !String.eqb_eq. tauto.
Qed.

Lemma validated_filters_have_labels_witness :
  (sortOptionLabels !! "latest" = Some (label_of sortOptionLabels "latest")
   /\ label_of sortOptionLabels "latest" <> "")
  /\ (noteTypeLabels !! "all" = Some (label_of noteTypeLabels "all")
      /\ label_of noteTypeLabels "all" <> "")
  /\ (publishTimeLabels !! "week"
      = Some (label_of publishTimeLabels "week")
      /\ label_of publishTimeLabels "week" <> "")
  /\ (searchScopeLabels !! "all" = Some (label_of searchScopeLabels "all")
      /\ label_of searchScopeLabels "all" <> "")
  /\ (distanceLabels !! "all" = Some (label_of distanceLabels "all")
      /\ label_of distanceLabels "all" <> "")
  /\ (isDefault (Some (mkSearchFilters "latest" "all" "week" "all" "all"))
      = true <->
      or_default SortDefault "latest" = SortDefault
      /\ or_default NoteTypeAll "" = NoteTypeAll
      /\ or_default PublishAll "week" = PublishAll
      /\ or_default ScopeAll "" = ScopeAll
      /\ or_default DistanceAll "all" = DistanceAll).
Proof.
  apply (validated_filters_have_labels "latest" "" "week" "" "all"
           (mkSearchFilters "latest" "all" "week" "all" "all")).
  vm_compute; reflexivity.
Defined.

End FilterPanelFacts.

(** ** Listing the accounts, again *)

Section OrderFacts.

Lemma ascii_compare_trans (x y z : ascii) :
  Ascii.compare x y <> Gt -> Ascii.compare y z <> Gt ->
  Ascii.compare x z <> Gt
  /\ (Ascii.compare x z = Eq ->
      Ascii.compare x y = Eq /\ Ascii.compare y z = Eq).
Proof.
  unfold Ascii.compare.
  destruct (N.compare_spec (N_of_ascii x) (N_of_ascii y)),
           (N.compare_spec (N_of_ascii y) (N_of_ascii z)),
           (N.compare_spec (N_of_ascii x) (N_of_ascii z));
    try done; lia.
Qed.

Lemma string_compare_trans (a : string) :
  forall b c : string,
    String.compare a b <> Gt -> String.compare b c <> Gt ->
    String.compare a c <> Gt.
Proof.
  induction a as [|x a IH]; intros [|y b] [|z c]; cbn; try done.
  destruct (Ascii.compare x y) eqn:Exy; [| |done];
    destruct (Ascii.compare y z) eqn:Eyz; try done; intros Hab Hbc;
    destruct (ascii_compare_trans x y z) as [Hxz Heq];
    try (by rewrite ?Exy, ?Eyz);
    destruct (Ascii.compare x z) eqn:Exz; try done;
    try (destruct Heq as [? ?]; [done|]; congruence).
  by eapply IH.
Qed.

Lemma string_leb_trans (a b c : string) :
  String.leb a b = true -> String.leb b c = true -> String.leb a c = true.
Proof.
  unfold String.leb. intros Hab Hbc.
  pose proof (string_compare_trans a b c) as H.
  destruct (String.compare a b), (String.compare b c),
           (String.compare a c); try done; by exfalso; apply H.
Qed.

Lemma id_le_trans (a b c : AccountInfo) : id_le a b -> id_le b c -> id_le a c.
Proof. apply string_leb_trans. Qed.

Lemma sorted_ids_unique (l1 : list AccountInfo) :
  forall l2 : list AccountInfo,
    Sorted id_le l1 -> Sorted id_le l2 -> NoDup (map ID l1) -> l1 ≡ₚ l2 ->
    l1 = l2.
Proof.
  induction l1 as [|x t IH]; intros l2 S1 S2 Hnd Hp.
  - by apply Permutation_nil in Hp.
  - destruct l2 as [|y t'].
    { by apply Permutation_sym, Permutation_nil in Hp. }
    apply (Sorted_StronglySorted id_le_trans) in S1 as S1', S2 as S2'.
    apply StronglySorted_inv in S1' as [S1t F1], S2' as [S2t F2].
    rewrite List.Forall_forall in F1, F2.
    assert (Hxy : x = y).
    { assert (Hx : x ∈ y :: t') by (rewrite <- Hp; left).
      assert (Hy : y ∈ x :: t) by (rewrite Hp; left).
      apply elem_of_cons in Hx as [Hx|Hx]; [done|].
      apply elem_of_cons in Hy as [Hy|Hy]; [done|].
      exfalso. cbn in Hnd. apply NoDup_cons in Hnd as [Hnd _]. apply Hnd.
      apply list_elem_of_fmap. exists y. split; [|done].
      apply String.leb_antisym.
      - apply F1. by apply list_elem_of_In.
      - apply F2. by apply list_elem_of_In. }
    subst y. f_equal. apply IH.
    + by apply StronglySorted_Sorted.
    + by apply StronglySorted_Sorted.
    + cbn in Hnd. by apply NoDup_cons in Hnd as [_ Hnd].
    + by apply Permutation_cons_inv in Hp.
Qed.

End OrderFacts.

Section SettledFacts.
Import os strings accounts.

Lemma all_dirs_child (m : filesys) (dir : path) (c : string) :
  all_dirs [] (dir ++ [c]) m -> m !! (dir ++ [c]) = Some Dir.
Proof. intros [_ H]%all_dirs_app. cbn in H. by destruct H. Qed.

Lemma ensureMeta_settled (raw id : string) (w : World) (meta : AccountMeta) :
  sanitizeAccountID raw = Ok id -> has_meta w id meta ->
  ensureMeta raw w = (Ok meta, w).
Proof.
  intros Hs (root & Hr & Ha & Hf & Ht & Hc & Hu).
  rewrite <- app_snoc2 in Hf.
  unfold ensureMeta.
  erewrite bind_Ok by by eapply metaPath_noop.
  rewrite ReadFile_entry, Hf by done. cbn [json_Unmarshal].
  erewrite bind_Ok by by apply normalizeAccountMeta_noop.
  by erewrite bind_Ok by by apply saveAccountMeta_noop.
Qed.

Lemma ensureMeta_has_meta (raw id : string) (w w' : World)
    (meta : AccountMeta) :
  sanitizeAccountID raw = Ok id -> ensureMeta raw w = (Ok meta, w') ->
  has_meta w' id (trimmed_meta meta).
Proof.
  intros Hs H.
  apply ensureMeta_spec in H as (id' & root & Hs' & Hr & G & A & F & Hc & Hu).
  rewrite Hs in Hs'. injection Hs' as <-.
  exists root. splits; try done.
  - by rewrite (grows_accounts_root _ _ G).
  - apply TrimSpace_idem.
Qed.

Lemma has_meta_step (id : string) (meta : AccountMeta) (w w' : World)
    (root : path) :
  has_meta w id meta -> accounts_root w = Some root ->
  accounts_root w' = Some root -> keeps_dirs (fs w) (fs w') ->
  fs w' !! (root ++ [id; metaFileName])
  = fs w !! (root ++ [id; metaFileName]) ->
  has_meta w' id meta.
Proof.
  intros (root' & Hr' & Ha & Hf & Ht & Hc & Hu) Hr Hr1 Hk He.
  rewrite Hr in Hr'. injection Hr' as <-.
  exists root. splits; try done.
  - by eapply all_dirs_mono.
  - by rewrite He.
Qed.

Lemma has_meta_ensureMeta (id raw : string) (meta : AccountMeta)
    (w w' : World) (r : Result AccountMeta) :
  has_meta w id meta -> ensureMeta raw w = (r, w') -> has_meta w' id meta.
Proof.
  intros Hm H.
  destruct (sanitizeAccountID raw) as [idc|e] eqn:Hs.
  2:{ unfold ensureMeta, metaPath, accountDir in H. rewrite Hs in H.
      cbn in H. by injection H as <- <-. }
  destruct (decide (idc = id)) as [->|Hne].
  - rewrite (ensureMeta_settled _ _ _ _ Hs Hm) in H. by injection H as <- <-.
  - pose proof Hm as (root & Hr & Ha & Hf & _).
    pose proof (ensureMeta_but _ _ _ _ _ _ Hs Hr H) as Hb.
    eapply has_meta_step; try done.
    + by rewrite (keeps_root _ _ (ensureMeta_keeps _ _ _ _ H)).
    + by eapply persists_keeps_dirs, ensureMeta_persists.
    + rewrite Hf. apply Hb; [done|].
      intros E. apply app_inv_head in E. congruence.
Qed.

Lemma has_meta_EnsureAccount (id raw idc : string) (meta : AccountMeta)
    (w w' : World) (r : Result unit) :
  sanitizeAccountID raw = Ok idc -> idc <> id ->
  has_meta w id meta -> EnsureAccount raw w = (r, w') -> has_meta w' id meta.
Proof.
  intros Hs Hne Hm H.
  pose proof Hm as (root & Hr & Ha & Hf & _).
  pose proof (EnsureAccount_but _ _ _ _ _ _ Hs Hr H) as Hb.
  eapply has_meta_step; try done.
  - by rewrite (keeps_root _ _ (EnsureAccount_keeps _ _ _ _ H)).
  - by eapply persists_keeps_dirs, EnsureAccount_persists.
  - rewrite Hf. apply Hb; [done|].
    intros E. apply app_inv_head in E. congruence.
Qed.

Lemma has_meta_inj (w : World) (id : string) (m1 m2 : AccountMeta) :
  has_meta w id m1 -> has_meta w id m2 -> m1 = m2.
Proof.
  intros (r1 & Hr1 & _ & Hf1 & _) (r2 & Hr2 & _ & Hf2 & _).
  rewrite Hr1 in Hr2. injection Hr2 as <-. congruence.
Qed.

Lemma has_meta_stored (w : World) (id : string) (meta : AccountMeta) :
  has_meta w id meta -> stored_meta w id = Some meta.
Proof.
  intros (root & Hr & _ & Hf & _). unfold stored_meta. by rewrite Hr, Hf.
Qed.

Lemma info_eq (a b : AccountInfo) :
  ID a = ID b -> meta_of a = meta_of b -> a = b.
Proof. destruct a, b. cbn. by intros -> [= -> -> ->]. Qed.

Lemma meta_of_info_of (id : string) (m : AccountMeta) :
  meta_of (info_of id m) = m.
Proof. by destruct m. Qed.

Lemma list_entries_settles (entries : list DirEntry) :
  forall (acc infos : list AccountInfo) (w w' : World),
    (forall e, e ∈ entries -> EntryIsDir e = true ->
       sanitizeAccountID (Name e) = Ok (Name e)) ->
    (forall info, info ∈ acc ->
       has_meta w (ID info) (meta_of (trim_info info))) ->
    list_entries entries acc w = (Ok infos, w') ->
    forall info, info ∈ infos ->
      has_meta w' (ID info) (meta_of (trim_info info)).
Proof.
  induction entries as [|e entries IH]; intros acc infos w w' Hcan Hacc H.
  - simpl in H. unfold ret in H. by simplify_eq.
  - simpl in H. destruct (EntryIsDir e) eqn:Hd; simpl in H.
    + io_inv H. eapply IH; [| |done].
      * intros e' He'. apply Hcan. by right.
      * intros info [Hi| ->%list_elem_of_singleton]%elem_of_app.
        -- eapply has_meta_ensureMeta; [|done]. by apply Hacc.
        -- eapply (ensureMeta_has_meta (Name e)); [|done].
           apply Hcan; [by left|done].
    + eapply IH; [| |done]; [|done].
      intros e' He'. apply Hcan. by right.
Qed.

Lemma list_entries_settled (entries : list DirEntry) :
  forall (acc : list AccountInfo) (w : World),
    (forall e, e ∈ entries -> EntryIsDir e = true ->
       sanitizeAccountID (Name e) = Ok (Name e)
       /\ exists m, has_meta w (Name e) m) ->
    exists infos',
      list_entries entries acc w = (Ok (acc ++ infos'), w)
      /\ map ID infos'
         = map Name (filter (fun e => EntryIsDir e = true) entries)
      /\ (forall info, info ∈ infos' -> has_meta w (ID info) (meta_of info)).
Proof.
  induction entries as [|e entries IH]; intros acc w Hall.
  - exists []. rewrite app_nil_r. splits; try done.
    by intros info ?%elem_of_nil.
  - rewrite filter_cons. simpl. destruct (EntryIsDir e) eqn:Hd; simpl.
    + destruct (Hall e) as (Hs & m & Hm); [by left|done|].
      destruct (IH (acc ++ [info_of (Name e) m]) w) as (l & Hl & Hids & Hms).
      { intros e' He'. apply Hall. by right. }
      exists (info_of (Name e) m :: l).
      rewrite ?decide_True by done. splits.
      * erewrite bind_Ok by by eapply ensureMeta_settled.
        by rewrite Hl, <- app_assoc.
      * cbn. by rewrite Hids.
      * intros info [->|Hi]%elem_of_cons; [|by apply Hms].
        by rewrite meta_of_info_of.
    + destruct (IH acc w) as (l & Hl & Hids & Hms).
      { intros e' He'. apply Hall. by right. }
      exists l. by rewrite ?decide_False by done.
Qed.

Lemma accountDir_children (raw id c : string) (w w' : World) (dir : path)
    (root : path) :
  sanitizeAccountID raw = Ok id -> accounts_root w = Some root -> c <> id ->
  accountDir raw w = (Ok dir, w') ->
  fs w' !! (root ++ [c]) = fs w !! (root ++ [c]).
Proof.
  intros Hs Hr Hne H. unfold accountDir in H. rewrite Hs in H. io_inv H.
  pose proof (accountsRootDir_spec _ _ _ Hstep) as (Hr' & _).
  rewrite Hr in Hr'. injection Hr' as <-.
  rewrite <- (accountsRootDir_children _ _ _ c Hstep).
  eapply ensure_dir_frame; [done|].
  intros r E. rewrite <- app_assoc in E. apply app_inv_head in E.
  by injection E as ->.
Qed.

Lemma EnsureAccount_children (raw id c : string) (w w' : World) (u : unit)
    (root : path) :
  sanitizeAccountID raw = Ok id -> accounts_root w = Some root -> c <> id ->
  EnsureAccount raw w = (Ok u, w') ->
  fs w' !! (root ++ [c]) = fs w !! (root ++ [c]).
Proof.
  intros Hs Hr Hne H. unfold EnsureAccount in H.
  apply bind_Ok_inv in H as (p & wa & Hc & H).
  apply bind_Ok_inv in H as (d & wb & Hi & H).
  apply bind_Ok_inv in H as (m & wc & Hm & H).
  unfold ret in H. injection H as _ <-.
  pose proof (CookiesPath_spec _ _ _ _ Hc) as (i1 & r1 & Hs1 & Hr1 & _ & G1 & A1).
  rewrite Hs in Hs1. injection Hs1 as <-.
  rewrite Hr in Hr1. injection Hr1 as <-.
  pose proof (grows_accounts_root _ _ G1) as Hra. rewrite Hr in Hra.
  pose proof (ImagesDir_spec _ _ _ _ Hi) as (i2 & r2 & Hs2 & Hr2 & _ & G2 & _).
  rewrite Hs in Hs2. injection Hs2 as <-.
  pose proof (grows_accounts_root _ _ G2) as Hrb. rewrite Hra in Hrb.
  unfold CookiesPath in Hc. apply bind_Ok_inv in Hc as (d1 & w1 & Hd1 & Hc).
  unfold ret in Hc. injection Hc as _ <-.
  unfold ImagesDir in Hi. apply bind_Ok_inv in Hi as (d2 & w2 & Hd2 & Hi).
  apply bind_Ok_inv in Hi as (u2 & w3 & He & Hi).
  unfold ret in Hi. injection Hi as _ <-.
  pose proof (accountDir_spec _ _ _ _ Hd2) as (i3 & r3 & Hs3 & Hr3 & -> & G3 & A3).
  rewrite Hs in Hs3. injection Hs3 as <-.
  rewrite Hra in Hr3. injection Hr3 as <-.
  rewrite <- (accountDir_children _ _ c _ _ _ _ Hs Hr Hne Hd1).
  rewrite <- (accountDir_children _ _ c _ _ _ _ Hs Hra Hne Hd2).
  rewrite <- (ensure_dir_frame _ _ (root ++ [c]) _ _ _ He).
  2:{ intros r E. rewrite <- !app_assoc in E. apply app_inv_head in E.
      by injection E as ->. }
  eapply ensureMeta_frame; try done.
  - eapply grows_all_dirs; [|done].
    by apply ensure_dir_spec in He as [? _].
  - apply child_not_meta.
Qed.

End SettledFacts.

Section SettlingFacts.
Import os strings accounts.

Lemma sanitize_defaultAccountID :
  sanitizeAccountID defaultAccountID = Ok defaultAccountID.
Proof. by vm_compute. Qed.

Lemma ListAccounts_first (w w1 : World) (infos : list AccountInfo) :
  store_wf w -> ListAccounts w = (Ok infos, w1) ->
  exists root infos1,
    infos = sort_Slice id_less infos1
    /\ accounts_root w1 = Some root /\ all_dirs [] root (fs w1)
    /\ NoDup (map ID infos1)
    /\ (forall info, info ∈ infos1 ->
          has_meta w1 (ID info) (meta_of (trim_info info)))
    /\ (forall c n, fs w1 !! (root ++ [c]) = Some n ->
          n = Dir /\ sanitizeAccountID c = Ok c /\ c ∈ map ID infos1)
    /\ fs w1 !! (root ++ [defaultAccountID]) = Some Dir.
Proof.
  intros Hwf H. unfold ListAccounts in H.
  apply bind_Ok_inv in H as (root & w0 & Hroot & H).
  apply bind_Ok_inv in H as (entries & w0' & Hrd & H).
  apply read_fs_inv in Hrd as [Hrd ->].
  apply bind_Ok_inv in H as (infos0 & wl & Hloop & H).
  apply bind_Ok_inv in H as (infos1 & w1' & Hdef & H).
  unfold ret in H. injection H as <- <-.
  pose proof (accountsRootDir_spec _ _ _ Hroot) as (Hr & G0 & A0).
  assert (Hr0 : accounts_root w0 = Some root)
    by by rewrite (grows_accounts_root _ _ G0).
  assert (Hwf0 : store_wf w0).
  { destruct (accountsRootDir_keeps _ _ _ Hroot) as (_ & _ & K). by apply K. }
  assert (Hent : forall e, e ∈ entries -> EntryIsDir e = true ->
                   fs w0 !! (root ++ [Name e]) = Some Dir
                   /\ sanitizeAccountID (Name e) = Ok (Name e)).
  { intros e He Hd.
    apply (ReadDir_elem _ _ _ e Hrd) in He as (n & Hn & Hd').
    by destruct (Hwf0 root (Name e) n Hr0 Hn) as [-> Hs]. }
  pose proof (list_entries_spec root entries [] infos0 w0 wl Hr0 A0 Hent Hloop)
    as (Gl & Hch & Hlisted & _).
  assert (Hset : forall info, info ∈ infos0 ->
                   has_meta wl (ID info) (meta_of (trim_info info))).
  { eapply (list_entries_settles entries []); [| |done].
    - intros e He Hd. by apply Hent.
    - by intros info ?%elem_of_nil. }
  pose proof (list_entries_ids _ _ _ _ _ Hloop) as Hids. cbn [map app] in Hids.
  assert (Hnd0 : NoDup (map ID infos0)).
  { rewrite Hids. apply NoDup_map_filter. by eapply ReadDir_NoDup. }
  assert (Hrl : accounts_root wl = Some root)
    by by rewrite (grows_accounts_root _ _ Gl).
  assert (Al : all_dirs [] root (fs wl)) by by eapply grows_all_dirs.
  assert (Hkids : forall c n, fs wl !! (root ++ [c]) = Some n ->
                    n = Dir /\ sanitizeAccountID c = Ok c
                    /\ c ∈ map ID infos0).
  { intros c n Hn. rewrite Hch in Hn.
    destruct (Hwf0 root c n Hr0 Hn) as [-> Hs]. splits; try done.
    destruct (Hlisted (mkDirEntry c true)) as (info & Hi & Hid); [|done|].
    - eapply ReadDir_elem; [done|]. by exists Dir.
    - apply list_elem_of_fmap. by exists info. }
  cbv beta in Hdef. rewrite Stat_entry in Hdef by done.
  destruct (fs wl !! (root ++ [defaultAccountID])) as [n|] eqn:Ed.
  { injection Hdef as <- <-. exists root, infos0. splits; try done.
    by destruct (Hkids _ _ Ed) as [-> _]. }
  cbn [IsNotExist] in Hdef.
  apply bind_Ok_inv in Hdef as (u & wa & Hens & Hdef).
  apply bind_Ok_inv in Hdef as (md & wb & Hmd & Hdef).
  unfold ret in Hdef. injection Hdef as <- <-.
  pose proof sanitize_defaultAccountID as Hsd.
  assert (Hra : accounts_root wa = Some root)
    by by rewrite (keeps_root _ _ (EnsureAccount_keeps _ _ _ _ Hens)).
  assert (Hrb : accounts_root wb = Some root)
    by by rewrite (keeps_root _ _ (ensureMeta_keeps _ _ _ _ Hmd)).
  pose proof (ensureMeta_has_meta _ _ _ _ _ Hsd Hmd) as Hmeta.
  assert (Hnot : forall info, info ∈ infos0 -> ID info <> defaultAccountID).
  { intros info Hi E. destruct (Hset info Hi) as (r & Hr' & Ha & _).
    rewrite Hrl in Hr'. injection Hr' as <-.
    apply all_dirs_child in Ha. rewrite E in Ha. congruence. }
  assert (Adef : all_dirs [] (root ++ [defaultAccountID]) (fs wa)).
  { apply EnsureAccount_spec in Hens as (id & m & Hs & (r & Hr' & Ha & _) & _).
    rewrite Hsd in Hs. injection Hs as <-.
    rewrite Hra in Hr'. injection Hr' as <-.
    rewrite <- app_snoc2 in Ha. by apply all_dirs_parent in Ha. }
  exists root, (infos0 ++ [info_of defaultAccountID md]).
  rewrite map_app. cbn [map ID info_of]. splits; try done.
  - eapply all_dirs_mono; [|done].
    intros q Hq.
    eapply persists_keeps_dirs; [by eapply ensureMeta_persists|].
    eapply persists_keeps_dirs; [by eapply EnsureAccount_persists|done].
  - apply NoDup_app. splits; [done| |apply NoDup_singleton].
    intros c (info & -> & Hi)%list_elem_of_fmap E%list_elem_of_singleton.
    by apply (Hnot info).
  - intros info [Hi| ->%list_elem_of_singleton]%elem_of_app; [|done].
    eapply has_meta_ensureMeta; [|done].
    eapply has_meta_EnsureAccount; [done| | |done].
    + intros E. by apply (Hnot info).
    + by apply Hset.
  - intros c n Hn. destruct (decide (c = defaultAccountID)) as [->|Hne].
    + destruct Hmeta as (r & Hr' & Ha & _).
      rewrite Hrb in Hr'. injection Hr' as <-.
      apply all_dirs_child in Ha. rewrite Ha in Hn. injection Hn as <-.
      splits; try done. apply elem_of_app. right. by left.
    + rewrite (ensureMeta_frame _ _ _ _ _ _ _ Hsd Hra Adef Hmd) in Hn
        by apply child_not_meta.
      rewrite (EnsureAccount_children _ _ c _ _ _ _ Hsd Hrl Hne Hens) in Hn.
      destruct (Hkids c n Hn) as (-> & Hs & Hin). splits; try done.
      apply elem_of_app. by left.
  - destruct Hmeta as (r & Hr' & Ha & _).
    rewrite Hrb in Hr'. injection Hr' as <-. by apply all_dirs_child in Ha.
Qed.

Lemma ListAccounts_second (w : World) (root : path) :
  accounts_root w = Some root -> all_dirs [] root (fs w) ->
  (forall c n, fs w !! (root ++ [c]) = Some n -> is_Dir n = true ->
     sanitizeAccountID c = Ok c /\ exists m, has_meta w c m) ->
  fs w !! (root ++ [defaultAccountID]) = Some Dir ->
  exists infos',
    ListAccounts w = (Ok (sort_Slice id_less infos'), w)
    /\ NoDup (map ID infos')
    /\ (forall info, info ∈ infos' -> has_meta w (ID info) (meta_of info))
    /\ (forall c, fs w !! (root ++ [c]) = Some Dir -> c ∈ map ID infos').
Proof.
  intros Hr A Hkids Hdef. unfold ListAccounts.
  erewrite bind_Ok by by apply accountsRootDir_noop.
  assert (Hrd : exists entries, ReadDir root (fs w) = Ok entries).
  { unfold ReadDir. rewrite Stat_dir by done. by eexists. }
  destruct Hrd as [entries Hrd].
  erewrite bind_Ok by (unfold read_fs; by rewrite Hrd).
  destruct (list_entries_settled entries [] w) as (infos' & Hl & Hids & Hms).
  { intros e He Hd.
    apply (ReadDir_elem _ _ _ e Hrd) in He as (n & Hn & Hd').
    apply (Hkids _ n); [done|congruence]. }
  cbn [app] in Hl. erewrite bind_Ok by exact Hl.
  erewrite bind_Ok by by rewrite Stat_entry, Hdef.
  exists infos'. splits; try done.
  - rewrite Hids. apply NoDup_map_filter. by eapply ReadDir_NoDup.
  - intros c Hc. rewrite Hids. apply list_elem_of_fmap.
    exists (mkDirEntry c true). split; [done|].
    apply list_elem_of_filter. split; [done|].
    eapply ReadDir_elem; [done|]. by exists Dir.
Qed.

Lemma Sorted_trim_info (l : list AccountInfo) :
  Sorted id_le l -> Sorted id_le (map trim_info l).
Proof.
  induction 1 as [|x l S IH Hd]; [constructor|].
  cbn. constructor; [done|]. by destruct Hd; constructor.
Qed.

Lemma map_ID_trim_info (l : list AccountInfo) :
  map ID (map trim_info l) = map ID l.
Proof. induction l as [|x l IH]; [done|]. cbn. by rewrite IH. Qed.

(** X24.  Listing settles the store.  In a store whose accounts root holds
    account directories only, a successful [ListAccounts] leaves the
    metadata of every account it lists in the file of that account, with
    the time stamps it returned and the remark it returned, trimmed.  A
    further listing changes nothing, the clock included, and returns the
    same accounts in the same order: they differ from the first answer in
    the remarks at most, which are now trimmed. *)
Theorem ListAccounts_settles (w w1 : World) (infos : list AccountInfo) :
  store_wf w -> ListAccounts w = (Ok infos, w1) ->
  ListAccounts w1 = (Ok (map trim_info infos), w1)
  /\ (forall info, info ∈ infos ->
        stored_meta w1 (ID info) = Some (meta_of (trim_info info))).
Proof.
  intros Hwf H.
  destruct (ListAccounts_first _ _ _ Hwf H)
    as (root & infos1 & -> & Hr & A & Hnd & Hset & Hkids & Hdef).
  assert (Hall : forall info, info ∈ sort_Slice id_less infos1 ->
                   has_meta w1 (ID info) (meta_of (trim_info info))).
  { intros info Hi. apply Hset. by rewrite <- (sort_Slice_perm id_less). }
  split; [|intros info Hi; by apply has_meta_stored, Hall].
  destruct (ListAccounts_second w1 root Hr A) as (infos' & -> & Hnd' & Hms & Hin);
    [|done|].
  { intros c n Hn _. destruct (Hkids c n Hn) as (-> & Hs & Hc).
    split; [done|].
    apply list_elem_of_fmap in Hc as (info & -> & Hi). eexists. by apply Hset. }
  f_equal. f_equal.
  apply sorted_ids_unique.
  - apply sort_Slice_sorted.
  - apply Sorted_trim_info, sort_Slice_sorted.
  - by rewrite (sort_Slice_perm id_less).
  - rewrite (sort_Slice_perm id_less infos').
    rewrite (sort_Slice_perm id_less infos1).
    apply NoDup_Permutation.
    + by eapply NoDup_fmap_1.
    + eapply (NoDup_fmap_1 ID). by rewrite map_ID_trim_info.
    + intros x. rewrite list_elem_of_fmap. split.
      * intros Hx. pose proof (Hms x Hx) as Hm.
        pose proof Hm as (r & Hr' & Ha & _).
        rewrite Hr in Hr'. injection Hr' as <-.
        apply all_dirs_child in Ha.
        destruct (Hkids _ _ Ha) as (_ & _ & Hc).
        apply list_elem_of_fmap in Hc as (info & Hid & Hi).
        exists info. split; [|done].
        apply info_eq; [done|].
        eapply has_meta_inj; [done|]. rewrite Hid. by apply Hset.
      * intros (info & -> & Hi). pose proof (Hset info Hi) as Hm.
        pose proof Hm as (r & Hr' & Ha & _).
        rewrite Hr in Hr'. injection Hr' as <-.
        apply all_dirs_child, Hin in Ha.
        apply list_elem_of_fmap in Ha as (y & Hid & Hy).
        replace (trim_info info) with y; [done|].
        apply info_eq; [done|].
        eapply has_meta_inj; [by apply Hms|]. by rewrite <- Hid.
Qed.

Lemma ListAccounts_settles_witness :
  exists infos w1,
    ListAccounts fresh_world = (Ok infos, w1)
    /\ ListAccounts w1 = (Ok (map trim_info infos), w1)
    /\ (forall info, info ∈ infos ->
          stored_meta w1 (ID info) = Some (meta_of (trim_info info))).
Proof.
  eexists _, _. split; [vm_compute; reflexivity|].
  apply (ListAccounts_settles fresh_world); [apply fresh_world_wf|].
  vm_compute; reflexivity.
Defined.

End SettlingFacts.

Section ListingEdgeFacts.
Import os strings accounts.

(** X25.  An account that was ensured is listed.  After a successful
    [EnsureAccount], a successful [ListAccounts] has an entry for the
    resolved identifier, and the entry carries the metadata that is stored
    for the account: a creation time and an update time that are set. *)
Theorem EnsureAccount_listed (raw : string) (w w1 w2 : World)
    (infos : list AccountInfo) :
  EnsureAccount raw w = (Ok tt, w1) ->
  ListAccounts w1 = (Ok infos, w2) ->
  exists id info,
    sanitizeAccountID raw = Ok id
    /\ info ∈ infos /\ ID info = id
    /\ stored_meta w1 id = Some (meta_of info)
    /\ InfoCreatedAt info <> 0 /\ InfoUpdatedAt info <> 0.
Proof.
  intros He Hl.
  apply EnsureAccount_spec in He as (id & meta & Hs & Hm & _).
  pose proof (ListAccounts_materialized _ _ _ _ _
                (sanitize_canonical _ _ Hs) Hm Hl) as Hin.
  exists id, (info_of id meta). rewrite meta_of_info_of.
  splits; try done.
  - by apply materialized_stored.
  - by destruct Hm as (? & _ & _ & _ & _ & ? & _).
  - by destruct Hm as (? & _ & _ & _ & _ & _ & ?).
Qed.

Lemma EnsureAccount_listed_witness :
  exists w1 infos w2,
    EnsureAccount " shop_01 " fresh_world = (Ok tt, w1)
    /\ ListAccounts w1 = (Ok infos, w2)
    /\ exists id info,
         sanitizeAccountID " shop_01 " = Ok id
         /\ info ∈ infos /\ ID info = id
         /\ stored_meta w1 id = Some (meta_of info)
         /\ InfoCreatedAt info <> 0 /\ InfoUpdatedAt info <> 0.
Proof.
  eexists _, _, _. split; [vm_compute; reflexivity|].
  split; [vm_compute; reflexivity|].
  eapply (EnsureAccount_listed " shop_01 " fresh_world);
    vm_compute; reflexivity.
Defined.

Lemma list_entries_invalid (c : string) (entries : list DirEntry) :
  forall (acc : list AccountInfo) (w w' : World)
         (r : Result (list AccountInfo)),
    isOk (sanitizeAccountID c) = false ->
    mkDirEntry c true ∈ entries ->
    list_entries entries acc w = (r, w') -> isOk r = false.
Proof.
  induction entries as [|e entries IH]; intros acc w w' r Hs Hin H.
  - by apply elem_of_nil in Hin.
  - simpl in H. apply elem_of_cons in Hin as [<-|Hin].
    + cbn in H. apply bind_inv in H as [(m & w1 & H1 & _)|(err & _ & ->)];
        [|done].
      apply ensureMeta_spec in H1 as (id & _ & Hs' & _).
      by rewrite Hs' in Hs.
    + destruct (EntryIsDir e); simpl in H; [|by eapply IH].
      apply bind_inv in H as [(m & w1 & _ & H)|(err & _ & ->)]; [|done].
      by eapply IH.
Qed.

(** X26.  A foreign directory blocks the listing.  When the accounts root holds
    a directory whose name is not a valid identifier (a name with a dot or
    a space in it, say), [ListAccounts] does not succeed: it returns an
    error, whatever else the root holds. *)
Theorem ListAccounts_foreign_dir (w : World) (root : path) (c : string) :
  accounts_root w = Some root ->
  fs w !! (root ++ [c]) = Some Dir ->
  isOk (sanitizeAccountID c) = false ->
  isOk (fst (ListAccounts w)) = false.
Proof.
  intros Hr Hc Hs.
  destruct (ListAccounts w) as [r w'] eqn:H. cbn [fst].
  unfold ListAccounts in H.
  apply bind_inv in H as [(root' & w0 & Hroot & H)|(err & _ & ->)]; [|done].
  pose proof (accountsRootDir_spec _ _ _ Hroot) as (Hr' & _).
  rewrite Hr in Hr'. injection Hr' as <-.
  rewrite <- (accountsRootDir_children _ _ _ c Hroot) in Hc.
  apply bind_inv in H as [(entries & w0' & Hrd & H)|(err & _ & ->)]; [|done].
  apply read_fs_inv in Hrd as [Hrd ->].
  apply bind_inv in H as [(infos0 & wl & Hloop & H)|(err & Hloop & ->)].
  - apply (list_entries_invalid c) in Hloop; [done|done|].
    eapply ReadDir_elem; [done|]. by exists Dir.
  - done.
Qed.

Lemma ListAccounts_foreign_dir_witness :
  isOk (fst (ListAccounts
               (mkWorld (Some ["srv"; "xhs"]) None
                  (<[ ["srv"; "xhs"; "accounts"; "old.backup"] := Dir ]>
                     (<[ ["srv"; "xhs"; "accounts"] := Dir ]>
                        (<[ ["srv"; "xhs"] := Dir ]>
                           (<[ ["srv"] := Dir ]> ∅))))
                  Pos.of_succ_nat 0))) = false.
Proof.
  apply (ListAccounts_foreign_dir _ ["srv"; "xhs"; "accounts"] "old.backup");
    vm_compute; reflexivity.
Defined.

End ListingEdgeFacts.
